(** * CLIProxy gateway: access providers, model rewriting, thinking levels

    A shallow embedding of the parts of the gateway that its specification
    makes promises about, and the theorems that settle those promises.

    - [GoStrings]: the functions of Go's [strings] and [bytes] packages the
      code calls, on byte strings (ASCII case and blanks).
    - [ConfigAccess]: the [config-api-key] access provider
      (package [configaccess]): [extractBearerToken], [Authenticate].
    - [Access]: [ReconcileProviders] and its helpers (package [access]).
    - [Json], [Amp]: the response rewriter of the amp module
      ([rewriteModelInResponse], [rewriteStreamChunk]).
    - [Translator]: the composite OpenAI-Responses to Antigravity edge.
    - [Thinking], [Gemini3], [Migration]: functions whose bodies are not
      among the sources; they are modelled from the specification and
      checked against the test tables that are.
    - [AccessBuild]: [RegisterProvider], [BuildProviders] (package
      sdk/access) and [ApplyAccessProviders].
    - [AmpWriter]: [Write] and [Flush] of the response rewriter.
    - [Donation], [LinuxDo]: the donation site (package donation):
      session store, role service, middleware, binding store and the
      OAuth authorisation URL. *)

From Stdlib Require Import String Ascii List ZArith Lia Bool.
From stdpp Require Import gmap strings list fin_maps sorting.

#[global] Set Warnings "-clear-no-such-hyp,-abstract-large-number".

(** ** Go's string helpers *)

Module GoStrings.

(** [unicode.ToLower] restricted to one byte: only A-Z change. *)
Definition lower_ascii (c : ascii) : ascii :=
  let n := N_of_ascii c in
  if ((65 <=? n) && (n <=? 90))%N then ascii_of_N (n + 32) else c.

(** [strings.ToLower] on a byte string. *)
Fixpoint ToLower (s : string) : string :=
  match s with
  | EmptyString => EmptyString
  | String c s' => String (lower_ascii c) (ToLower s')
  end.

(** [strings.EqualFold], ASCII letters only. *)
Definition EqualFold (a b : string) : bool :=
  String.eqb (ToLower a) (ToLower b).

(** The blanks [strings.TrimSpace] removes among the one-byte characters:
    tab, line feed, vertical tab, form feed, carriage return and space. *)
Definition is_space (c : ascii) : bool := Ascii.is_space c.

Fixpoint TrimLeft (s : string) : string :=
  match s with
  | EmptyString => EmptyString
  | String c s' => if is_space c then TrimLeft s' else s
  end.

Fixpoint TrimRight (s : string) : string :=
  match s with
  | EmptyString => EmptyString
  | String c s' =>
      match TrimRight s' with
      | EmptyString => if is_space c then EmptyString else String c EmptyString
      | t => String c t
      end
  end.

(** [strings.TrimSpace]. *)
Definition TrimSpace (s : string) : string := TrimRight (TrimLeft s).

(** The text before and after the first occurrence of the byte [sep]. *)
Fixpoint cut (sep : ascii) (s : string) : option (string * string) :=
  match s with
  | EmptyString => None
  | String c s' =>
      if Ascii.eqb c sep then Some (EmptyString, s')
      else match cut sep s' with
           | Some (a, b) => Some (String c a, b)
           | None => None
           end
  end.

(** [strings.SplitN(s, sep, 2)] for a one-byte separator: at most two
    pieces, split at the first separator. *)
Definition SplitN2 (s : string) (sep : ascii) : list string :=
  match cut sep s with
  | Some (a, b) => [a; b]
  | None => [s]
  end.

(** [bytes.Split(s, sep)] for a one-byte separator: every piece between
    separators, so one more piece than there are separators. *)
Fixpoint Split (s : string) (sep : ascii) : list string :=
  match s with
  | EmptyString => [EmptyString]
  | String c s' =>
      if Ascii.eqb c sep then EmptyString :: Split s' sep
      else match Split s' sep with
           | h :: t => String c h :: t
           | [] => [String c EmptyString]
           end
  end.

(** [bytes.Join(pieces, sep)] for a one-byte separator. *)
Fixpoint Join (pieces : list string) (sep : ascii) : string :=
  match pieces with
  | [] => EmptyString
  | [p] => p
  | p :: rest => p +:+ String sep (Join rest sep)
  end.

(** [bytes.HasPrefix]. *)
Definition HasPrefix (s pre : string) : bool := String.prefix pre s.

(** The text of [s] after its first [n] bytes. *)
Fixpoint drop_bytes (n : nat) (s : string) : string :=
  match n, s with
  | O, _ => s
  | S n', String _ s' => drop_bytes n' s'
  | S _, EmptyString => EmptyString
  end.

(** [bytes.TrimPrefix]. *)
Definition TrimPrefix (s pre : string) : string :=
  if HasPrefix s pre then drop_bytes (String.length pre) s else s.

(** Whether the byte [c] occurs in [s]. *)
Fixpoint contains_byte (c : ascii) (s : string) : bool :=
  match s with
  | EmptyString => false
  | String a s' => Ascii.eqb a c || contains_byte c s'
  end.

End GoStrings.

(** ** The config-api-key access provider (package configaccess) *)

Module ConfigAccess.
Import GoStrings.

(** The errors of [sdkaccess] an authenticator can return. *)
Inductive AuthError : Type :=
| ErrNotHandled
| ErrNoCredentials
| ErrInvalidCredential.

(** [sdkaccess.Result]. *)
Record Result : Type := mkResult {
  Provider : string;
  Principal : string;
  Metadata : gmap string string
}.

(** What [Authenticate] returns: a result with a nil error, or an error
    with a nil result. *)
Inductive Outcome : Type :=
| Ok (res : Result)
| Err (e : AuthError).

(** The receiver: a name and the set of accepted keys. *)
Record provider : Type := mkProvider {
  name : string;
  keys : gset string
}.

(** [url.URL], reduced to the parsed query ([URL.Query()]). *)
Record URL : Type := mkURL {
  Query : gmap string (list string)
}.

(** [http.Request], reduced to the header map (canonical names) and the
    URL, which may be nil. *)
Record Request : Type := mkRequest {
  Header : gmap string (list string);
  RequestURL : option URL
}.

(** [http.Header.Get] and [url.Values.Get]: the first value stored under
    the name, the empty string when there is none. *)
Definition Get (m : gmap string (list string)) (key : string) : string :=
  match m !! key with
  | Some (v :: _) => v
  | _ => EmptyString
  end.

Definition extractBearerToken (header : string) : string :=
  if String.eqb header "" then ""
  else
    match SplitN2 header " " with
    | [scheme; token] =>
        if negb (String.eqb (ToLower scheme) "bearer") then header
        else TrimSpace token
    | _ => header
    end.

Section Provider.

(** [sdkconfig.DefaultAccessProviderName]; the constant is declared in a
    package that is not among the sources, so it is a parameter. *)
Variable DefaultAccessProviderName : string.

(** [newProvider]: the key set leaves out empty keys. *)
Definition newProvider (cfgName : string) (cfgAPIKeys : list string) : provider :=
  {| name := if String.eqb cfgName "" then DefaultAccessProviderName else cfgName;
     keys := list_to_set (filter (fun k => k <> EmptyString) cfgAPIKeys) |}.

Definition Identifier (p : option provider) : string :=
  match p with
  | None => DefaultAccessProviderName
  | Some p => if String.eqb (name p) "" then DefaultAccessProviderName else name p
  end.

(** The five candidates in the order the loop tries them, each with the
    source it is reported under. *)
Definition candidates (r : Request) : list (string * string) :=
  let authHeader := Get (Header r) "Authorization" in
  let authHeaderGoogle := Get (Header r) "X-Goog-Api-Key" in
  let authHeaderAnthropic := Get (Header r) "X-Api-Key" in
  let queryKey := match RequestURL r with Some u => Get (Query u) "key" | None => "" end in
  let queryAuthToken := match RequestURL r with Some u => Get (Query u) "auth_token" | None => "" end in
  [ (extractBearerToken authHeader, "authorization");
    (authHeaderGoogle, "x-goog-api-key");
    (authHeaderAnthropic, "x-api-key");
    (queryKey, "query-key");
    (queryAuthToken, "query-auth-token") ].

(** The raw values whose joint emptiness means "no credentials". *)
Definition raw_carriers (r : Request) : list string :=
  [ Get (Header r) "Authorization";
    Get (Header r) "X-Goog-Api-Key";
    Get (Header r) "X-Api-Key";
    match RequestURL r with Some u => Get (Query u) "key" | None => "" end;
    match RequestURL r with Some u => Get (Query u) "auth_token" | None => "" end ].

(** The loop over the candidates: the first non-empty one in the key set. *)
Fixpoint first_match (ks : gset string) (cs : list (string * string)) : option (string * string) :=
  match cs with
  | [] => None
  | (value, source) :: rest =>
      if String.eqb value "" then first_match ks rest
      else if bool_decide (value ∈ ks) then Some (value, source)
      else first_match ks rest
  end.

Definition Authenticate (p : option provider) (r : Request) : Outcome :=
  match p with
  | None => Err ErrNotHandled
  | Some pr =>
      if bool_decide (size (keys pr) = 0) then Err ErrNotHandled
      else if forallb (fun v => String.eqb v "") (raw_carriers r) then Err ErrNoCredentials
      else
        match first_match (keys pr) (candidates r) with
        | Some (value, source) =>
            Ok {| Provider := Identifier p;
                  Principal := value;
                  Metadata := {[ "source" := source ]} |}
        | None => Err ErrInvalidCredential
        end
  end.

End Provider.

(** The credential each of the five carriers holds, in the order they
    are tried. The Authorization header holds the token of its Bearer
    form (or its whole value, when it has another form). *)
Definition credentials (r : Request) : list string := map fst (candidates r).

(** No carrier is present on the request. *)
Definition no_carrier (r : Request) : bool :=
  forallb (fun v => String.eqb v "") (raw_carriers r).

(** The first word of a header value: what stands before its first
    space, the whole value when it has none. *)
Definition first_word (header : string) : string :=
  match cut " " header with
  | Some (a, _) => a
  | None => header
  end.

(** The header value is not of the form "Bearer <token>". *)
Definition not_bearer_form (header : string) : Prop :=
  contains_byte " " header = false \/ ToLower (first_word header) <> "bearer".

(** A provider with two keys, and requests that carry a credential in
    each of the ways the theorems speak of. *)
Definition demo_provider : provider :=
  newProvider "config-inline" "" ["sk-one"; ""; "sk-two"].

Definition request_with_header (h v : string) : Request :=
  {| Header := {[ h := [v] ]}; RequestURL := None |}.

Definition request_with_query (k v : string) : Request :=
  {| Header := ∅; RequestURL := Some {| Query := {[ k := [v] ]} |} |}.

Definition empty_request : Request := {| Header := ∅; RequestURL := None |}.

(** A provider configured without keys. *)
Definition keyless_provider : provider := newProvider "config-inline" "team" [].

End ConfigAccess.

(** ** Reconciling access providers on reload (package access) *)

Module Access.
Import GoStrings.

(** Where a [*sdkConfig.AccessProvider] points: at element [i] of the
    backing array of a configuration's provider slice, or at the object
    one call of [MakeInlineAPIKeyProvider] allocated. The three calls of
    one reconciliation are numbered, so their objects are distinct from
    each other and from every slice element. *)
Inductive ProviderPtr : Type :=
| Slot (base : nat) (i : nat)
| Inline (site : nat).

#[global] Instance ProviderPtr_eq_dec : EqDecision ProviderPtr.
Proof. solve_decision. Defined.

(** Why [sdkaccess.BuildProvider] fails. *)
Inductive BuildError : Type :=
| NilProviderConfig
| TypeNotRegistered (typ : string)
| FactoryFailed (providerName : string).

(** A provider object as reconciliation sees it: the address of the
    object and what its [Identifier()] returns. *)
Record Provider : Type := mkProvider {
  obj : nat;
  Identifier : string
}.

#[global] Instance Provider_eq_dec : EqDecision Provider.
Proof. solve_decision. Defined.

Section Reconcile.

(** The values of a provider's [Config map[string]any]; the code only
    compares them, with [reflect.DeepEqual]. *)
Context {any : Type} `{EqDecision any}.

(** [sdkConfig.AccessProvider]. *)
Record AccessProvider : Type := mkAccessProvider {
  Name : string;
  Typ : string;
  SDK : string;
  APIKeys : list string;
  Config : gmap string any
}.

(** [config.Config], reduced to what reconciliation reads: the provider
    slice [Access.Providers] with the address of its backing array, and
    the inline [APIKeys]. *)
Record Config_ : Type := mkConfig {
  providersBase : nat;
  Access_Providers : list AccessProvider;
  Config_APIKeys : list string
}.

(** A pointer with the configuration it points at. *)
Record Entry : Type := mkEntry {
  ptr : ProviderPtr;
  val : AccessProvider
}.

(** Constants and the helper of package [sdk/config], which is not among
    the sources: they are parameters. *)
Variable DefaultAccessProviderName : string.
Variable AccessProviderTypeConfigAPIKey : string.
Variable MakeInlineAPIKeyProvider : list string -> option AccessProvider.

(** The factories [RegisterProvider] stored, by type. A factory answers
    with the identifier of the provider it builds, or fails. *)
Variable registry : gmap string (AccessProvider -> Config_ -> option string).

Definition providerIdentifier (provider : option AccessProvider) : string :=
  match provider with
  | None => ""
  | Some provider =>
      let name := TrimSpace (Name provider) in
      if negb (String.eqb name "") then name
      else
        let typ := TrimSpace (Typ provider) in
        if String.eqb typ "" then ""
        else if EqualFold typ AccessProviderTypeConfigAPIKey then DefaultAccessProviderName
        else typ
  end.

(** The first loop of [stringSetEqual]: [seen[val]++]. *)
Definition count_up (seen : gmap string nat) (v : string) : gmap string nat :=
  <[v := S (default 0 (seen !! v))]> seen.

(** The second loop: one step, [None] once the function has returned
    false. *)
Definition count_down (acc : option (gmap string nat)) (v : string) : option (gmap string nat) :=
  match acc with
  | None => None
  | Some seen =>
      let count := default 0 (seen !! v) in
      if Nat.eqb count 0 then None
      else if Nat.eqb count 1 then Some (delete v seen)
      else Some (<[v := count - 1]> seen)
  end.

Definition stringSetEqual (a b : list string) : bool :=
  if negb (Nat.eqb (length a) (length b)) then false
  else if Nat.eqb (length a) 0 then true
  else
    match foldl count_down (Some (foldl count_up ∅ a)) b with
    | None => false
    | Some seen => Nat.eqb (size seen) 0
    end.

Definition providerConfigEqual (a b : option AccessProvider) : bool :=
  match a, b with
  | Some a, Some b =>
      if negb (EqualFold (TrimSpace (Typ a)) (TrimSpace (Typ b))) then false
      else if negb (String.eqb (TrimSpace (SDK a)) (TrimSpace (SDK b))) then false
      else if negb (stringSetEqual (APIKeys a) (APIKeys b)) then false
      else if negb (Nat.eqb (size (Config a)) (size (Config b))) then false
      else if Nat.ltb 0 (size (Config a)) && negb (bool_decide (Config a = Config b)) then false
      else true
  | None, None => true
  | _, _ => false
  end.

(** The slice elements with their addresses, as [for i := range] with
    [&cfg.Access.Providers[i]] visits them. *)
Definition slots (cfg : Config_) : list Entry :=
  imap (fun i p => {| ptr := Slot (providersBase cfg) i; val := p |}) (Access_Providers cfg).

Definition accessProviderMap_step (result : gmap string Entry) (e : Entry) : gmap string Entry :=
  if String.eqb (Typ (val e)) "" then result
  else
    let key := providerIdentifier (Some (val e)) in
    if String.eqb key "" then result
    else <[key := e]> result.

Definition accessProviderMap (cfg : option Config_) : gmap string Entry :=
  match cfg with
  | None => ∅
  | Some cfg =>
      let result := foldl accessProviderMap_step ∅ (slots cfg) in
      if Nat.eqb (size result) 0 && Nat.ltb 0 (length (Config_APIKeys cfg)) then
        match MakeInlineAPIKeyProvider (Config_APIKeys cfg) with
        | Some provider =>
            let key := providerIdentifier (Some provider) in
            if negb (String.eqb key "") then <[key := {| ptr := Inline 0; val := provider |}]> result
            else result
        | None => result
        end
      else result
  end.

Definition collectProviderEntries (cfg : Config_) : list Entry :=
  let entries :=
    filter (fun e => Typ (val e) <> "" /\ providerIdentifier (Some (val e)) <> "") (slots cfg) in
  if Nat.eqb (length entries) 0 && Nat.ltb 0 (length (Config_APIKeys cfg)) then
    match MakeInlineAPIKeyProvider (Config_APIKeys cfg) with
    | Some inline => entries ++ [{| ptr := Inline 1; val := inline |}]
    | None => entries
    end
  else entries.

(** [sdkaccess.BuildProvider]; the new object is allocated at [next]. *)
Definition BuildProvider (cfg : option AccessProvider) (root : Config_) (next : nat)
  : Provider + BuildError :=
  match cfg with
  | None => inr NilProviderConfig
  | Some cfg =>
      match registry !! Typ cfg with
      | None => inr (TypeNotRegistered (Typ cfg))
      | Some factory =>
          match factory cfg root with
          | Some ident => inl {| obj := next; Identifier := ident |}
          | None => inr (FactoryFailed (Name cfg))
          end
      end
  end.

(** The providers registered so far, by identifier; a later one with the
    same identifier replaces an earlier one, nil entries are skipped. *)
Definition existingMap_of (existing : list (option Provider)) : gmap string Provider :=
  foldl (fun m provider =>
           match provider with
           | None => m
           | Some provider => <[Identifier provider := provider]> m
           end) ∅ existing.

Definition isInlineProvider (id : string) : bool :=
  EqualFold id DefaultAccessProviderName.

Definition appendChange (ids : list string) (id : string) : list string :=
  if isInlineProvider id then ids else ids ++ [id].

(** The variables the loops of [ReconcileProviders] update, and the next
    free address. *)
Record LoopState : Type := mkLoopState {
  st_result : list Provider;
  st_finalIDs : gset string;
  st_added : list string;
  st_updated : list string;
  st_next : nat
}.

(** What the main loop reuses for an entry: the registered provider, when
    the entry is not of the config-api-key type, its previous
    configuration is another object and equal to it, and a provider is
    registered under its identifier. *)
Definition reusable (oldCfgMap : gmap string Entry) (existingMap : gmap string Provider)
    (e : Entry) : option Provider :=
  let key := providerIdentifier (Some (val e)) in
  let forceRebuild := EqualFold (TrimSpace (Typ (val e))) AccessProviderTypeConfigAPIKey in
  match oldCfgMap !! key with
  | Some oldCfgProvider =>
      let isAliased := bool_decide (ptr oldCfgProvider = ptr e) in
      if negb forceRebuild && negb isAliased
         && providerConfigEqual (Some (val oldCfgProvider)) (Some (val e))
      then existingMap !! key
      else None
  | None => None
  end.

(** One iteration of [for _, providerCfg := range newEntries]. *)
Definition reconcile_step (newCfg : Config_) (oldCfgMap : gmap string Entry)
    (existingMap : gmap string Provider) (st : LoopState) (e : Entry)
  : LoopState + BuildError :=
  let key := providerIdentifier (Some (val e)) in
  if String.eqb key "" then inl st
  else
    match reusable oldCfgMap existingMap e with
    | Some existingProvider =>
        inl {| st_result := st_result st ++ [existingProvider];
               st_finalIDs := {[ key ]} ∪ st_finalIDs st;
               st_added := st_added st;
               st_updated := st_updated st;
               st_next := st_next st |}
    | None =>
        match BuildProvider (Some (val e)) newCfg (st_next st) with
        | inr buildErr => inr buildErr
        | inl provider =>
            let existed := bool_decide (is_Some (oldCfgMap !! key))
                           && bool_decide (is_Some (existingMap !! key)) in
            inl {| st_result := st_result st ++ [provider];
                   st_finalIDs := {[ key ]} ∪ st_finalIDs st;
                   st_added := if existed then st_added st else appendChange (st_added st) key;
                   st_updated := if existed then appendChange (st_updated st) key else st_updated st;
                   st_next := S (st_next st) |}
        end
    end.

Fixpoint reconcile_loop (newCfg : Config_) (oldCfgMap : gmap string Entry)
    (existingMap : gmap string Provider) (st : LoopState) (entries : list Entry)
  : LoopState + BuildError :=
  match entries with
  | [] => inl st
  | e :: rest =>
      match reconcile_step newCfg oldCfgMap existingMap st e with
      | inr err => inr err
      | inl st' => reconcile_loop newCfg oldCfgMap existingMap st' rest
      end
  end.

(** The block [if len(result) == 0 { ... }] that falls back on the inline
    keys. *)
Definition reconcile_inline (newCfg : Config_) (oldCfgMap : gmap string Entry)
    (existingMap : gmap string Provider) (st : LoopState) : LoopState + BuildError :=
  if negb (Nat.eqb (length (st_result st)) 0) then inl st
  else
    match MakeInlineAPIKeyProvider (Config_APIKeys newCfg) with
    | None => inl st
    | Some inline =>
        let key := providerIdentifier (Some inline) in
        if String.eqb key "" then inl st
        else
          let kept :=
            match oldCfgMap !! key with
            | Some oldCfgProvider =>
                if providerConfigEqual (Some (val oldCfgProvider)) (Some inline)
                then existingMap !! key else None
            | None => None
            end in
          match kept with
          | Some existingProvider =>
              inl {| st_result := st_result st ++ [existingProvider];
                     st_finalIDs := {[ key ]} ∪ st_finalIDs st;
                     st_added := st_added st;
                     st_updated := st_updated st;
                     st_next := st_next st |}
          | None =>
              match BuildProvider (Some inline) newCfg (st_next st) with
              | inr buildErr => inr buildErr
              | inl provider =>
                  let known := bool_decide (is_Some (existingMap !! key))
                               || bool_decide (is_Some (oldCfgMap !! key)) in
                  inl {| st_result := st_result st ++ [provider];
                         st_finalIDs := {[ key ]} ∪ st_finalIDs st;
                         st_added := if known then st_added st else appendChange (st_added st) key;
                         st_updated := if known then appendChange (st_updated st) key else st_updated st;
                         st_next := S (st_next st) |}
              end
          end
    end.

(** [sort.Strings]. *)
Definition sort_strings (l : list string) : list string := merge_sort String.le l.

(** The identifiers of [removedSet], in sorted order. *)
Definition removed_ids (existingMap : gmap string Provider) (finalIDs : gset string) : list string :=
  sort_strings
    (elements (filter (fun id => (id ∉ finalIDs) /\ isInlineProvider id = false)
                      (dom existingMap))).

(** What [ReconcileProviders] returns with a nil error. *)
Record Reconciled : Type := mkReconciled {
  result : list Provider;
  added : list string;
  updated : list string;
  removed : list string
}.

(** [ReconcileProviders]; [next] is the first address no object uses. *)
Definition ReconcileProviders (oldCfg newCfg : option Config_)
    (existing : list (option Provider)) (next : nat) : Reconciled + BuildError :=
  match newCfg with
  | None => inl {| result := []; added := []; updated := []; removed := [] |}
  | Some newCfg =>
      let existingMap := existingMap_of existing in
      let oldCfgMap := accessProviderMap oldCfg in
      let newEntries := collectProviderEntries newCfg in
      let st0 := {| st_result := []; st_finalIDs := ∅; st_added := [];
                    st_updated := []; st_next := next |} in
      match reconcile_loop newCfg oldCfgMap existingMap st0 newEntries with
      | inr err => inr err
      | inl st1 =>
          match reconcile_inline newCfg oldCfgMap existingMap st1 with
          | inr err => inr err
          | inl st2 =>
              inl {| result := st_result st2;
                     added := sort_strings (st_added st2);
                     updated := sort_strings (st_updated st2);
                     removed := removed_ids existingMap (st_finalIDs st2) |}
          end
      end
  end.

(** The identifier an entry is filed under. *)
Definition entry_key (e : Entry) : string := providerIdentifier (Some (val e)).

(** The entries of the new configuration the main loop does not skip. *)
Definition keyed_entries (cfg : Config_) : list Entry :=
  filter (fun e => entry_key e <> "") (collectProviderEntries cfg).

(** When the main loop keeps the registered provider [q] for the entry
    [e]: the entry is not of the config-api-key type, the previous
    configuration files another object under its identifier, the two are
    equal for [providerConfigEqual], and [q] is registered under that
    identifier. *)
Definition reuse_condition (oldCfgMap : gmap string Entry)
    (existingMap : gmap string Provider) (e : Entry) (q : Provider) : Prop :=
  exists old,
    oldCfgMap !! entry_key e = Some old
    /\ EqualFold (TrimSpace (Typ (val e))) AccessProviderTypeConfigAPIKey = false
    /\ ptr old <> ptr e
    /\ providerConfigEqual (Some (val old)) (Some (val e)) = true
    /\ existingMap !! entry_key e = Some q.

(** [p] is the object [BuildProvider] allocates for [e], at an address
    that was free when reconciliation started. *)
Definition built_for (newCfg : Config_) (next : nat) (e : Entry) (p : Provider) : Prop :=
  next <= obj p /\ BuildProvider (Some (val e)) newCfg (obj p) = inl p.

(** [BuildProvider] has what it needs for the entry: a factory is
    registered for its type and answers for it. *)
Definition buildable (newCfg : Config_) (e : Entry) : Prop :=
  exists factory ident,
    registry !! Typ (val e) = Some factory /\ factory (val e) newCfg = Some ident.

(** What the result holds for an entry: the registered provider when
    there is one to keep, a new object otherwise. *)
Definition placed (oldCfgMap : gmap string Entry) (existingMap : gmap string Provider)
    (newCfg : Config_) (next : nat) (e : Entry) (p : Provider) : Prop :=
  (forall q, reuse_condition oldCfgMap existingMap e q -> p = q)
  /\ ((forall q, ~ reuse_condition oldCfgMap existingMap e q) -> built_for newCfg next e p).

(** The identifier was configured before and a provider is registered
    under it: a rebuilt entry counts as updated, any other as added. *)
Definition known_before (oldCfgMap : gmap string Entry)
    (existingMap : gmap string Provider) (id : string) : Prop :=
  is_Some (oldCfgMap !! id) /\ is_Some (existingMap !! id).

(** An entry filed under [id] that is rebuilt. *)
Definition rebuilt_under (oldCfgMap : gmap string Entry)
    (existingMap : gmap string Provider) (entries : list Entry) (id : string) : Prop :=
  isInlineProvider id = false
  /\ exists e, e ∈ entries /\ entry_key e = id
               /\ (forall q, ~ reuse_condition oldCfgMap existingMap e q).

End Reconcile.

(** The count a map holds for a string, as Go reads a missing key. *)
Definition cnt (m : gmap string nat) (x : string) : nat := default 0 (m !! x).

(** No entry of the map is zero. *)
Definition positive (m : gmap string nat) : Prop :=
  forall k v, m !! k = Some v -> 0 < v.

Definition one_if (x v : string) : nat := if decide (x = v) then 1 else 0.

(** Two configurations of a provider whose type, config and apiKeys are
    the same, byte for byte. *)
Definition byte_identical {any : Type} (a b : @AccessProvider any) : Prop :=
  Typ a = Typ b /\ Config a = Config b /\ APIKeys a = APIKeys b.

(** A reload that changes nothing: one provider of the built-in type
    config-api-key, named team, with one key; the new configuration is a
    fresh copy of the old one (another backing array). *)
Definition team_provider : @AccessProvider string :=
  {| Name := "team"; Typ := "config-api-key"; SDK := ""; APIKeys := ["k1"]; Config := ∅ |}.

Definition reload_old : @Config_ string :=
  {| providersBase := 1; Access_Providers := [team_provider]; Config_APIKeys := [] |}.

Definition reload_new : @Config_ string :=
  {| providersBase := 2; Access_Providers := [team_provider]; Config_APIKeys := [] |}.

(** The provider registered for it before the reload, at address 7. *)
Definition team_registered : Provider := {| obj := 7; Identifier := "team" |}.

(** The inline provider made of the top-level keys. *)
Definition inline_of (keys : list string) : option (@AccessProvider string) :=
  if Nat.eqb (length keys) 0 then None
  else Some {| Name := "config-inline"; Typ := "config-api-key"; SDK := "";
               APIKeys := keys; Config := ∅ |}.

(** A registry with the built-in factory and one external type; each
    names its provider after the configuration entry. *)
Definition demo_registry : gmap string (@AccessProvider string -> @Config_ string -> option string) :=
  {[ "config-api-key" := fun c _ => Some (if String.eqb (Name c) "" then "config-inline" else Name c);
     "ldap" := fun c _ => Some (Name c) ]}.

(** A reload that keeps an external provider as it is (its keys in
    another order), changes a second one and no longer names a third. *)
Definition ldap_a : @AccessProvider string :=
  {| Name := "dir-a"; Typ := "ldap"; SDK := ""; APIKeys := ["x"; "y"]; Config := {[ "host" := "a" ]} |}.
Definition ldap_a_reordered : @AccessProvider string :=
  {| Name := "dir-a"; Typ := "LDAP "; SDK := ""; APIKeys := ["y"; "x"]; Config := {[ "host" := "a" ]} |}.
Definition ldap_b : @AccessProvider string :=
  {| Name := "dir-b"; Typ := "ldap"; SDK := ""; APIKeys := []; Config := {[ "host" := "b" ]} |}.
Definition ldap_b_changed : @AccessProvider string :=
  {| Name := "dir-b"; Typ := "ldap"; SDK := ""; APIKeys := []; Config := {[ "host" := "b2" ]} |}.
Definition ldap_c : @AccessProvider string :=
  {| Name := "dir-c"; Typ := "ldap"; SDK := ""; APIKeys := []; Config := ∅ |}.

Definition ldap_old : @Config_ string :=
  {| providersBase := 10; Access_Providers := [ldap_a; ldap_b; ldap_c]; Config_APIKeys := [] |}.
Definition ldap_new : @Config_ string :=
  {| providersBase := 20; Access_Providers := [ldap_a; ldap_b_changed]; Config_APIKeys := [] |}.
Definition ldap_new_reordered : @Config_ string :=
  {| providersBase := 20; Access_Providers := [ldap_a_reordered]; Config_APIKeys := [] |}.
Definition ldap_registered : list (option Provider) :=
  [ Some {| obj := 1; Identifier := "dir-a" |};
    Some {| obj := 2; Identifier := "dir-b" |};
    Some {| obj := 3; Identifier := "dir-c" |} ].

End Access.

(** ** JSON documents and the path operations of gjson and sjson *)

Module Json.
Import GoStrings.

(** A JSON text by its parsed tree. An object keeps its members in the
    order of the text; a name is looked up from the left, so the model
    is that of objects whose member names are unique. Numbers are the
    integers the gateway writes (token budgets). *)
#[local] Unset Elimination Schemes.
Inductive json : Type :=
| JNull
| JBool (b : bool)
| JNumber (n : Z)
| JString (s : string)
| JArray (items : list json)
| JObject (members : list (string * json)).
#[local] Set Elimination Schemes.

(** A gjson/sjson path made of plain member names: [a.b.c]. *)
Definition path_of (p : string) : list string := Split p ".".

Fixpoint lookup_member (k : string) (ms : list (string * json)) : option json :=
  match ms with
  | [] => None
  | (k', v) :: rest => if String.eqb k' k then Some v else lookup_member k rest
  end.

(** [gjson.Get(data, path)]: the value at the path; [None] is a result
    for which [Exists()] is false. A name leads nowhere in a value that
    is not an object. *)
Fixpoint Get (path : list string) (data : json) : option json :=
  match path with
  | [] => Some data
  | k :: rest =>
      match data with
      | JObject ms =>
          match lookup_member k ms with
          | Some v => Get rest v
          | None => None
          end
      | _ => None
      end
  end.

Definition Exists (path : list string) (data : json) : bool :=
  match Get path data with Some _ => true | None => false end.

(** The nested objects sjson creates for a path that is missing. *)
Fixpoint create (path : list string) (value : json) : json :=
  match path with
  | [] => value
  | k :: rest => JObject [(k, create rest value)]
  end.

(** The member [k] rewritten by [f], appended when there is none. *)
Fixpoint update_member (k : string) (f : option json -> json) (ms : list (string * json))
  : list (string * json) :=
  match ms with
  | [] => [(k, f None)]
  | (k', v) :: rest =>
      if String.eqb k' k then (k', f (Some v)) :: rest
      else (k', v) :: update_member k f rest
  end.

(** [sjson.Set(data, path, value)] along member names: the value at the
    path is replaced, a missing member is added at the end of its
    object. Where the path runs into a value that is not an object the
    document is returned as it is; the rewriter below never asks for
    that, it sets only paths that exist. *)
Fixpoint Set_ (path : list string) (value : json) (data : json) : json :=
  match path with
  | [] => value
  | k :: rest =>
      match data with
      | JObject ms =>
          JObject (update_member k (fun old =>
                     match old with
                     | Some v => Set_ rest value v
                     | None => create rest value
                     end) ms)
      | _ => data
      end
  end.

(** The object without its member [k] (were the name repeated, without
    any of them). *)
Fixpoint remove_member (k : string) (ms : list (string * json)) : list (string * json) :=
  match ms with
  | [] => []
  | (k', v) :: rest =>
      if String.eqb k' k then remove_member k rest else (k', v) :: remove_member k rest
  end.

(** [sjson.Delete(data, path)]: the member at the path is removed; a
    path that does not exist changes nothing. *)
Fixpoint Delete (path : list string) (data : json) : json :=
  match path, data with
  | k :: rest, JObject ms =>
      match rest with
      | [] => JObject (remove_member k ms)
      | _ :: _ =>
          match lookup_member k ms with
          | Some v => JObject (update_member k (fun _ => Delete rest v) ms)
          | None => data
          end
      end
  | _, _ => data
  end.

End Json.

(** ** The response rewriter of the amp module *)

Module Amp.
Import GoStrings Json.

(** [modelFieldPaths]. *)
Definition modelFieldPaths : list string :=
  ["model"; "modelVersion"; "response.modelVersion"; "message.model"].

(** One round of the loop of [rewriteModelInResponse]. *)
Definition rewrite_path (originalModel : string) (data : json) (path : string) : json :=
  if Exists (path_of path) data
  then Set_ (path_of path) (JString originalModel) data
  else data.

(** [rewriteModelInResponse] on the parsed document. *)
Definition rewriteModelInResponse (originalModel : string) (data : json) : json :=
  if String.eqb originalModel "" then data
  else foldl (rewrite_path originalModel) data modelFieldPaths.

Section Stream.

(** [rw.rewriteModelInResponse] as [rewriteStreamChunk] calls it: on the
    bytes of one frame, for the requested model. *)
Variable rewriteFrame : string -> string -> string.

(** The body of the loop over the lines of a chunk. *)
Definition rewriteLine (originalModel : string) (line : string) : string :=
  if HasPrefix line "data: " then
    let jsonData := TrimPrefix line "data: " in
    match jsonData with
    | String "{" _ => "data: " +:+ rewriteFrame originalModel jsonData
    | _ => line
    end
  else line.

Definition rewriteStreamChunk (originalModel : string) (chunk : string) : string :=
  if String.eqb originalModel "" then chunk
  else Join (map (rewriteLine originalModel) (Split chunk "010")) "010".

End Stream.

(** The first member name of each path of a list. *)
Definition heads (paths : list string) : list string :=
  map (fun p => hd "" (path_of p)) paths.


(** The rewriter on frames in which none of the paths exists: the bytes
    stay as they are. *)
Definition keepFrame (originalModel frame : string) : string := frame.

End Amp.

(** ** The composite edge OpenAI Responses to Antigravity *)

Module Translator.

(** [bytes.Clone]: a copy with the same bytes. *)
Fixpoint Clone (b : string) : string :=
  match b with
  | EmptyString => EmptyString
  | String c rest => String c (Clone rest)
  end.

(** A request translator: model name, raw JSON, stream flag. *)
Definition RequestTranslator : Type := string -> string -> bool -> string.

(** Composition of two edges, as the specification words it:
    [a -> c] is [a -> b] followed by [b -> c]. *)
Definition compose_edges (first second : RequestTranslator) : RequestTranslator :=
  fun modelName rawJSON stream => second modelName (first modelName rawJSON stream) stream.

Section Composite.

(** The two translators the function imports; their packages are not
    among the sources. *)
Variable ConvertOpenAIResponsesRequestToGemini : RequestTranslator.
Variable ConvertGeminiRequestToAntigravity : RequestTranslator.

Definition ConvertOpenAIResponsesRequestToAntigravity : RequestTranslator :=
  fun modelName inputRawJSON stream =>
    let rawJSON := Clone inputRawJSON in
    let rawJSON := ConvertOpenAIResponsesRequestToGemini modelName rawJSON stream in
    ConvertGeminiRequestToAntigravity modelName rawJSON stream.

End Composite.

End Translator.

(** ** Thinking budgets and effort levels (package util, executor) *)

Module Thinking.
Import GoStrings.

(** The numeric equivalents of the level names, as the comment above
    [thinkingLevelSamples] and the table of [TestThinkingEffortToBudget]
    give them; any other name has none. Names are compared in lower
    case. *)
Definition levelBudget (level : string) : option Z :=
  let l := ToLower level in
  if String.eqb l "auto" then Some (-1)%Z
  else if String.eqb l "none" then Some 0%Z
  else if String.eqb l "minimal" then Some 512%Z
  else if String.eqb l "low" then Some 1024%Z
  else if String.eqb l "medium" then Some 8192%Z
  else if String.eqb l "high" then Some 24576%Z
  else if String.eqb l "xhigh" then Some 32768%Z
  else None.

(** Modelled from the spec: [util.ThinkingBudgetToEffort] is called by
    the tests but its body is not among the sources. The model follows
    the comment above [thinkingNumericSamples] line by line (-1 is auto,
    0 is none, 1..1024 low, 1025..8192 medium, 8193..24576 high, above
    that the right-most level of the model) and the table of
    [TestThinkingBudgetToEffort] (0 on gpt-5 is its first level, minimal;
    -5 is refused). [levels] is the level list of the model's descriptor,
    lowest first; the answers [none] at 0 and [xhigh] above 24576 stand
    for a model without a list. [None] is the Go result [("", false)]. *)
Definition ThinkingBudgetToEffort (levels : list string) (budget : Z) : option string :=
  if (budget =? -1)%Z then Some "auto"
  else if (budget <? -1)%Z then None
  else if (budget =? 0)%Z then Some (hd "none" levels)
  else if (budget <=? 1024)%Z then Some "low"
  else if (budget <=? 8192)%Z then Some "medium"
  else if (budget <=? 24576)%Z then Some "high"
  else Some (List.last levels "xhigh").

(** Modelled from the spec: the projection of a budget onto a level
    table in the words of the specification, "the smallest level whose
    budget is at least the input, saturating at the rightmost". A level
    without a numeric equivalent is passed over. *)
Fixpoint smallest_level_at_least (levels : list string) (budget : Z) : option string :=
  match levels with
  | [] => None
  | [l] => Some l
  | l :: rest =>
      match levelBudget l with
      | Some n => if (budget <=? n)%Z then Some l else smallest_level_at_least rest budget
      | None => smallest_level_at_least rest budget
      end
  end.

(** The level lists of the two models [TestThinkingBudgetToEffort] uses.
    Its rows fix the ends: gpt-5 starts at minimal and ends at high,
    gpt-5.2 ends at xhigh; the levels in between are those of the scale
    above. *)
Definition gpt5_levels : list string := ["minimal"; "low"; "medium"; "high"].
Definition gpt52_levels : list string := ["none"; "low"; "medium"; "high"; "xhigh"].

(** The rows of [TestThinkingBudgetToEffort]: level list of the model,
    budget, wanted answer. *)
Definition TestThinkingBudgetToEffort_cases : list (list string * Z * option string) :=
  [ (gpt5_levels, (-1)%Z, Some "auto");
    (gpt5_levels, 0%Z, Some "minimal");
    (gpt5_levels, 1%Z, Some "low");
    (gpt5_levels, 1024%Z, Some "low");
    (gpt5_levels, 1025%Z, Some "medium");
    (gpt5_levels, 8192%Z, Some "medium");
    (gpt5_levels, 8193%Z, Some "high");
    (gpt5_levels, 24576%Z, Some "high");
    (gpt5_levels, 64000%Z, Some "high");
    (gpt52_levels, 64000%Z, Some "xhigh");
    (gpt5_levels, (-5)%Z, None) ].

(** The [thinking] variant of a model descriptor. *)
Inductive ThinkingSupport : Type :=
| ThinkingNone
| ThinkingBudgetRange (min max : Z)
| ThinkingLevels (levels : list string).

(** What projecting an effort name to a level dialect yields: the name
    to emit in [reasoning_effort] / [reasoning.effort], nothing, or the
    validation error [thinking_invalid]. *)
Inductive Projected : Type :=
| Emit (effort : string)
| Suppress
| thinking_invalid.

Definition ModelSupportsThinking (descriptor : option ThinkingSupport) : bool :=
  match descriptor with
  | Some (ThinkingBudgetRange _ _) | Some (ThinkingLevels _) => true
  | _ => false
  end.

Definition ModelUsesThinkingLevels (descriptor : option ThinkingSupport) : bool :=
  match descriptor with
  | Some (ThinkingLevels (_ :: _)) => true
  | _ => false
  end.

Definition GetModelThinkingLevels (descriptor : option ThinkingSupport) : list string :=
  match descriptor with
  | Some (ThinkingLevels levels) => levels
  | _ => []
  end.

(** Modelled from the spec: [util.NormalizeReasoningEffortLevel] is not
    among the sources. "Validate it against the model's level table and
    lowercase it": the name, lowercased and trimmed, when the table has
    it. *)
Definition NormalizeReasoningEffortLevel (levels : list string) (effort : string) : option string :=
  let e := ToLower (TrimSpace effort) in
  if existsb (fun l => String.eqb (ToLower l) e) levels then Some e else None.

(** Modelled from the spec: the projection of an effort name to a level
    dialect ([executor.NormalizeThinkingConfig] followed by
    [executor.ValidateThinkingConfig], neither among the sources).
    [descriptor] is the target model's thinking descriptor, [None] for a
    model the catalog does not describe. With [allowCompat] and no
    thinking descriptor the name passes as it is; a level model
    validates and lowercases it; every other target drops it. *)
Definition projectEffort (allowCompat : bool) (descriptor : option ThinkingSupport)
    (effort : string) : Projected :=
  if negb (ModelSupportsThinking descriptor) then
    if allowCompat then Emit effort else Suppress
  else if ModelUsesThinkingLevels descriptor then
    match NormalizeReasoningEffortLevel (GetModelThinkingLevels descriptor) effort with
    | Some e => Emit e
    | None => thinking_invalid
    end
  else Suppress.

(** The expectation [TestThinkingConversionsAcrossProtocolsAndModels]
    computes for the target protocol "openai": (present, value, error
    expected). [effort] and [budget] are what the model suffix left in
    the metadata. *)
Definition expect_openai (allowCompat : bool) (descriptor : option ThinkingSupport)
    (effort : option string) (budget : option Z) : bool * string * bool :=
  let levels := GetModelThinkingLevels descriptor in
  if negb (ModelSupportsThinking descriptor) && negb allowCompat then (false, "", false)
  else if allowCompat then
    match effort with
    | Some e =>
        if negb (String.eqb (TrimSpace e) "") then (true, ToLower (TrimSpace e), false)
        else match budget with
             | Some b => match ThinkingBudgetToEffort levels b with
                         | Some mapped => if negb (String.eqb mapped "") then (true, mapped, false)
                                          else (false, "", false)
                         | None => (false, "", false)
                         end
             | None => (false, "", false)
             end
    | None =>
        match budget with
        | Some b => match ThinkingBudgetToEffort levels b with
                    | Some mapped => if negb (String.eqb mapped "") then (true, mapped, false)
                                     else (false, "", false)
                    | None => (false, "", false)
                    end
        | None => (false, "", false)
        end
    end
  else if negb (ModelUsesThinkingLevels descriptor) then (false, "", false)
  else
    let from_budget :=
      match budget with
      | Some b => ThinkingBudgetToEffort levels b
      | None => None
      end in
    let chosen :=
      match effort with
      | Some e => if negb (String.eqb (TrimSpace e) "") then Some e else from_budget
      | None => from_budget
      end in
    match chosen with
    | Some e =>
        if String.eqb (TrimSpace e) "" then (false, "", false)
        else match NormalizeReasoningEffortLevel levels (ToLower (TrimSpace e)) with
             | Some normalized => (true, normalized, false)
             | None => (false, "", true)
             end
    | None => (false, "", false)
    end.

(** The effort names the tests append to a model name. *)
Definition thinkingLevelSamples : list string :=
  ["auto"; "none"; "minimal"; "low"; "medium"; "high"; "xhigh"; "invalid"].

(** What a projection looks like to the test: present, value, error. *)
Definition observed (p : Projected) : bool * string * bool :=
  match p with
  | Emit e => (true, e, false)
  | Suppress => (false, "", false)
  | thinking_invalid => (false, "", true)
  end.

End Thinking.

(** ** Gemini 3 thinking levels (package util) *)

Module Gemini3.
Import GoStrings Json.

(** [strings.Contains]. *)
Definition Contains (s sub : string) : bool :=
  match String.index 0 sub s with Some _ => true | None => false end.

(** Modelled from the spec: the three predicates on model names are
    called by the tests but not among the sources. The model takes the
    name in lower case and accepts both spellings the tests use,
    [gemini-3-...] and [gemini_3_...]. *)
Definition IsGemini3Model (model : string) : bool :=
  let m := ToLower model in Contains m "gemini-3-" || Contains m "gemini_3_".

Definition IsGemini3ProModel (model : string) : bool :=
  let m := ToLower model in Contains m "gemini-3-pro" || Contains m "gemini_3_pro".

Definition IsGemini3FlashModel (model : string) : bool :=
  let m := ToLower model in Contains m "gemini-3-flash" || Contains m "gemini_3_flash".

(** The levels each family accepts, in the words of the specification. *)
Definition Gemini3ProThinkingLevels : list string := ["low"; "high"].
Definition Gemini3FlashThinkingLevels : list string := ["minimal"; "low"; "medium"; "high"].

Definition inb (x : string) (l : list string) : bool := existsb (String.eqb x) l.

(** Modelled from the spec: [util.ValidateGemini3ThinkingLevel] is not
    among the sources. A Gemini 3 Pro model accepts low and high, a
    Gemini 3 Flash model minimal, low, medium and high; the level is
    compared and returned in lower case; any other model accepts
    nothing. *)
Definition ValidateGemini3ThinkingLevel (model level : string) : option string :=
  let l := ToLower level in
  if negb (IsGemini3Model model) then None
  else if IsGemini3ProModel model then
    if inb l Gemini3ProThinkingLevels then Some l else None
  else if IsGemini3FlashModel model then
    if inb l Gemini3FlashThinkingLevels then Some l else None
  else None.

(** The thresholds of the numeric-to-level mapping. The specification
    calls them model-specific and gives no numbers: the largest budget
    that is still low for Pro, and the largest budgets that are still
    minimal, low and medium for Flash. *)
Record Thresholds : Type := mkThresholds {
  proLowMax : Z;
  flashMinimalMax : Z;
  flashLowMax : Z;
  flashMediumMax : Z
}.

(** Modelled from the spec: [util.ThinkingBudgetToGemini3Level] is not
    among the sources. The dynamic budget -1 is the highest level; any
    other budget is compared with the thresholds of the family. [None]
    is the Go result [("", false)], given for a model that is not
    Gemini 3. *)
Definition ThinkingBudgetToGemini3Level (th : Thresholds) (model : string) (budget : Z)
  : option string :=
  if negb (IsGemini3Model model) then None
  else if (budget =? -1)%Z then Some "high"
  else if IsGemini3ProModel model then
    if (budget <=? proLowMax th)%Z then Some "low" else Some "high"
  else
    if (budget <=? flashMinimalMax th)%Z then Some "minimal"
    else if (budget <=? flashLowMax th)%Z then Some "low"
    else if (budget <=? flashMediumMax th)%Z then Some "medium"
    else Some "high".

(** Thresholds that agree with the numeric equivalents of the levels
    (minimal 512, low 1024, medium 8192) and with every row of
    [TestThinkingBudgetToGemini3Level]. *)
Definition scale_thresholds : Thresholds :=
  {| proLowMax := 8192; flashMinimalMax := 512; flashLowMax := 1024; flashMediumMax := 8192 |}.

Definition thinkingBudgetPath : list string :=
  path_of "generationConfig.thinkingConfig.thinkingBudget".
Definition thinkingLevelPath : list string :=
  path_of "generationConfig.thinkingConfig.thinkingLevel".

(** Modelled from the spec: [util.NormalizeGeminiThinkingBudget] is not
    among the sources. A body without a numeric [thinkingBudget] is left
    alone. For a Gemini 3 model the budget is removed and the level it
    maps to is written to [thinkingLevel]; for any other model the
    budget stays, clamped to the model's range by [clamp]
    ([util.NormalizeThinkingBudget]). *)
Definition NormalizeGeminiThinkingBudget (th : Thresholds) (clamp : string -> Z -> Z)
    (model : string) (body : json) : json :=
  match Get thinkingBudgetPath body with
  | Some (JNumber budget) =>
      match ThinkingBudgetToGemini3Level th model budget with
      | Some level =>
          Set_ thinkingLevelPath (JString level) (Delete thinkingBudgetPath body)
      | None =>
          Set_ thinkingBudgetPath (JNumber (clamp model budget)) body
      end
  | _ => body
  end.

(** The rows of the three tests: model, input, wanted answer. *)
Definition TestValidateGemini3ThinkingLevel_cases : list (string * string * option string) :=
  [ ("gemini-3-pro-preview", "low", Some "low");
    ("gemini-3-pro-preview", "high", Some "high");
    ("gemini-3-pro-preview", "minimal", None);
    ("gemini-3-pro-preview", "medium", None);
    ("gemini-3-flash-preview", "minimal", Some "minimal");
    ("gemini-3-flash-preview", "low", Some "low");
    ("gemini-3-flash-preview", "medium", Some "medium");
    ("gemini-3-flash-preview", "high", Some "high");
    ("gemini-3-flash-preview", "LOW", Some "low");
    ("gemini-3-flash-preview", "High", Some "high");
    ("gemini-3-pro-preview", "HIGH", Some "high");
    ("gemini-3-flash-preview", "xhigh", None);
    ("gemini-3-flash-preview", "auto", None);
    ("gemini-3-flash-preview", "", None);
    ("gemini-2.5-pro", "high", None);
    ("gpt-5", "high", None) ].

Definition TestThinkingBudgetToGemini3Level_cases : list (string * Z * option string) :=
  [ ("gemini-3-pro-preview", (-1)%Z, Some "high");
    ("gemini-3-pro-preview", 0%Z, Some "low");
    ("gemini-3-pro-preview", 1000%Z, Some "low");
    ("gemini-3-pro-preview", 8000%Z, Some "low");
    ("gemini-3-pro-preview", 20000%Z, Some "high");
    ("gemini-3-pro-preview", 50000%Z, Some "high");
    ("gemini-3-flash-preview", (-1)%Z, Some "high");
    ("gemini-3-flash-preview", 0%Z, Some "minimal");
    ("gemini-3-flash-preview", 500%Z, Some "minimal");
    ("gemini-3-flash-preview", 1000%Z, Some "low");
    ("gemini-3-flash-preview", 8000%Z, Some "medium");
    ("gemini-3-flash-preview", 20000%Z, Some "high");
    ("gemini-3-flash-preview", 50000%Z, Some "high");
    ("gemini-2.5-pro", 8000%Z, None);
    ("gpt-5", 8000%Z, None) ].

Definition TestIsGemini3Model_cases : list (string * bool * bool * bool) :=
  [ ("gemini-3-pro-preview", true, true, false);
    ("gemini-3-flash-preview", true, false, true);
    ("gemini_3_pro_preview", true, true, false);
    ("gemini_3_flash_preview", true, false, true);
    ("gemini-3-pro", true, true, false);
    ("gemini-3-flash", true, false, true);
    ("GEMINI-3-PRO-PREVIEW", true, true, false);
    ("GEMINI-3-FLASH-PREVIEW", true, false, true);
    ("gemini-2.5-pro", false, false, false);
    ("gemini-2.5-flash", false, false, false);
    ("gpt-5", false, false, false);
    ("claude-sonnet-4-5", false, false, false);
    ("", false, false, false) ].

(** The body [{"generationConfig":{"thinkingConfig":{"thinkingBudget":b}}}]
    of [TestNormalizeGeminiThinkingBudget_Gemini3Conversion]. *)
Definition budget_body (b : Z) : json :=
  JObject [("generationConfig",
            JObject [("thinkingConfig", JObject [("thinkingBudget", JNumber b)])])].

End Gemini3.

(** ** Migration of legacy configuration fields (package config) *)

Module Migration.

(** One entry of [openai-compatibility] in the file: the new-style
    [api-key-entries] (the [api-key] of each) and the legacy nested
    [api-keys] list, [None] when the file has no such field. *)
Record CompatFile : Type := mkCompatFile {
  file_name : string;
  file_base_url : string;
  file_api_key_entries : list string;
  file_api_keys : option (list string)
}.

(** The [ampcode] block. *)
Record AmpCode_ : Type := mkAmpCode {
  UpstreamURL : string;
  UpstreamAPIKey : string;
  RestrictManagementToLocalhost : bool;
  ModelMappings : list (string * string)
}.

(** A configuration file by its parsed YAML mapping, reduced to the
    fields migration touches. A legacy field the file does not have is
    [None]. *)
Record ConfigFile : Type := mkConfigFile {
  gemini_api_key : list string;
  generative_language_api_key : option (list string);
  openai_compatibility : list CompatFile;
  ampcode : option AmpCode_;
  amp_upstream_url : option string;
  amp_upstream_api_key : option string;
  amp_restrict_management_to_localhost : option bool;
  amp_model_mappings : option (list (string * string))
}.

(** [config.OpenAICompatibility]. *)
Record OpenAICompatibility_ : Type := mkCompat {
  Name : string;
  BaseURL : string;
  APIKeyEntries : list string
}.

(** [config.Config], reduced to the migrated fields. *)
Record Config : Type := mkConfig {
  GeminiKey : list string;
  OpenAICompatibility : list OpenAICompatibility_;
  AmpCode : AmpCode_
}.

(** The keys of [more] that [acc] does not hold yet, added in order. *)
Fixpoint append_unique (acc more : list string) : list string :=
  match more with
  | [] => acc
  | k :: rest =>
      if bool_decide (k ∈ acc) then append_unique acc rest
      else append_unique (acc ++ [k]) rest
  end.

(** New-style keys first, each once, then the legacy keys not yet
    named. *)
Definition merge_keys (entries : list string) (legacy : option (list string)) : list string :=
  append_unique (append_unique [] entries) (default [] legacy).

Definition migrate_compat (c : CompatFile) : OpenAICompatibility_ :=
  {| Name := file_name c;
     BaseURL := file_base_url c;
     APIKeyEntries := merge_keys (file_api_key_entries c) (file_api_keys c) |}.

(** The block an absent [ampcode] stands for. *)
Definition empty_ampcode : AmpCode_ :=
  {| UpstreamURL := ""; UpstreamAPIKey := "";
     RestrictManagementToLocalhost := true; ModelMappings := [] |}.

(** A legacy amp value replaces what the block says. *)
Definition migrate_amp (f : ConfigFile) : AmpCode_ :=
  let base := default empty_ampcode (ampcode f) in
  {| UpstreamURL := default (UpstreamURL base) (amp_upstream_url f);
     UpstreamAPIKey := default (UpstreamAPIKey base) (amp_upstream_api_key f);
     RestrictManagementToLocalhost :=
       default (RestrictManagementToLocalhost base) (amp_restrict_management_to_localhost f);
     ModelMappings := default (ModelMappings base) (amp_model_mappings f) |}.

Definition migrate (f : ConfigFile) : Config :=
  {| GeminiKey := merge_keys (gemini_api_key f) (generative_language_api_key f);
     OpenAICompatibility := map migrate_compat (openai_compatibility f);
     AmpCode := migrate_amp f |}.

(** The file that is written back: new-style fields only. *)
Definition rewritten (cfg : Config) : ConfigFile :=
  {| gemini_api_key := GeminiKey cfg;
     generative_language_api_key := None;
     openai_compatibility :=
       map (fun c => {| file_name := Name c; file_base_url := BaseURL c;
                        file_api_key_entries := APIKeyEntries c;
                        file_api_keys := None |}) (OpenAICompatibility cfg);
     ampcode := Some (AmpCode cfg);
     amp_upstream_url := None;
     amp_upstream_api_key := None;
     amp_restrict_management_to_localhost := None;
     amp_model_mappings := None |}.

(** Whether a file uses a legacy field name. *)
Definition has_legacy (f : ConfigFile) : bool :=
  bool_decide (is_Some (generative_language_api_key f))
  || existsb (fun c => bool_decide (is_Some (file_api_keys c))) (openai_compatibility f)
  || bool_decide (is_Some (amp_upstream_url f))
  || bool_decide (is_Some (amp_upstream_api_key f))
  || bool_decide (is_Some (amp_restrict_management_to_localhost f))
  || bool_decide (is_Some (amp_model_mappings f)).

(** Modelled from the spec: [config.LoadConfig] is called by
    [TestLegacyConfigMigration] but is not among the sources. "Legacy
    field names are migrated in-place on load and removed from the
    file": the disk is a map from paths to parsed files; loading reads
    the file, carries the legacy values over to the new-style fields,
    and, when the file used a legacy name, writes it back without them.
    [None] is a file that cannot be read. *)
Definition LoadConfig (disk : gmap string ConfigFile) (path : string)
  : option (Config * gmap string ConfigFile) :=
  match disk !! path with
  | None => None
  | Some f =>
      let cfg := migrate f in
      Some (cfg, if has_legacy f then <[path := rewritten cfg]> disk else disk)
  end.

(** The keys of one provider entry after migration: those of the
    new-style entries and those of the legacy list, each once. *)
Definition compat_carried (c : CompatFile) (m : OpenAICompatibility_) : Prop :=
  Name m = file_name c /\ BaseURL m = file_base_url c
  /\ (forall k, k ∈ APIKeyEntries m
                <-> k ∈ file_api_key_entries c \/ k ∈ default [] (file_api_keys c))
  /\ NoDup (APIKeyEntries m).

(** The four files of [TestLegacyConfigMigration]. *)
Definition onlyLegacyFields : ConfigFile :=
  {| gemini_api_key := [];
     generative_language_api_key := Some ["legacy-gemini-1"];
     openai_compatibility :=
       [ {| file_name := "legacy-provider"; file_base_url := "https://example.com";
            file_api_key_entries := []; file_api_keys := Some ["legacy-openai-1"] |} ];
     ampcode := None;
     amp_upstream_url := Some "https://amp.example.com";
     amp_upstream_api_key := Some "amp-legacy-key";
     amp_restrict_management_to_localhost := Some false;
     amp_model_mappings := Some [("old-model", "new-model")] |}.

Definition mixedLegacyAndNewFields : ConfigFile :=
  {| gemini_api_key := ["new-gemini"];
     generative_language_api_key := Some ["new-gemini"; "legacy-gemini-only"];
     openai_compatibility :=
       [ {| file_name := "mixed-provider"; file_base_url := "https://mixed.example.com";
            file_api_key_entries := ["new-entry"];
            file_api_keys := Some ["legacy-entry"; "new-entry"] |} ];
     ampcode := None;
     amp_upstream_url := None;
     amp_upstream_api_key := None;
     amp_restrict_management_to_localhost := None;
     amp_model_mappings := None |}.

Definition onlyNewFields : ConfigFile :=
  {| gemini_api_key := ["new-only"];
     generative_language_api_key := None;
     openai_compatibility :=
       [ {| file_name := "new-only-provider"; file_base_url := "https://new-only.example.com";
            file_api_key_entries := ["new-only-entry"]; file_api_keys := None |} ];
     ampcode := Some {| UpstreamURL := "https://amp.new"; UpstreamAPIKey := "new-amp-key";
                        RestrictManagementToLocalhost := true;
                        ModelMappings := [("a", "b")] |};
     amp_upstream_url := None;
     amp_upstream_api_key := None;
     amp_restrict_management_to_localhost := None;
     amp_model_mappings := None |}.

Definition duplicateNamesDifferentBase : ConfigFile :=
  {| gemini_api_key := [];
     generative_language_api_key := None;
     openai_compatibility :=
       [ {| file_name := "dup-provider"; file_base_url := "https://provider-a";
            file_api_key_entries := []; file_api_keys := Some ["key-a"] |};
         {| file_name := "dup-provider"; file_base_url := "https://provider-b";
            file_api_key_entries := []; file_api_keys := Some ["key-b"] |} ];
     ampcode := None;
     amp_upstream_url := None;
     amp_upstream_api_key := None;
     amp_restrict_management_to_localhost := None;
     amp_model_mappings := None |}.

End Migration.

(** ** Registering and building access providers (package sdk/access) *)

Module AccessBuild.
Import GoStrings Access.

Section Registry.

Context {any : Type} `{EqDecision any}.

(** [RegisterProvider] on the package variable [registry]. A
    [ProviderFactory] is what [BuildProvider] reads of it: the identifier
    of the provider it builds, or a failure; a nil factory is [None]. *)
Definition RegisterProvider (typ : string)
    (factory : option (@AccessProvider any -> @Config_ any -> option string))
    (registry : gmap string (@AccessProvider any -> @Config_ any -> option string))
  : gmap string (@AccessProvider any -> @Config_ any -> option string) :=
  match factory with
  | None => registry
  | Some f => if String.eqb typ "" then registry else <[typ := f]> registry
  end.

(** The registry after a sequence of [RegisterProvider] calls on the
    empty one. *)
Definition registered
    (calls : list (string * option (@AccessProvider any -> @Config_ any -> option string)))
  : gmap string (@AccessProvider any -> @Config_ any -> option string) :=
  foldl (fun registry call => RegisterProvider call.1 call.2 registry) ∅ calls.

Variable MakeInlineAPIKeyProvider : list string -> option (@AccessProvider any).
Variable registry : gmap string (@AccessProvider any -> @Config_ any -> option string).

(** The loop of [BuildProviders] over [root.Access.Providers]; [next] is
    the first free address. *)
Fixpoint build_each (root : @Config_ any) (cfgs : list (@AccessProvider any))
    (providers : list Provider) (next : nat) : (list Provider * nat) + BuildError :=
  match cfgs with
  | [] => inl (providers, next)
  | providerCfg :: rest =>
      if String.eqb (Typ providerCfg) "" then build_each root rest providers next
      else
        match BuildProvider registry (Some providerCfg) root next with
        | inr err => inr err
        | inl provider => build_each root rest (providers ++ [provider]) (S next)
        end
  end.

(** [BuildProviders]. *)
Definition BuildProviders (root : option (@Config_ any)) (next : nat)
  : list Provider + BuildError :=
  match root with
  | None => inl []
  | Some root =>
      match build_each root (Access_Providers root) [] next with
      | inr err => inr err
      | inl (providers, next') =>
          if Nat.eqb (length providers) 0 then
            match MakeInlineAPIKeyProvider (Config_APIKeys root) with
            | Some inline =>
                match BuildProvider registry (Some inline) root next' with
                | inr err => inr err
                | inl provider => inl (providers ++ [provider])
                end
            | None => inl providers
            end
          else inl providers
      end
  end.

(** The entries of a configuration that name a type. *)
Definition typed (root : @Config_ any) : list (@AccessProvider any) :=
  filter (fun c => Typ c <> "") (Access_Providers root).

(** What [BuildProvider] makes of one entry, the address apart. *)
Definition build_one (root : @Config_ any) (c : @AccessProvider any) : string + BuildError :=
  match registry !! Typ c with
  | None => inr (TypeNotRegistered (Typ c))
  | Some factory =>
      match factory c root with
      | Some ident => inl ident
      | None => inr (FactoryFailed (Name c))
      end
  end.

(** One provider per entry, in order, at consecutive addresses; the
    error of the first entry that cannot be built. *)
Fixpoint build_all (root : @Config_ any) (cfgs : list (@AccessProvider any)) (next : nat)
  : list Provider + BuildError :=
  match cfgs with
  | [] => inl []
  | c :: rest =>
      match build_one root c with
      | inr err => inr err
      | inl ident =>
          match build_all root rest (S next) with
          | inr err => inr err
          | inl ps => inl ({| obj := next; Identifier := ident |} :: ps)
          end
      end
  end.

(** What [BuildProviders] has to build: the typed entries, or the
    inline provider made of the top-level keys when there is none. *)
Definition to_build (root : @Config_ any) : list (@AccessProvider any) :=
  match typed root with
  | [] => option_list (MakeInlineAPIKeyProvider (Config_APIKeys root))
  | cfgs => cfgs
  end.

End Registry.

Section Apply.

Context {any : Type} `{EqDecision any}.
Variable DefaultAccessProviderName : string.
Variable AccessProviderTypeConfigAPIKey : string.
Variable MakeInlineAPIKeyProvider : list string -> option (@AccessProvider any).
Variable registry : gmap string (@AccessProvider any -> @Config_ any -> option string).

(** [sdkaccess.Manager] is declared outside the sources; the function
    reads it through [Providers()] and writes it through
    [SetProviders()], which are parameters. *)
Variable Manager : Type.
Variable Providers : Manager -> list (option Provider).
Variable SetProviders : Manager -> list Provider -> Manager.

(** [ApplyAccessProviders]: the manager afterwards, whether a provider
    changed, and the error. *)
Definition ApplyAccessProviders (manager : option Manager)
    (oldCfg newCfg : option (@Config_ any)) (next : nat)
  : option Manager * bool * option BuildError :=
  match manager, newCfg with
  | Some m, Some _ =>
      let existing := Providers m in
      match ReconcileProviders DefaultAccessProviderName AccessProviderTypeConfigAPIKey
              MakeInlineAPIKeyProvider registry oldCfg newCfg existing next with
      | inr err => (manager, false, Some err)
      | inl r =>
          (Some (SetProviders m (result r)),
           Nat.ltb 0 (length (added r) + length (updated r) + length (removed r)),
           None)
      end
  | _, _ => (manager, false, None)
  end.

End Apply.

(** An entry that names no type. *)
Definition untyped_provider : @AccessProvider string :=
  {| Name := "legacy"; Typ := ""; SDK := ""; APIKeys := ["k0"]; Config := ∅ |}.

(** A factory that names its provider after the configuration entry. *)
Definition named_factory : @AccessProvider string -> @Config_ string -> option string :=
  fun c _ => Some (Name c).

(** Two loads of a configuration that has top-level keys only; the keys
    are the same in both. *)
Definition keys_only_old : @Config_ string :=
  {| providersBase := 30; Access_Providers := []; Config_APIKeys := ["k1"; "k2"] |}.
Definition keys_only_new : @Config_ string :=
  {| providersBase := 40; Access_Providers := []; Config_APIKeys := ["k1"; "k2"] |}.

(** A manager that is the list of its providers. *)
Definition list_Providers (m : list (option Provider)) : list (option Provider) := m.
Definition list_SetProviders (m : list (option Provider)) (providers : list Provider)
  : list (option Provider) := Some <$> providers.

(** The inline provider registered by the first load, at address 5. *)
Definition inline_registered : list (option Provider) :=
  [ Some {| obj := 5; Identifier := "config-inline" |} ].

End AccessBuild.

(** ** The response writer of the amp rewriter *)

Module AmpWriter.
Import GoStrings Json Amp.

(** [strings.Contains]. *)
Definition Contains (s sub : string) : bool :=
  match String.index 0 sub s with Some _ => true | None => false end.

(** Two paths neither of which leads into the other. *)
Definition unrelated (p q : list string) : Prop :=
  ~ p `prefix_of` q /\ ~ q `prefix_of` p.

Section Writer.

(** [rw.rewriteModelInResponse] on the bytes of a body or of a frame. *)
Variable rewriteFrame : string -> string -> string.

(** The wrapped [gin.ResponseWriter], which is not among the sources: a
    state with the Content-Type of its header, its [Write] (the bytes
    written and the error, if any) and the [Flush] of [http.Flusher]. *)
Variable ResponseWriter : Type.
Variable contentType : ResponseWriter -> string.
Variable write : ResponseWriter -> string -> ResponseWriter * (nat * option string).
Variable flush : ResponseWriter -> ResponseWriter.

(** [ResponseRewriter]. *)
Record ResponseRewriter : Type := mkResponseRewriter {
  inner : ResponseWriter;
  body : string;
  originalModel : string;
  isStreaming : bool
}.

Definition NewResponseRewriter (w : ResponseWriter) (originalModel : string)
  : ResponseRewriter :=
  {| inner := w; body := ""; originalModel := originalModel; isStreaming := false |}.

(** The detection on the first write. *)
Definition detect (rw : ResponseRewriter) : ResponseRewriter :=
  if Nat.eqb (String.length (body rw)) 0 && negb (isStreaming rw) then
    let contentType := contentType (inner rw) in
    {| inner := inner rw; body := body rw; originalModel := originalModel rw;
       isStreaming := Contains contentType "text/event-stream"
                      || Contains contentType "stream" |}
  else rw.

(** [Write]: the rewriter afterwards, and the two results. *)
Definition Write (rw : ResponseRewriter) (data : string)
  : ResponseRewriter * (nat * option string) :=
  let rw := detect rw in
  if isStreaming rw then
    let '(w, (n, err)) :=
      write (inner rw) (rewriteStreamChunk rewriteFrame (originalModel rw) data) in
    let w := match err with None => flush w | Some _ => w end in
    ({| inner := w; body := body rw; originalModel := originalModel rw;
        isStreaming := isStreaming rw |}, (n, err))
  else
    ({| inner := inner rw; body := body rw +:+ data; originalModel := originalModel rw;
        isStreaming := isStreaming rw |}, (String.length data, None)).

(** [Flush]; a failed write is only logged. *)
Definition Flush (rw : ResponseRewriter) : ResponseRewriter :=
  if isStreaming rw then
    {| inner := flush (inner rw); body := body rw; originalModel := originalModel rw;
       isStreaming := isStreaming rw |}
  else if Nat.ltb 0 (String.length (body rw)) then
    {| inner := (write (inner rw) (rewriteFrame (originalModel rw) (body rw))).1;
       body := body rw; originalModel := originalModel rw; isStreaming := isStreaming rw |}
  else rw.

(** The rewriter after a sequence of writes. *)
Definition written (rw : ResponseRewriter) (chunks : list string) : ResponseRewriter :=
  foldl (fun rw data => (Write rw data).1) rw chunks.

(** The chunks one after the other, as [bytes.Buffer] collects them. *)
Definition joined (chunks : list string) : string := foldr String.append "" chunks.

(** What the wrapped writer has received once each chunk was passed on
    as a rewritten stream chunk, with a flush after each write that
    succeeded. *)
Definition forwarded (originalModel : string) (w : ResponseWriter) (chunks : list string)
  : ResponseWriter :=
  foldl (fun w data =>
           let '(w', (_, err)) := write w (rewriteStreamChunk rewriteFrame originalModel data) in
           match err with None => flush w' | Some _ => w' end) w chunks.

End Writer.

(** A writer that records its Content-Type, the chunks it was given
    and the number of flushes. *)
Record Recorder : Type := mkRecorder {
  rec_contentType : string;
  rec_chunks : list string;
  rec_flushes : nat
}.

Definition rec_write (w : Recorder) (data : string) : Recorder * (nat * option string) :=
  ({| rec_contentType := rec_contentType w; rec_chunks := rec_chunks w ++ [data];
      rec_flushes := rec_flushes w |}, (String.length data, None)).

Definition rec_flush (w : Recorder) : Recorder :=
  {| rec_contentType := rec_contentType w; rec_chunks := rec_chunks w;
     rec_flushes := S (rec_flushes w) |}.

Definition json_recorder : Recorder :=
  {| rec_contentType := "application/json"; rec_chunks := []; rec_flushes := 0 |}.

Definition sse_recorder : Recorder :=
  {| rec_contentType := "text/event-stream; charset=utf-8"; rec_chunks := [];
     rec_flushes := 0 |}.

End AmpWriter.

(** ** The donation site: sessions, roles, middleware, bindings
    (package donation) *)

Module Donation.
Import GoStrings.

(** Instants ([time.Time]) are nanoseconds since the zero time, spans
    ([time.Duration]) nanoseconds; Go's [int] is an integer. *)

Definition RoleUser : string := "user".
Definition RoleAdmin : string := "admin".
Definition SessionCookieName : string := "session_id".
Definition SessionContextKey : string := "donation_session".

(** [LinuxDoUser], reduced to the two fields a session copies. *)
Record LinuxDoUser : Type := mkLinuxDoUser {
  user_ID : Z;
  user_Username : string
}.

(** [Session]. *)
Record Session : Type := mkSession {
  ID : string;
  LinuxDoID : Z;
  Username : string;
  Role : string;
  NewAPIUserID : Z;
  CreatedAt : Z;
  ExpiresAt : Z
}.

#[global] Instance Session_eq_dec : EqDecision Session.
Proof. solve_decision. Defined.

(** [IsExpired], at the instant [now] that [time.Now()] returns. *)
Definition IsExpired (now : Z) (s : Session) : bool := Z.ltb (ExpiresAt s) now.

(** *** The session store *)

Definition SessionTTL : Z := 24 * 3600 * 1000000000.
Definition TokenLength : nat := 32.

(** [SessionStore]: the [sync.Map] from token to session, and the TTL. *)
Record SessionStore : Type := mkSessionStore {
  sessions : gmap string Session;
  ttl : Z
}.

Definition NewSessionStore : SessionStore := {| sessions := ∅; ttl := SessionTTL |}.

Definition NewSessionStoreWithTTL (ttl : Z) : SessionStore :=
  {| sessions := ∅; ttl := if Z.leb ttl 0 then SessionTTL else ttl |}.

(** [hex.EncodeToString]: two digits of "0123456789abcdef" per byte,
    the high half first. *)
Definition hextable : string := "0123456789abcdef".

Definition hex_digit (n : N) : ascii :=
  match String.get (N.to_nat n) hextable with
  | Some c => c
  | None => "0"%char
  end.

Fixpoint EncodeToString (src : list ascii) : string :=
  match src with
  | [] => EmptyString
  | b :: rest =>
      String (hex_digit (N_of_ascii b / 16))
        (String (hex_digit (N_of_ascii b mod 16)) (EncodeToString rest))
  end.

(** The value of a digit of [hextable]. *)
Definition hex_value (c : ascii) : N :=
  match String.index 0 (String c EmptyString) hextable with
  | Some i => N.of_nat i
  | None => 0
  end.

(** [GenerateToken]; [random] is what [rand.Read] put into the
    [TokenLength] bytes, [None] when it failed. *)
Definition GenerateToken (random : option (list ascii)) : option string :=
  match random with
  | None => None
  | Some bytes => Some (EncodeToString bytes)
  end.

(** [Create], at the instant [now]. *)
Definition Create (s : SessionStore) (now : Z) (random : option (list ascii))
    (user : LinuxDoUser) (role : string) : SessionStore * option Session :=
  match GenerateToken random with
  | None => (s, None)
  | Some token =>
      let session := {| ID := token; LinuxDoID := user_ID user;
                        Username := user_Username user; Role := role;
                        NewAPIUserID := 0; CreatedAt := now;
                        ExpiresAt := now + ttl s |} in
      ({| sessions := <[token := session]> (sessions s); ttl := ttl s |}, Some session)
  end.

(** [Get]: an expired session is deleted and not returned. *)
Definition Get (s : SessionStore) (now : Z) (sessionID : string)
  : SessionStore * option Session :=
  match sessions s !! sessionID with
  | None => (s, None)
  | Some session =>
      if IsExpired now session
      then ({| sessions := delete sessionID (sessions s); ttl := ttl s |}, None)
      else (s, Some session)
  end.

(** [Update]; a nil session is [None]. *)
Definition Update (s : SessionStore) (session : option Session) : SessionStore * bool :=
  match session with
  | None => (s, false)
  | Some session =>
      if String.eqb (ID session) "" then (s, false)
      else
        match sessions s !! ID session with
        | None => (s, false)
        | Some _ =>
            ({| sessions := <[ID session := session]> (sessions s); ttl := ttl s |}, true)
        end
  end.

Definition Delete (s : SessionStore) (sessionID : string) : SessionStore :=
  {| sessions := delete sessionID (sessions s); ttl := ttl s |}.

(** [Cleanup]: every session that [now] is after goes. *)
Definition Cleanup (s : SessionStore) (now : Z) : SessionStore :=
  {| sessions := filter (fun kv => negb (Z.ltb (ExpiresAt kv.2) now) = true) (sessions s);
     ttl := ttl s |}.

(** *** The role service, with admin user names *)

(** [RoleService]; a nil map is [None]. *)
Record RoleService : Type := mkRoleService {
  adminIDs : option (gset Z);
  adminUsernames : option (gset string)
}.

Definition NewRoleService (adminLinuxDoIDs : list Z) (adminUsernames : list string)
  : RoleService :=
  {| adminIDs := Some (list_to_set adminLinuxDoIDs);
     adminUsernames := Some (list_to_set (ToLower <$> adminUsernames)) |}.

Definition DetermineRole (s : option RoleService) (linuxDoID : Z) (username : string)
  : string :=
  match s with
  | None => RoleUser
  | Some s =>
      if match adminIDs s with
         | Some ids => bool_decide (linuxDoID ∈ ids)
         | None => false
         end
      then RoleAdmin
      else if match adminUsernames s with
              | Some names =>
                  negb (String.eqb username "") && bool_decide (ToLower username ∈ names)
              | None => false
              end
      then RoleAdmin
      else RoleUser
  end.

Definition IsAdmin (s : option RoleService) (linuxDoID : Z) (username : string) : bool :=
  String.eqb (DetermineRole s linuxDoID username) RoleAdmin.

Definition AddAdmin (s : RoleService) (linuxDoID : Z) : RoleService :=
  {| adminIDs := Some ({[ linuxDoID ]} ∪ default ∅ (adminIDs s));
     adminUsernames := adminUsernames s |}.

Definition RemoveAdmin (s : RoleService) (linuxDoID : Z) : RoleService :=
  {| adminIDs := match adminIDs s with
                 | Some ids => Some (ids ∖ {[ linuxDoID ]})
                 | None => None
                 end;
     adminUsernames := adminUsernames s |}.

(** *** The role service, the version with identifiers only *)

Module RoleIDs.

(** The service of that version is its map of admin identifiers; a nil
    map is [None]. *)
Definition NewRoleService (adminLinuxDoIDs : list Z) : option (gset Z) :=
  Some (list_to_set adminLinuxDoIDs).

(** [DetermineRole]; a nil service is [None]. *)
Definition DetermineRole (s : option (option (gset Z))) (linuxDoID : Z) : string :=
  match s with
  | Some (Some ids) => if bool_decide (linuxDoID ∈ ids) then RoleAdmin else RoleUser
  | _ => RoleUser
  end.

End RoleIDs.

(** *** The middleware *)

(** What [gin.Context.Keys] holds under a key: a [*Session], or a value
    of another type. *)
Inductive CtxValue : Type :=
| VSession (s : Session)
| VOther.

(** A cookie [c.SetCookie(name, value, maxAge, "/", "", false, true)]
    adds to the response. *)
Record ResponseCookie : Type := mkResponseCookie {
  cookie_name : string;
  cookie_value : string;
  cookie_maxAge : Z
}.

(** What [c.AbortWithStatusJSON(status, gin.H{"error": .., "message": ..})]
    answers. *)
Record Abort : Type := mkAbort {
  status : Z;
  error : string;
  message : string
}.

(** [gin.Context], reduced to what the middleware reads and writes: the
    cookies of the request (by name, as [c.Cookie] returns their
    values), the keys, the cookies set and the answer of an abort. *)
Record Context : Type := mkContext {
  requestCookies : gmap string string;
  Keys : gmap string CtxValue;
  setCookies : list ResponseCookie;
  aborted : option Abort
}.

Definition StatusUnauthorized : Z := 401.
Definition StatusForbidden : Z := 403.

Definition AbortWithStatusJSON (c : Context) (status : Z) (error message : string)
  : Context :=
  {| requestCookies := requestCookies c; Keys := Keys c; setCookies := setCookies c;
     aborted := Some {| status := status; error := error; message := message |} |}.

Definition SetCookie (c : Context) (name value : string) (maxAge : Z) : Context :=
  {| requestCookies := requestCookies c; Keys := Keys c;
     setCookies := setCookies c ++ [{| cookie_name := name; cookie_value := value;
                                        cookie_maxAge := maxAge |}];
     aborted := aborted c |}.

Definition Set_key (c : Context) (key : string) (value : CtxValue) : Context :=
  {| requestCookies := requestCookies c; Keys := <[key := value]> (Keys c);
     setCookies := setCookies c; aborted := aborted c |}.

(** [AuthMiddleware(sessionStore)]: the store and the context
    afterwards, and whether [c.Next()] was called. *)
Definition AuthMiddleware (sessionStore : SessionStore) (now : Z) (c : Context)
  : SessionStore * Context * bool :=
  match requestCookies c !! SessionCookieName with
  | None =>
      (sessionStore,
       AbortWithStatusJSON c StatusUnauthorized "unauthorized" "session not found", false)
  | Some sessionID =>
      if String.eqb sessionID "" then
        (sessionStore,
         AbortWithStatusJSON c StatusUnauthorized "unauthorized" "session not found", false)
      else
        match Get sessionStore now sessionID with
        | (sessionStore, None) =>
            (sessionStore,
             AbortWithStatusJSON (SetCookie c SessionCookieName "" (-1))
               StatusUnauthorized "unauthorized" "invalid or expired session", false)
        | (sessionStore, Some session) =>
            (sessionStore, Set_key c SessionContextKey (VSession session), true)
        end
  end.

Definition GetSessionFromContext (c : Context) : option Session :=
  match Keys c !! SessionContextKey with
  | Some (VSession session) => Some session
  | _ => None
  end.

Definition hasRequiredRole (userRole requiredRole : string) : bool :=
  if String.eqb userRole RoleAdmin then true
  else String.eqb userRole requiredRole.

(** [RoleMiddleware(requiredRole)]: the context afterwards, and whether
    [c.Next()] was called. *)
Definition RoleMiddleware (requiredRole : string) (c : Context) : Context * bool :=
  match GetSessionFromContext c with
  | None =>
      (AbortWithStatusJSON c StatusUnauthorized "unauthorized" "session not found in context",
       false)
  | Some session =>
      if negb (hasRequiredRole (Role session) requiredRole) then
        (AbortWithStatusJSON c StatusForbidden "forbidden" "insufficient permissions", false)
      else (c, true)
  end.

Definition AdminOnlyMiddleware : Context -> Context * bool := RoleMiddleware RoleAdmin.

(** [DonationModule], reduced to the flag and the session store. *)
Record DonationModule : Type := mkDonationModule {
  isConfigured : bool;
  sessionStore : SessionStore
}.

Definition IsConfigured (m : option DonationModule) : bool :=
  match m with
  | None => false
  | Some m => isConfigured m
  end.

(** [optionalAuthMiddleware]: [c.Next()] is called on every path. *)
Definition optionalAuthMiddleware (store : SessionStore) (now : Z) (c : Context)
  : SessionStore * Context :=
  match requestCookies c !! SessionCookieName with
  | None => (store, c)
  | Some sessionID =>
      if String.eqb sessionID "" then (store, c)
      else
        match Get store now sessionID with
        | (store, Some session) => (store, Set_key c SessionContextKey (VSession session))
        | (store, None) => (store, c)
        end
  end.

Definition CheckAdminAccess (m : option DonationModule) (c : Context) : bool :=
  if negb (IsConfigured m) then true
  else
    match GetSessionFromContext c with
    | None => true
    | Some session => String.eqb (Role session) RoleAdmin
    end.

(** The request carries the cookie of a session the store holds and
    that has not expired. *)
Definition valid_session (store : SessionStore) (now : Z) (c : Context) (session : Session)
  : Prop :=
  exists sessionID,
    requestCookies c !! SessionCookieName = Some sessionID
    /\ sessionID <> ""
    /\ sessions store !! sessionID = Some session
    /\ (now <= ExpiresAt session)%Z.

(** *** The binding store *)

(** [UserBinding]. *)
Record UserBinding : Type := mkUserBinding {
  binding_LinuxDoID : Z;
  binding_NewAPIUserID : Z;
  BoundAt : Z
}.

#[global] Instance UserBinding_eq_dec : EqDecision UserBinding.
Proof. solve_decision. Defined.

(** [BindingStore]: the map keyed by LinuxDoID. The file is what
    [save] wrote last: the slice of [bindingsFile], [None] before any
    write. *)
Record BindingStore : Type := mkBindingStore {
  bindings : gmap Z UserBinding;
  file : option (list (option UserBinding))
}.

Module Bindings.

(** The loop of [load] over [file.Bindings]; nil entries are skipped. *)
Definition load (entries : list (option UserBinding)) : gmap Z UserBinding :=
  foldl (fun m binding =>
           match binding with
           | None => m
           | Some binding => <[binding_LinuxDoID binding := binding]> m
           end) ∅ entries.

(** [save]: the slice of the map's values, in the order [order] the
    range over the map happens to take; [failure] is the error of
    [os.MkdirAll] or [os.WriteFile], if any. *)
Definition save (s : BindingStore) (order : list UserBinding) (failure : option string)
  : BindingStore * option string :=
  match failure with
  | Some err => (s, Some err)
  | None => ({| bindings := bindings s; file := Some (Some <$> order) |}, None)
  end.

Definition GetByLinuxDoID (s : BindingStore) (linuxDoID : Z) : option UserBinding :=
  bindings s !! linuxDoID.

(** [Create], at the instant [now]; the binding is stored with the
    bound time it ends up with. *)
Definition Create (s : BindingStore) (binding : option UserBinding) (now : Z)
    (order : list UserBinding) (failure : option string) : BindingStore * option string :=
  match binding with
  | None => (s, None)
  | Some binding =>
      let binding :=
        if Z.eqb (BoundAt binding) 0
        then {| binding_LinuxDoID := binding_LinuxDoID binding;
                binding_NewAPIUserID := binding_NewAPIUserID binding; BoundAt := now |}
        else binding in
      save {| bindings := <[binding_LinuxDoID binding := binding]> (bindings s);
              file := file s |} order failure
  end.

Definition Delete (s : BindingStore) (linuxDoID : Z)
    (order : list UserBinding) (failure : option string) : BindingStore * option string :=
  save {| bindings := delete linuxDoID (bindings s); file := file s |} order failure.

End Bindings.

(** Every binding is filed under its own LinuxDoID. *)
Definition well_keyed (m : gmap Z UserBinding) : Prop :=
  forall k b, m !! k = Some b -> binding_LinuxDoID b = k.

(** A store with one session of a regular user that expires at instant
    2000, and a request that carries its cookie. *)
Definition demo_session : Session :=
  {| ID := "a1b2"; LinuxDoID := 42; Username := "neo"; Role := "user";
     NewAPIUserID := 0; CreatedAt := 1000; ExpiresAt := 2000 |}.

Definition demo_store : SessionStore :=
  {| sessions := {[ "a1b2" := demo_session ]}; ttl := 1000 |}.

Definition demo_context : Context :=
  {| requestCookies := {[ "session_id" := "a1b2" ]}; Keys := ∅; setCookies := [];
     aborted := None |}.

Definition demo_module : DonationModule :=
  {| isConfigured := true; sessionStore := demo_store |}.

(** A store with two bindings. *)
Definition demo_binding_1 : UserBinding :=
  {| binding_LinuxDoID := 42; binding_NewAPIUserID := 7; BoundAt := 1500 |}.
Definition demo_binding_2 : UserBinding :=
  {| binding_LinuxDoID := 43; binding_NewAPIUserID := 8; BoundAt := 1600 |}.

Definition demo_bindings : BindingStore :=
  {| bindings := {[ 42%Z := demo_binding_1; 43%Z := demo_binding_2 ]}; file := None |}.

End Donation.

(** ** The Linux Do Connect OAuth service (package donation) *)

Module LinuxDo.
Import GoStrings.

Definition DefaultAuthURL : string := "https://connect.linux.do/oauth2/authorize".
Definition DefaultTokenURL : string := "https://connect.linux.do/oauth2/token".
Definition DefaultUserInfoURL : string := "https://connect.linux.do/api/user".

(** [config.LinuxDoConnectConfig], by the fields the constructor reads. *)
Record LinuxDoConnectConfig : Type := mkLinuxDoConnectConfig {
  ClientID : string;
  ClientSecret : string;
  RedirectURI : string;
  AuthURL : string;
  TokenURL : string;
  UserInfoURL : string
}.

(** [LinuxDoConnectService], the HTTP client apart. *)
Record LinuxDoConnectService : Type := mkLinuxDoConnectService {
  clientID : string;
  clientSecret : string;
  redirectURI : string;
  authURL : string;
  tokenURL : string;
  userInfoURL : string
}.

Definition NewLinuxDoConnectService (cfg : LinuxDoConnectConfig) : LinuxDoConnectService :=
  {| clientID := ClientID cfg;
     clientSecret := ClientSecret cfg;
     redirectURI := RedirectURI cfg;
     authURL := if String.eqb (AuthURL cfg) "" then DefaultAuthURL else AuthURL cfg;
     tokenURL := if String.eqb (TokenURL cfg) "" then DefaultTokenURL else TokenURL cfg;
     userInfoURL :=
       if String.eqb (UserInfoURL cfg) "" then DefaultUserInfoURL else UserInfoURL cfg |}.

Definition IsConfigured (s : LinuxDoConnectService) : bool :=
  negb (String.eqb (clientID s) "") && negb (String.eqb (clientSecret s) "")
  && negb (String.eqb (redirectURI s) "").

(** [url.QueryEscape]: letters, digits and [-_.~] stay, a space becomes
    [+], every other byte [%XX] with upper-case digits. *)
Definition unreserved (c : ascii) : bool :=
  let n := N_of_ascii c in
  ((97 <=? n) && (n <=? 122) || (65 <=? n) && (n <=? 90) || (48 <=? n) && (n <=? 57))%N
  || Ascii.eqb c "-" || Ascii.eqb c "_" || Ascii.eqb c "." || Ascii.eqb c "~".

Definition upperhex : string := "0123456789ABCDEF".

Definition upper_digit (n : N) : ascii :=
  match String.get (N.to_nat n) upperhex with
  | Some c => c
  | None => "0"%char
  end.

Fixpoint QueryEscape (s : string) : string :=
  match s with
  | EmptyString => EmptyString
  | String c rest =>
      if unreserved c then String c (QueryEscape rest)
      else if Ascii.eqb c " " then String "+" (QueryEscape rest)
      else String "%" (String (upper_digit (N_of_ascii c / 16))
                         (String (upper_digit (N_of_ascii c mod 16)) (QueryEscape rest)))
  end.

(** [url.Values] with [Set] and [Encode]: the keys in sorted order, each
    value as [key=value], joined by [&]. *)
Definition Values : Type := gmap string (list string).

Definition Values_Set (v : Values) (key value : string) : Values := <[key := [value]]> v.

Fixpoint join_with (sep : string) (pieces : list string) : string :=
  match pieces with
  | [] => EmptyString
  | [p] => p
  | p :: rest => p +:+ sep +:+ join_with sep rest
  end.

Definition Encode (v : Values) : string :=
  join_with "&"
    (flat_map (fun k => map (fun x => QueryEscape k +:+ "=" +:+ QueryEscape x)
                            (default [] (v !! k)))
              (merge_sort String.le (elements (dom v)))).

(** The two errors of [GenerateAuthURL]. *)
Inductive AuthURLError : Type :=
| ClientIDNotConfigured
| RedirectURINotConfigured.

Definition GenerateAuthURL (s : LinuxDoConnectService) (state : string)
  : string + AuthURLError :=
  if String.eqb (clientID s) "" then inr ClientIDNotConfigured
  else if String.eqb (redirectURI s) "" then inr RedirectURINotConfigured
  else
    let params : Values := ∅ in
    let params := Values_Set params "client_id" (clientID s) in
    let params := Values_Set params "redirect_uri" (redirectURI s) in
    let params := Values_Set params "response_type" "code" in
    let params := Values_Set params "state" state in
    inl (authURL s +:+ "?" +:+ Encode params).

End LinuxDo.

(** * Theorems *)

(** ** Facts about the string helpers *)

Module GoStringsProofs.
Import GoStrings.

Lemma cut_None_contains (sep : ascii) (s : string) :
  cut sep s = None <-> contains_byte sep s = false.
Proof.
  induction s as [|c s IH]; simpl; [done|].
  destruct (Ascii.eqb c sep); simpl; [split; discriminate|].
  destruct (cut sep s) as [[a b]|]; rewrite <- IH; split; try done.
Qed.

Lemma cut_Some_first (sep : ascii) (s a b : string) :
  cut sep s = Some (a, b) ->
  s = a +:+ String sep b /\ contains_byte sep a = false.
Proof.
  revert a. induction s as [|c s IH]; intros a; simpl; [done|].
  destruct (Ascii.eqb_spec c sep) as [->|Hne].
  - intros [= <- <-]. done.
  - destruct (cut sep s) as [[a' b']|]; [|done].
    intros [= <- <-]. destruct (IH a' eq_refl) as [-> Hc]. split; [done|].
    simpl. destruct (Ascii.eqb_spec c sep); [done|]. done.
Qed.

End GoStringsProofs.

(** ** The config-api-key provider *)

Module ConfigAccessProofs.
Import GoStrings ConfigAccess GoStringsProofs.


Lemma first_match_None (ks : gset string) (cs : list (string * string)) :
  first_match ks cs = None <-> (forall v, v ∈ cs.*1 -> v <> "" -> v ∉ ks).
Proof.
  induction cs as [|[v' s'] cs IH]; simpl.
  - split; [|done]. intros _ v Hv. by apply elem_of_nil in Hv.
  - destruct (String.eqb_spec v' "") as [->|Hne].
    + rewrite IH. split.
      * intros H v Hv Hne. apply elem_of_cons in Hv as [->|Hv]; [done|]. by apply H.
      * intros H v Hv. apply H. by right.
    + case_bool_decide as Hin.
      * split; [done|]. intros H. exfalso. apply (H v'); [by left|done|done].
      * rewrite IH. split.
        -- intros H v Hv Hv0. apply elem_of_cons in Hv as [->|Hv]; [done|]. by apply H.
        -- intros H v Hv. apply H. by right.
Qed.

Lemma extractBearerToken_empty : extractBearerToken "" = "".
Proof. reflexivity. Qed.


Lemma extractBearerToken_raw (header : string) :
  not_bearer_form header -> extractBearerToken header = header.
Proof.
  unfold not_bearer_form, first_word, extractBearerToken, SplitN2.
  destruct (String.eqb_spec header "") as [->|Hne]; [done|].
  intros [Hno|Hword].
  - apply cut_None_contains in Hno. by rewrite Hno.
  - destruct (cut " " header) as [[a b]|]; [|done].
    destruct (String.eqb_spec (ToLower a) "bearer"); [done|done].
Qed.

Section WithDefaultName.

Variable DefaultAccessProviderName : string.



(** C7, as amended. With an empty key set (or a nil receiver) the answer
    is not_handled, whatever the request carries. With a key set that is
    not empty: no_credentials when none of the five carriers is present,
    invalid_credential when one is present and no credential is a
    configured key, ok otherwise. *)
Theorem authenticate_outcomes (p : provider) (r : Request) :
  Authenticate DefaultAccessProviderName None r = Err ErrNotHandled
  /\ (size (keys p) = 0 -> Authenticate DefaultAccessProviderName (Some p) r = Err ErrNotHandled)
  /\ (size (keys p) <> 0 -> no_carrier r = true ->
        Authenticate DefaultAccessProviderName (Some p) r = Err ErrNoCredentials)
  /\ (size (keys p) <> 0 -> no_carrier r = false ->
        (forall c, c ∈ credentials r -> c <> "" -> c ∉ keys p) ->
        Authenticate DefaultAccessProviderName (Some p) r = Err ErrInvalidCredential)
  /\ (size (keys p) <> 0 -> no_carrier r = false ->
        (exists c, c ∈ credentials r /\ c <> "" /\ c ∈ keys p) ->
        exists res, Authenticate DefaultAccessProviderName (Some p) r = Ok res).
Proof.
  split; [done|]. unfold Authenticate. fold (no_carrier r).
  repeat split.
  - intros Hs. by rewrite bool_decide_eq_true_2.
  - intros Hs Hn. rewrite bool_decide_eq_false_2 by done. by rewrite Hn.
  - intros Hs Hn Hall. rewrite bool_decide_eq_false_2 by done. rewrite Hn.
    apply first_match_None in Hall. unfold credentials in Hall. by rewrite Hall.
  - intros Hs Hn (c & Hc & Hne & Hk). rewrite bool_decide_eq_false_2 by done. rewrite Hn.
    destruct (first_match (keys p) (candidates r)) as [[v src]|] eqn:Hfm; [eauto|].
    exfalso. by apply (proj1 (first_match_None _ _) Hfm c).
Qed.

(** C10. A value of the Authorization header that is not of the form
    "Bearer <token>" (it has no space, or its first word is not bearer
    in any letter case) is itself the candidate key: when it is a
    configured key the request is authenticated with it as principal,
    from the source "authorization". *)
Theorem bare_authorization_key_authenticates (p : provider) (r : Request) :
  let header := Get (Header r) "Authorization" in
  not_bearer_form header ->
  extractBearerToken header = header
  /\ (header <> "" -> header ∈ keys p ->
      Authenticate DefaultAccessProviderName (Some p) r =
        Ok {| Provider := Identifier DefaultAccessProviderName (Some p);
              Principal := header;
              Metadata := {[ "source" := "authorization" ]} |}).
Proof.
  intros header Hform. pose proof (extractBearerToken_raw header Hform) as Hraw.
  split; [done|]. intros Hne Hin.
  unfold Authenticate.
  rewrite bool_decide_eq_false_2.
  2:{ intros Hs. apply size_empty_inv in Hs. set_solver. }
  unfold raw_carriers, candidates. fold header. rewrite Hraw. simpl.
  destruct (String.eqb_spec header "") as [?|_]; [done|]. simpl.
  by rewrite bool_decide_eq_true_2.
Qed.

End WithDefaultName.


Lemma authenticate_outcomes_witness :
  ConfigAccess.Authenticate "config-inline" (Some demo_provider) empty_request
    = Err ErrNoCredentials
  /\ ConfigAccess.Authenticate "config-inline" (Some keyless_provider) empty_request
    = Err ErrNotHandled.
Proof.
  split.
  - apply (authenticate_outcomes "config-inline" demo_provider empty_request);
      [vm_compute; discriminate|reflexivity].
  - apply (authenticate_outcomes "config-inline" keyless_provider empty_request).
    reflexivity.
Defined.

(** C7 as it is stated fails for a provider without keys: a request
    without any carrier is answered not_handled, not no_credentials. *)
Lemma no_credentials_claim_fails_without_keys :
  ~ (no_carrier empty_request = true ->
     ConfigAccess.Authenticate "config-inline" (Some keyless_provider) empty_request
       = Err ErrNoCredentials).
Proof. intros H. specialize (H eq_refl). vm_compute in H. discriminate. Qed.

Lemma bare_authorization_key_authenticates_witness :
  ConfigAccess.Authenticate "config-inline" (Some demo_provider)
    (request_with_header "Authorization" "sk-one")
  = Ok {| Provider := "config-inline"; Principal := "sk-one";
          Metadata := {[ "source" := "authorization" ]} |}.
Proof.
  apply (bare_authorization_key_authenticates "config-inline" demo_provider
           (request_with_header "Authorization" "sk-one")).
  - left. reflexivity.
  - vm_compute. discriminate.
  - vm_compute. reflexivity.
Defined.

End ConfigAccessProofs.

(** ** The composite translation edge *)

Module TranslatorProofs.
Import Translator.

Lemma Clone_eq (b : string) : Clone b = b.
Proof. induction b as [|c b IH]; simpl; [done|]. by rewrite IH. Qed.

(** C9. The request translator from OpenAI Responses to Antigravity is
    the composition of the translator to Gemini followed by the one from
    Gemini to Antigravity, for every model name, input and stream flag;
    so the edges are equal as functions of their three arguments. *)
Theorem responses_to_antigravity_is_composition
    (toGemini toAntigravity : RequestTranslator)
    (modelName inputRawJSON : string) (stream : bool) :
  ConvertOpenAIResponsesRequestToAntigravity toGemini toAntigravity modelName inputRawJSON stream
  = toAntigravity modelName (toGemini modelName inputRawJSON stream) stream
  /\ ConvertOpenAIResponsesRequestToAntigravity toGemini toAntigravity modelName inputRawJSON stream
     = compose_edges toGemini toAntigravity modelName inputRawJSON stream.
Proof.
  unfold ConvertOpenAIResponsesRequestToAntigravity, compose_edges.
  by rewrite Clone_eq.
Qed.

End TranslatorProofs.

(** ** Splitting and joining lines *)

Module LinesProofs.
Import GoStrings.

Lemma Split_nonempty (s : string) (sep : ascii) : Split s sep <> [].
Proof.
  destruct s as [|c s]; simpl; [done|].
  destruct (Ascii.eqb c sep); [done|]. by destruct (Split s sep).
Qed.





Lemma Join_cons (p : string) (rest : list string) (sep : ascii) :
  rest <> [] -> Join (p :: rest) sep = p +:+ String sep (Join rest sep).
Proof. by destruct rest. Qed.

Lemma Join_cons_byte (c : ascii) (h : string) (t : list string) (sep : ascii) :
  Join (String c h :: t) sep = String c (Join (h :: t) sep).
Proof. by destruct t. Qed.

Lemma Join_Split (s : string) (sep : ascii) : Join (Split s sep) sep = s.
Proof.
  induction s as [|c s IH]; simpl; [done|].
  pose proof (Split_nonempty s sep) as Hn.
  destruct (Ascii.eqb_spec c sep) as [->|Hne].
  - rewrite Join_cons by done. simpl. by rewrite IH.
  - destruct (Split s sep) as [|h t] eqn:E; [done|].
    rewrite Join_cons_byte. by rewrite IH.
Qed.



End LinesProofs.

(** ** The response rewriter *)

Module AmpProofs.
Import GoStrings Json Amp LinesProofs.

Lemma lookup_update_member_eq (k : string) (f : option json -> json)
    (ms : list (string * json)) :
  lookup_member k (update_member k f ms) = Some (f (lookup_member k ms)).
Proof.
  induction ms as [|[k' v] ms IH]; simpl.
  - by rewrite String.eqb_refl.
  - destruct (String.eqb k' k) eqn:E; simpl; rewrite E; [done|]. apply IH.
Qed.

Lemma lookup_update_member_ne (k k' : string) (f : option json -> json)
    (ms : list (string * json)) :
  k <> k' ->
  lookup_member k' (update_member k f ms) = lookup_member k' ms.
Proof.
  intros Hne. induction ms as [|[k0 v] ms IH]; simpl.
  - destruct (String.eqb_spec k k'); [done|done].
  - destruct (String.eqb_spec k0 k) as [->|Hk]; simpl.
    + destruct (String.eqb_spec k k'); [done|done].
    + destruct (String.eqb k0 k'); [done|]. apply IH.
Qed.

(** Setting a path that exists puts the value there. *)
Lemma Get_Set_same (path : list string) (value data : json) :
  Exists path data = true -> Get path (Set_ path value data) = Some value.
Proof.
  unfold Exists. revert data. induction path as [|k rest IH]; intros data; simpl; [done|].
  destruct data as [| | | | |ms]; try done.
  destruct (lookup_member k ms) as [v|] eqn:E; [|done].
  intros Hex. simpl. rewrite lookup_update_member_eq, E. by apply IH.
Qed.

(** Setting a path leaves every path that starts with another member
    name as it was. *)
Lemma Get_Set_other (k k' : string) (rest rest' : list string) (value data : json) :
  k <> k' ->
  Get (k' :: rest') (Set_ (k :: rest) value data) = Get (k' :: rest') data.
Proof.
  intros Hne. destruct data as [| | | | |ms]; try done.
  simpl. by rewrite lookup_update_member_ne.
Qed.

Lemma path_of_nonempty (p : string) : path_of p <> [].
Proof. apply Split_nonempty. Qed.

Lemma rewrite_path_same (originalModel : string) (data : json) (path : string) :
  Get (path_of path) (rewrite_path originalModel data path)
  = if Exists (path_of path) data then Some (JString originalModel) else None.
Proof.
  unfold rewrite_path. destruct (Exists (path_of path) data) eqn:E.
  - by apply Get_Set_same.
  - unfold Exists in E. by destruct (Get (path_of path) data).
Qed.

Lemma rewrite_path_other (originalModel : string) (data : json) (path other : string) :
  hd "" (path_of path) <> hd "" (path_of other) ->
  Get (path_of other) (rewrite_path originalModel data path) = Get (path_of other) data.
Proof.
  unfold rewrite_path. intros Hne.
  destruct (Exists (path_of path) data); [|done].
  pose proof (path_of_nonempty path) as Hp. pose proof (path_of_nonempty other) as Ho.
  destruct (path_of path) as [|k rest]; [done|].
  destruct (path_of other) as [|k' rest']; [done|].
  by apply Get_Set_other.
Qed.

(** The loop over a list of paths that start with different member
    names: each path that exists ends up holding the model, each path
    that does not exist still does not. *)
Lemma rewrite_paths (originalModel : string) (paths : list string) (data : json) (path : string) :
  NoDup (heads paths) ->
  path ∈ paths ->
  Get (path_of path) (foldl (rewrite_path originalModel) data paths)
  = if Exists (path_of path) data then Some (JString originalModel) else None.
Proof.
  revert data. induction paths as [|p ps IH]; intros data Hnd Hin.
  - by apply elem_of_nil in Hin.
  - simpl in Hnd. apply NoDup_cons in Hnd as [Hp Hps]. simpl.
    destruct (decide (path ∈ ps)) as [Hin'|Hnot].
    + rewrite (IH _ Hps Hin'). unfold Exists.
      rewrite rewrite_path_other; [done|].
      intros Heq. apply Hp. rewrite Heq. unfold heads.
      apply list_elem_of_fmap. by exists path.
    + apply elem_of_cons in Hin as [->|Hin]; [|done].
      assert (forall d, Get (path_of p) (foldl (rewrite_path originalModel) d ps)
                        = Get (path_of p) d) as Hframe.
      { clear IH Hnot Hps. induction ps as [|q qs IHq]; intros d; [done|].
        simpl. rewrite IHq.
        - apply rewrite_path_other. intros Heq. apply Hp. rewrite <- Heq. by left.
        - intros Hq. apply Hp. by right. }
      rewrite Hframe. apply rewrite_path_same.
Qed.

Lemma modelFieldPaths_heads : NoDup (heads modelFieldPaths).
Proof.
  apply (bool_decide_unpack _). by vm_compute.
Qed.

Lemma HasPrefix_app (s pre : string) :
  HasPrefix s pre = true <-> exists rest, s = pre +:+ rest.
Proof.
  unfold HasPrefix. revert s. induction pre as [|c pre IH]; intros s.
  - destruct s; simpl; split; eauto.
  - destruct s as [|c' s]; simpl.
    + split; [done|]. intros [rest Hr]. discriminate.
    + destruct (ascii_dec c c') as [->|Hne].
      * rewrite IH. split; intros [rest Hr]; exists rest.
        -- by rewrite Hr.
        -- change (String c' s = String c' (pre +:+ rest)) in Hr. congruence.
      * split; [done|]. intros [rest Hr].
        change (String c' s = String c (pre +:+ rest)) in Hr. congruence.
Qed.

Lemma drop_bytes_app (pre rest : string) :
  drop_bytes (String.length pre) (pre +:+ rest) = rest.
Proof. induction pre as [|c pre IH]; simpl; [by destruct rest|done]. Qed.

Section StreamFacts.

Variable rewriteFrame : string -> string -> string.

Lemma rewriteLine_data (originalModel line : string) :
  rewriteLine rewriteFrame originalModel line
  = if HasPrefix line "data: {"
    then "data: " +:+ rewriteFrame originalModel (drop_bytes 6 line)
    else line.
Proof.
  unfold rewriteLine, TrimPrefix.
  destruct (HasPrefix line "data: {") eqn:E.
  - apply HasPrefix_app in E as [rest ->].
    assert (HasPrefix ("data: {" +:+ rest) "data: " = true) as ->.
    { apply HasPrefix_app. by exists (String "{" rest). }
    reflexivity.
  - destruct (HasPrefix line "data: ") eqn:Hp; [|done].
    apply HasPrefix_app in Hp as [rest ->].
    rewrite drop_bytes_app.
    destruct rest as [|c rest]; [done|].
    destruct (ascii_dec c "{") as [->|Hne].
    + exfalso. assert (HasPrefix ("data: " +:+ String "{" rest) "data: {" = true) as E'.
      { apply HasPrefix_app. by exists rest. }
      congruence.
    + destruct c as [[] [] [] [] [] [] [] []]; done.
Qed.


End StreamFacts.



End AmpProofs.

(** ** Thinking budgets and effort levels *)

Module ThinkingProofs.
Import GoStrings Thinking.

(** Every row of [TestThinkingBudgetToEffort] holds of the model. *)
Lemma ThinkingBudgetToEffort_test_rows :
  Forall (fun row => ThinkingBudgetToEffort row.1.1 row.1.2 = row.2)
         TestThinkingBudgetToEffort_cases.
Proof. repeat constructor. Qed.

(** The row "low-min" does not hold of the projection in the words of
    the specification: the smallest level of gpt-5 whose budget is at
    least 1 is minimal (512). *)
Lemma smallest_level_at_least_low_min :
  smallest_level_at_least gpt5_levels 1 = Some "minimal".
Proof. reflexivity. Qed.

(** C1 as it is stated fails at budget 1 on gpt-5: it is mapped to low,
    as the test row "low-min" asks, and not to the smallest level whose
    budget is at least 1, which is minimal. *)
Lemma positive_budget_not_smallest_level :
  ThinkingBudgetToEffort gpt5_levels 1 <> smallest_level_at_least gpt5_levels 1.
Proof. vm_compute. discriminate. Qed.

(** C1, as amended. On a level table [lowest :: higher]: budget -1 maps
    to auto and every other negative budget is refused; budget 0 maps to
    the lowest level of the table; a positive budget up to 24576 maps,
    whatever the table, to the smallest of low, medium and high whose
    budget is at least the input (1..1024 low, 1025..8192 medium,
    8193..24576 high); every budget above 24576 maps to the right-most
    level of the table. *)
Theorem budget_to_effort_by_thresholds (lowest : string) (higher : list string) (b : Z) :
  let levels := lowest :: higher in
  ((b = -1)%Z -> ThinkingBudgetToEffort levels b = Some "auto")
  /\ ((b < -1)%Z -> ThinkingBudgetToEffort levels b = None)
  /\ ((b = 0)%Z -> ThinkingBudgetToEffort levels b = Some lowest)
  /\ ((0 < b <= 24576)%Z ->
        ThinkingBudgetToEffort levels b
        = smallest_level_at_least ["low"; "medium"; "high"] b)
  /\ ((1 <= b <= 1024)%Z -> ThinkingBudgetToEffort levels b = Some "low")
  /\ ((1025 <= b <= 8192)%Z -> ThinkingBudgetToEffort levels b = Some "medium")
  /\ ((8193 <= b <= 24576)%Z -> ThinkingBudgetToEffort levels b = Some "high")
  /\ ((24576 < b)%Z -> ThinkingBudgetToEffort levels b = last levels).
Proof.
  intros levels. unfold ThinkingBudgetToEffort.
  assert (Some (List.last levels "xhigh") = last levels) as Hlast.
  { unfold levels. clear. revert lowest.
    induction higher as [|h t IH]; intros lowest; [done|].
    rewrite last_cons_cons. rewrite <- IH. done. }
  assert (forall n : Z, smallest_level_at_least ["low"; "medium"; "high"] n
            = if (n <=? 1024)%Z then Some "low"
              else if (n <=? 8192)%Z then Some "medium" else Some "high") as Hspec by done.
  rewrite Hspec.
  destruct (Z.eqb_spec b (-1)); [repeat split; intros; try lia; done|].
  destruct (Z.ltb_spec b (-1)); [repeat split; intros; try lia; done|].
  destruct (Z.eqb_spec b 0); [repeat split; intros; try lia; done|].
  destruct (Z.leb_spec b 1024); [repeat split; intros; try lia; done|].
  destruct (Z.leb_spec b 8192); [repeat split; intros; try lia; done|].
  destruct (Z.leb_spec b 24576); [repeat split; intros; try lia; done|].
  repeat split; intros; try lia; done.
Qed.

Lemma budget_to_effort_by_thresholds_witness :
  ThinkingBudgetToEffort gpt5_levels 64000 = Some "high"
  /\ ThinkingBudgetToEffort gpt5_levels 0 = Some "minimal"
  /\ ThinkingBudgetToEffort gpt5_levels 1 = Some "low".
Proof.
  pose proof (budget_to_effort_by_thresholds "minimal" ["low"; "medium"; "high"]) as H.
  split; [|split].
  - destruct (H 64000%Z) as (_ & _ & _ & _ & _ & _ & _ & Hmax).
    by apply Hmax.
  - by apply (H 0%Z).
  - apply (H 1%Z). lia.
Defined.

Lemma existsb_lower (levels : list string) (e : string) :
  existsb (fun l => String.eqb (ToLower l) e) levels = true
  <-> exists l, l ∈ levels /\ ToLower l = e.
Proof.
  rewrite existsb_exists. split; intros (l & Hl & He); exists l.
  - split; [by apply list_elem_of_In|by apply String.eqb_eq].
  - split; [by apply list_elem_of_In|by apply String.eqb_eq].
Qed.

Lemma ToLower_TrimSpace_nonempty (e : string) :
  ToLower (TrimSpace e) = e -> e <> "" -> TrimSpace e <> "".
Proof. intros He Hne Ht. rewrite Ht in He. simpl in He. congruence. Qed.

(** On the names the tests use (lower case, no blanks around them) the
    projection is what the test expects for the target "openai", for a
    compatible upstream without descriptor and for a strict one. *)
Lemma projectEffort_meets_expect_openai
    (allowCompat : bool) (descriptor : option ThinkingSupport) (e : string) :
  ToLower (TrimSpace e) = e -> e <> "" ->
  (allowCompat = true -> ModelSupportsThinking descriptor = false) ->
  observed (projectEffort allowCompat descriptor e)
  = expect_openai allowCompat descriptor (Some e) None.
Proof.
  intros He Hne Hcompat. pose proof (ToLower_TrimSpace_nonempty e He Hne) as Ht.
  apply String.eqb_neq in Ht.
  unfold projectEffort, expect_openai.
  destruct (ModelSupportsThinking descriptor) eqn:Hs; simpl.
  - destruct allowCompat; [by specialize (Hcompat eq_refl)|]. simpl.
    destruct (ModelUsesThinkingLevels descriptor); simpl; [|done].
    rewrite Ht. simpl. rewrite ?Ht, He.
    destruct (NormalizeReasoningEffortLevel _ e); done.
  - destruct allowCompat; simpl; [|done]. rewrite Ht. simpl. by rewrite He.
Qed.

(** C3. With the compatibility flag and a target the catalog does not
    describe, an effort name is emitted as it was supplied, whatever it
    is. For a strict target with a level table, a name the table does
    not hold (compared in lower case, blanks around it dropped) is
    answered with thinking_invalid, and a name it holds is emitted in
    lower case. *)
Theorem effort_passthrough_or_validated (effort : string) (level : string) (levels : list string) :
  projectEffort true None effort = Emit effort
  /\ projectEffort true (Some ThinkingNone) effort = Emit effort
  /\ ((forall l, l ∈ level :: levels -> ToLower l <> ToLower (TrimSpace effort)) ->
      projectEffort false (Some (ThinkingLevels (level :: levels))) effort = thinking_invalid)
  /\ ((exists l, l ∈ level :: levels /\ ToLower l = ToLower (TrimSpace effort)) ->
      projectEffort false (Some (ThinkingLevels (level :: levels))) effort
      = Emit (ToLower (TrimSpace effort))).
Proof.
  split; [done|]. split; [done|].
  unfold projectEffort, NormalizeReasoningEffortLevel.
  cbn [ModelSupportsThinking ModelUsesThinkingLevels GetModelThinkingLevels negb].
  split.
  - intros Hnot.
    destruct (existsb _ (level :: levels)) eqn:E; [|done].
    apply existsb_lower in E as (l & Hl & He). by destruct (Hnot l Hl).
  - intros Hin. apply existsb_lower in Hin. by rewrite Hin.
Qed.

Lemma effort_passthrough_or_validated_witness :
  projectEffort false (Some (ThinkingLevels gpt5_levels)) "HIGH" = Emit "high"
  /\ projectEffort false (Some (ThinkingLevels gpt5_levels)) "xhigh" = thinking_invalid
  /\ projectEffort true None "Ultra" = Emit "Ultra".
Proof.
  split; [|split].
  - apply (effort_passthrough_or_validated "HIGH" "minimal" ["low"; "medium"; "high"]).
    exists "high". split; [|reflexivity]. set_solver.
  - apply (effort_passthrough_or_validated "xhigh" "minimal" ["low"; "medium"; "high"]).
    intros l Hl. repeat (apply elem_of_cons in Hl as [->|Hl]; [discriminate|]).
    by apply elem_of_nil in Hl.
  - apply (effort_passthrough_or_validated "Ultra" "minimal" []).
Defined.

End ThinkingProofs.

(** ** Gemini 3 thinking levels *)

Module Gemini3Proofs.
Import GoStrings Json Gemini3 AmpProofs.

(** Every row of the tests on Gemini 3 holds of the model. *)
Lemma IsGemini3Model_test_rows :
  Forall (fun row =>
            IsGemini3Model row.1.1.1 = row.1.1.2
            /\ IsGemini3ProModel row.1.1.1 = row.1.2
            /\ IsGemini3FlashModel row.1.1.1 = row.2)
         TestIsGemini3Model_cases.
Proof. repeat constructor. Qed.

Lemma ValidateGemini3ThinkingLevel_test_rows :
  Forall (fun row => ValidateGemini3ThinkingLevel row.1.1 row.1.2 = row.2)
         TestValidateGemini3ThinkingLevel_cases.
Proof. repeat constructor. Qed.

Lemma ThinkingBudgetToGemini3Level_test_rows :
  Forall (fun row => ThinkingBudgetToGemini3Level scale_thresholds row.1.1 row.1.2 = row.2)
         TestThinkingBudgetToGemini3Level_cases.
Proof. repeat constructor. Qed.

Lemma NormalizeGeminiThinkingBudget_test_rows (clamp : string -> Z -> Z) :
  NormalizeGeminiThinkingBudget scale_thresholds clamp "gemini-3-flash-preview" (budget_body 8000%Z)
    = JObject [("generationConfig",
                JObject [("thinkingConfig", JObject [("thinkingLevel", JString "medium")])])]
  /\ NormalizeGeminiThinkingBudget scale_thresholds clamp "gemini-3-pro-preview" (budget_body 20000%Z)
    = JObject [("generationConfig",
                JObject [("thinkingConfig", JObject [("thinkingLevel", JString "high")])])]
  /\ NormalizeGeminiThinkingBudget scale_thresholds clamp "gemini-2.5-pro" (budget_body 8000%Z)
    = budget_body (clamp "gemini-2.5-pro" 8000%Z).
Proof. repeat split. Qed.

Lemma inb_elem_of (x : string) (l : list string) : inb x l = true <-> x ∈ l.
Proof.
  unfold inb. rewrite existsb_exists. split.
  - intros (y & Hy & He). apply String.eqb_eq in He as ->. by apply list_elem_of_In.
  - intros Hx. exists x. split; [by apply list_elem_of_In|apply String.eqb_refl].
Qed.

Lemma lookup_remove_member_eq (k : string) (ms : list (string * json)) :
  lookup_member k (remove_member k ms) = None.
Proof.
  induction ms as [|[k' v] ms IH]; simpl; [done|].
  destruct (String.eqb k' k) eqn:E; [done|]. simpl. by rewrite E.
Qed.

Lemma lookup_remove_member_ne (k k' : string) (ms : list (string * json)) :
  k <> k' -> lookup_member k' (remove_member k ms) = lookup_member k' ms.
Proof.
  intros Hne. induction ms as [|[k0 v] ms IH]; simpl; [done|].
  destruct (String.eqb_spec k0 k) as [->|Hk].
  - destruct (String.eqb_spec k k'); [done|done].
  - simpl. by rewrite IH.
Qed.

Lemma Get_app (pre rest : list string) (d : json) :
  Get (pre ++ rest) d = match Get pre d with Some v => Get rest v | None => None end.
Proof.
  revert d. induction pre as [|k pre IH]; intros d; simpl; [done|].
  destruct d as [| | | | |ms]; try done.
  destruct (lookup_member k ms); [apply IH|done].
Qed.

Lemma Get_parent (pre : list string) (k : string) (d v : json) :
  Get (pre ++ [k]) d = Some v -> exists ms, Get pre d = Some (JObject ms).
Proof.
  rewrite Get_app. destruct (Get pre d) as [[| | | | |ms]|]; try done. eauto.
Qed.

Lemma Get_create_other (pre : list string) (k k' : string) (x : json) :
  k <> k' -> Get (pre ++ [k]) (create (pre ++ [k']) x) = None.
Proof.
  intros Hne. induction pre as [|k0 pre IH]; simpl.
  - destruct (String.eqb_spec k' k); [congruence|done].
  - by rewrite String.eqb_refl.
Qed.

Lemma Get_create (path : list string) (x : json) : Get path (create path x) = Some x.
Proof. induction path as [|k path IH]; simpl; [done|]. by rewrite String.eqb_refl. Qed.

Lemma Get_Delete_same (pre : list string) (k : string) (d : json) :
  Get (pre ++ [k]) (Delete (pre ++ [k]) d) = None.
Proof.
  revert d. induction pre as [|k0 pre IH]; intros d.
  - destruct d as [| | | | |ms]; try done. simpl. by rewrite lookup_remove_member_eq.
  - destruct d as [| | | | |ms]; try done.
    change ((k0 :: pre) ++ [k]) with (k0 :: (pre ++ [k])).
    cbn [Delete]. destruct (pre ++ [k]) as [|k1 rest] eqn:E; [by destruct pre|].
    destruct (lookup_member k0 ms) as [v0|] eqn:E0.
    + cbn [Get]. rewrite lookup_update_member_eq. apply IH.
    + cbn [Get]. by rewrite E0.
Qed.

Lemma Get_Delete_sibling (pre : list string) (k k' : string) (d : json) :
  k <> k' -> Get (pre ++ [k']) (Delete (pre ++ [k]) d) = Get (pre ++ [k']) d.
Proof.
  intros Hne. revert d. induction pre as [|k0 pre IH]; intros d.
  - destruct d as [| | | | |ms]; try done. simpl. by rewrite lookup_remove_member_ne.
  - destruct d as [| | | | |ms]; try done.
    change ((k0 :: pre) ++ [k]) with (k0 :: (pre ++ [k])).
    change ((k0 :: pre) ++ [k']) with (k0 :: (pre ++ [k'])).
    cbn [Delete]. destruct (pre ++ [k]) as [|k1 rest] eqn:E; [by destruct pre|].
    destruct (lookup_member k0 ms) as [v0|] eqn:E0; [|done].
    cbn [Get]. rewrite lookup_update_member_eq, E0. apply IH.
Qed.

Lemma Get_Delete_parent (pre : list string) (k : string) (d : json) (ms : list (string * json)) :
  Get pre d = Some (JObject ms) ->
  exists ms', Get pre (Delete (pre ++ [k]) d) = Some (JObject ms').
Proof.
  revert d. induction pre as [|k0 pre IH]; intros d.
  - simpl. intros [= ->]. eauto.
  - destruct d as [| | | | |ms0]; try done.
    change ((k0 :: pre) ++ [k]) with (k0 :: (pre ++ [k])).
    cbn [Delete Get]. destruct (pre ++ [k]) as [|k1 rest] eqn:E; [by destruct pre|].
    destruct (lookup_member k0 ms0) as [v0|] eqn:E0; [|done].
    intros Hget. cbn [Get]. rewrite lookup_update_member_eq. by apply IH.
Qed.

Lemma Get_Set_child (pre : list string) (k : string) (x d : json) (ms : list (string * json)) :
  Get pre d = Some (JObject ms) ->
  Get (pre ++ [k]) (Set_ (pre ++ [k]) x d) = Some x.
Proof.
  revert d. induction pre as [|k0 pre IH]; intros d.
  - simpl. intros [= ->]. rewrite lookup_update_member_eq.
    by destruct (lookup_member k ms).
  - destruct d as [| | | | |ms0]; try done.
    change ((k0 :: pre) ++ [k]) with (k0 :: (pre ++ [k])).
    cbn [Set_ Get]. destruct (lookup_member k0 ms0) as [v0|] eqn:E0; [|done].
    intros Hget. rewrite lookup_update_member_eq, E0. by apply IH.
Qed.

Lemma Get_Set_sibling (pre : list string) (k k' : string) (x d : json) :
  k <> k' -> Get (pre ++ [k]) (Set_ (pre ++ [k']) x d) = Get (pre ++ [k]) d.
Proof.
  intros Hne. revert d. induction pre as [|k0 pre IH]; intros d.
  - destruct d as [| | | | |ms]; try done. simpl.
    by rewrite lookup_update_member_ne.
  - destruct d as [| | | | |ms0]; try done.
    change ((k0 :: pre) ++ [k]) with (k0 :: (pre ++ [k])).
    change ((k0 :: pre) ++ [k']) with (k0 :: (pre ++ [k'])).
    cbn [Set_ Get]. rewrite lookup_update_member_eq.
    destruct (lookup_member k0 ms0) as [v0|] eqn:E0; [apply IH|].
    by apply Get_create_other.
Qed.

(** The path of the thinking configuration, under which the budget and
    the level are members. *)
Lemma thinking_paths :
  thinkingBudgetPath = ["generationConfig"; "thinkingConfig"] ++ ["thinkingBudget"]
  /\ thinkingLevelPath = ["generationConfig"; "thinkingConfig"] ++ ["thinkingLevel"].
Proof. split; reflexivity. Qed.

(** The budget replaced by a level: the level is there, the budget is
    gone. *)
Lemma budget_replaced_by_level (body : json) (v : json) (level : string) :
  Get thinkingBudgetPath body = Some v ->
  let out := Set_ thinkingLevelPath (JString level) (Delete thinkingBudgetPath body) in
  Get thinkingLevelPath out = Some (JString level)
  /\ Get thinkingBudgetPath out = None.
Proof.
  destruct thinking_paths as [-> ->]. intros Hget. cbv zeta.
  apply Get_parent in Hget as [ms Hms].
  destruct (Get_Delete_parent _ "thinkingBudget" _ _ Hms) as [ms' Hms'].
  split.
  - by apply (Get_Set_child _ _ _ _ ms').
  - rewrite Get_Set_sibling by done. apply Get_Delete_same.
Qed.

(** The budget kept, with another number. *)
Lemma budget_kept (body : json) (v : json) (n : Z) :
  Get thinkingBudgetPath body = Some v ->
  let out := Set_ thinkingBudgetPath (JNumber n) body in
  Get thinkingBudgetPath out = Some (JNumber n)
  /\ Get thinkingLevelPath out = Get thinkingLevelPath body.
Proof.
  intros Hget. cbv zeta. split.
  - apply Get_Set_same. unfold Exists. by rewrite Hget.
  - destruct thinking_paths as [-> ->]. by apply Get_Set_sibling.
Qed.

(** C4. For a Gemini 3 Pro model the accepted levels are low and high,
    for a Gemini 3 Flash model minimal, low, medium and high (compared
    in lower case), and every numeric budget is mapped to one of the
    accepted levels, whatever the thresholds. A body of a Gemini 3 model
    that carries a numeric thinkingBudget comes out with that level in
    thinkingLevel and without thinkingBudget; the body of any other
    model keeps a numeric thinkingBudget and gains no thinkingLevel. *)
Theorem gemini3_thinking_is_a_level
    (th : Thresholds) (clamp : string -> Z -> Z)
    (model level : string) (budget : Z) (body : json) :
  (IsGemini3Model model = true -> IsGemini3ProModel model = true ->
     (forall l, ValidateGemini3ThinkingLevel model level = Some l
                <-> l = ToLower level /\ l ∈ Gemini3ProThinkingLevels)
     /\ exists l, ThinkingBudgetToGemini3Level th model budget = Some l
                  /\ l ∈ Gemini3ProThinkingLevels)
  /\ (IsGemini3Model model = true -> IsGemini3ProModel model = false ->
      IsGemini3FlashModel model = true ->
     (forall l, ValidateGemini3ThinkingLevel model level = Some l
                <-> l = ToLower level /\ l ∈ Gemini3FlashThinkingLevels)
     /\ exists l, ThinkingBudgetToGemini3Level th model budget = Some l
                  /\ l ∈ Gemini3FlashThinkingLevels)
  /\ (IsGemini3Model model = true ->
      Get thinkingBudgetPath body = Some (JNumber budget) ->
      exists l, ThinkingBudgetToGemini3Level th model budget = Some l
        /\ Get thinkingLevelPath (NormalizeGeminiThinkingBudget th clamp model body)
           = Some (JString l)
        /\ Get thinkingBudgetPath (NormalizeGeminiThinkingBudget th clamp model body) = None)
  /\ (IsGemini3Model model = false ->
      Get thinkingBudgetPath body = Some (JNumber budget) ->
      ValidateGemini3ThinkingLevel model level = None
      /\ ThinkingBudgetToGemini3Level th model budget = None
      /\ Get thinkingBudgetPath (NormalizeGeminiThinkingBudget th clamp model body)
         = Some (JNumber (clamp model budget))
      /\ Get thinkingLevelPath (NormalizeGeminiThinkingBudget th clamp model body)
         = Get thinkingLevelPath body).
Proof.
  unfold ValidateGemini3ThinkingLevel, ThinkingBudgetToGemini3Level,
    NormalizeGeminiThinkingBudget.
  split; [|split; [|split]].
  - intros -> ->. cbn [negb]. split.
    + intros l. destruct (inb (ToLower level) Gemini3ProThinkingLevels) eqn:E.
      * apply inb_elem_of in E. split.
        -- intros [= Hl]. by subst l.
        -- intros [Hl _]. by subst l.
      * split; [done|]. intros [-> Hl]. apply inb_elem_of in Hl. congruence.
    + destruct (budget =? -1)%Z; [exists "high"; split; [done|set_solver]|].
      destruct (budget <=? proLowMax th)%Z;
        [exists "low"|exists "high"]; (split; [done|set_solver]).
  - intros -> -> ->. cbn [negb]. split.
    + intros l. destruct (inb (ToLower level) Gemini3FlashThinkingLevels) eqn:E.
      * apply inb_elem_of in E. split.
        -- intros [= Hl]. by subst l.
        -- intros [Hl _]. by subst l.
      * split; [done|]. intros [-> Hl]. apply inb_elem_of in Hl. congruence.
    + destruct (budget =? -1)%Z; [exists "high"; split; [done|set_solver]|].
      destruct (budget <=? flashMinimalMax th)%Z;
        [exists "minimal"; split; [done|set_solver]|].
      destruct (budget <=? flashLowMax th)%Z;
        [exists "low"; split; [done|set_solver]|].
      destruct (budget <=? flashMediumMax th)%Z;
        [exists "medium"|exists "high"]; (split; [done|set_solver]).
  - intros Hg Hget. rewrite Hget. unfold ThinkingBudgetToGemini3Level. rewrite Hg. simpl.
    assert (exists l,
      (if (budget =? -1)%Z then Some "high"
       else if IsGemini3ProModel model
            then if (budget <=? proLowMax th)%Z then Some "low" else Some "high"
            else if (budget <=? flashMinimalMax th)%Z then Some "minimal"
                 else if (budget <=? flashLowMax th)%Z then Some "low"
                      else if (budget <=? flashMediumMax th)%Z then Some "medium"
                           else Some "high") = Some l) as [l Hl].
    { repeat case_match; eauto. }
    rewrite Hl. exists l. split; [done|].
    by apply (budget_replaced_by_level body (JNumber budget) l).
  - intros Hg Hget. rewrite Hget. unfold ThinkingBudgetToGemini3Level. rewrite Hg. simpl.
    split; [done|]. split; [done|].
    by apply (budget_kept body (JNumber budget)).
Qed.

Lemma gemini3_thinking_is_a_level_witness :
  Get thinkingLevelPath
      (NormalizeGeminiThinkingBudget scale_thresholds (fun _ b => b)
         "gemini-3-flash-preview" (budget_body 8000%Z))
  = Some (JString "medium")
  /\ Get thinkingBudgetPath
      (NormalizeGeminiThinkingBudget scale_thresholds (fun _ b => b)
         "gemini-2.5-pro" (budget_body 8000%Z))
  = Some (JNumber 8000%Z).
Proof.
  split.
  - destruct (gemini3_thinking_is_a_level scale_thresholds (fun _ b => b)
                "gemini-3-flash-preview" "medium" 8000%Z (budget_body 8000%Z))
      as (_ & _ & H & _).
    destruct (H eq_refl eq_refl) as (l & Hl & Hlevel & _).
    rewrite Hlevel. vm_compute in Hl. by injection Hl as <-.
  - destruct (gemini3_thinking_is_a_level scale_thresholds (fun _ b => b)
                "gemini-2.5-pro" "medium" 8000%Z (budget_body 8000%Z))
      as (_ & _ & _ & H).
    by destruct (H eq_refl eq_refl) as (_ & _ & Hb & _).
Defined.

End Gemini3Proofs.

(** ** Migration of legacy configuration fields *)

Module MigrationProofs.
Import Migration.

Lemma elem_of_append_unique (acc more : list string) (k : string) :
  k ∈ append_unique acc more <-> k ∈ acc \/ k ∈ more.
Proof.
  revert acc. induction more as [|m more IH]; intros acc; simpl.
  - set_solver.
  - case_bool_decide as Hm; rewrite IH; set_solver.
Qed.

Lemma NoDup_append_unique (acc more : list string) :
  NoDup acc -> NoDup (append_unique acc more).
Proof.
  revert acc. induction more as [|m more IH]; intros acc Hacc; simpl; [done|].
  case_bool_decide as Hm; apply IH; [done|].
  apply NoDup_app. split; [done|]. split; [|apply NoDup_singleton].
  intros x Hx Hx'. apply list_elem_of_singleton in Hx'. by subst.
Qed.

Lemma append_unique_NoDup_id (acc more : list string) :
  NoDup (acc ++ more) -> append_unique acc more = acc ++ more.
Proof.
  revert acc. induction more as [|m more IH]; intros acc Hnd; simpl.
  - by rewrite app_nil_r.
  - apply NoDup_app in Hnd as Hnd'. destruct Hnd' as (_ & Hdisj & _).
    rewrite bool_decide_eq_false_2.
    2:{ intros Hm. apply (Hdisj m Hm). by left. }
    rewrite IH; [by rewrite <- app_assoc|]. by rewrite <- app_assoc.
Qed.

Lemma elem_of_merge_keys (entries : list string) (legacy : option (list string)) (k : string) :
  k ∈ merge_keys entries legacy <-> k ∈ entries \/ k ∈ default [] legacy.
Proof.
  unfold merge_keys. rewrite !elem_of_append_unique.
  split; [intros [[H|?]|?]; auto; by apply elem_of_nil in H|].
  intros [?|?]; auto.
Qed.

Lemma NoDup_merge_keys (entries : list string) (legacy : option (list string)) :
  NoDup (merge_keys entries legacy).
Proof. unfold merge_keys. apply NoDup_append_unique, NoDup_append_unique, NoDup_nil_2. Qed.

Lemma merge_keys_settled (ks : list string) : NoDup ks -> merge_keys ks None = ks.
Proof. intros Hnd. unfold merge_keys. simpl. by apply (append_unique_NoDup_id []). Qed.

(** What the test asserts of the four files holds of the model. *)
Lemma TestLegacyConfigMigration_rows :
  GeminiKey (migrate onlyLegacyFields) = ["legacy-gemini-1"]
  /\ map APIKeyEntries (OpenAICompatibility (migrate onlyLegacyFields)) = [["legacy-openai-1"]]
  /\ AmpCode (migrate onlyLegacyFields)
     = {| UpstreamURL := "https://amp.example.com"; UpstreamAPIKey := "amp-legacy-key";
          RestrictManagementToLocalhost := false;
          ModelMappings := [("old-model", "new-model")] |}
  /\ length (GeminiKey (migrate mixedLegacyAndNewFields)) = 2
  /\ map (fun c => length (APIKeyEntries c)) (OpenAICompatibility (migrate mixedLegacyAndNewFields))
     = [2]
  /\ GeminiKey (migrate onlyNewFields) = ["new-only"]
  /\ map APIKeyEntries (OpenAICompatibility (migrate onlyNewFields)) = [["new-only-entry"]]
  /\ map (fun c => (BaseURL c, APIKeyEntries c))
         (OpenAICompatibility (migrate duplicateNamesDifferentBase))
     = [("https://provider-a", ["key-a"]); ("https://provider-b", ["key-b"])].
Proof. repeat split. Qed.

Lemma has_legacy_rewritten (cfg : Config) : has_legacy (rewritten cfg) = false.
Proof.
  unfold has_legacy, rewritten. simpl.
  assert (existsb (fun c => bool_decide (is_Some (file_api_keys c)))
            (map (fun c => {| file_name := Name c; file_base_url := BaseURL c;
                              file_api_key_entries := APIKeyEntries c;
                              file_api_keys := None |}) (OpenAICompatibility cfg)) = false) as ->.
  { induction (OpenAICompatibility cfg) as [|c cs IH]; simpl; [done|]. by rewrite IH. }
  reflexivity.
Qed.

Lemma migrate_compat_settled (cs : list OpenAICompatibility_) :
  Forall (fun c => NoDup (APIKeyEntries c)) cs ->
  map migrate_compat
    (map (fun c => {| file_name := Name c; file_base_url := BaseURL c;
                      file_api_key_entries := APIKeyEntries c;
                      file_api_keys := None |}) cs) = cs.
Proof.
  induction 1 as [|c cs Hc _ IH]; simpl; [done|]. rewrite IH. f_equal.
  unfold migrate_compat. simpl. rewrite merge_keys_settled by done. by destruct c.
Qed.

(** Loading the file that was written back gives the same Config. *)
Lemma migrate_rewritten (f : ConfigFile) : migrate (rewritten (migrate f)) = migrate f.
Proof.
  unfold migrate at 1. unfold rewritten. cbn [gemini_api_key generative_language_api_key
    openai_compatibility].
  rewrite merge_keys_settled by apply NoDup_merge_keys.
  rewrite migrate_compat_settled.
  2:{ cbn [OpenAICompatibility migrate]. apply Forall_forall. intros c Hc.
      apply list_elem_of_In, in_map_iff in Hc as (c0 & <- & _). apply NoDup_merge_keys. }
  unfold migrate_amp at 1. cbn [ampcode amp_upstream_url amp_upstream_api_key
    amp_restrict_management_to_localhost amp_model_mappings default].
  unfold migrate at 1 2. cbn [GeminiKey OpenAICompatibility AmpCode].
  f_equal.
Qed.

(** C8. Loading a file that can be read yields a Config whose
    [gemini-api-key] entries are the new-style and the legacy
    [generative-language-api-key] keys, each once; whose
    openai-compatibility providers hold, each once, the keys of their
    [api-key-entries] and of their legacy nested [api-keys]; and whose
    [ampcode] block holds every legacy amp value the file gives. The
    file on disk afterwards uses no legacy field name and loads to the
    same Config. When the file used a legacy name, the file written in
    its place holds the migrated values under the new names: the
    [gemini-api-key] entries of the Config, one openai-compatibility
    entry per provider of the Config with its name, base URL and
    [api-key-entries], and the [ampcode] block of the Config. A file
    without legacy names leaves the disk as it was, and no other file is
    ever touched. *)
Theorem legacy_fields_migrated_on_load
    (disk : gmap string ConfigFile) (path : string) (f : ConfigFile) :
  disk !! path = Some f ->
  exists cfg disk',
    LoadConfig disk path = Some (cfg, disk')
    /\ (forall k, k ∈ GeminiKey cfg
                  <-> k ∈ gemini_api_key f \/ k ∈ default [] (generative_language_api_key f))
    /\ NoDup (GeminiKey cfg)
    /\ Forall2 compat_carried (openai_compatibility f) (OpenAICompatibility cfg)
    /\ (forall u, amp_upstream_url f = Some u -> UpstreamURL (AmpCode cfg) = u)
    /\ (forall r, amp_restrict_management_to_localhost f = Some r ->
                  RestrictManagementToLocalhost (AmpCode cfg) = r)
    /\ (exists f', disk' !! path = Some f' /\ has_legacy f' = false
                   /\ migrate f' = cfg
                   /\ (has_legacy f = true ->
                         gemini_api_key f' = GeminiKey cfg
                         /\ Forall2 (fun c' c => file_name c' = Name c
                                                 /\ file_base_url c' = BaseURL c
                                                 /\ file_api_key_entries c' = APIKeyEntries c)
                              (openai_compatibility f') (OpenAICompatibility cfg)
                         /\ ampcode f' = Some (AmpCode cfg)))
    /\ (has_legacy f = false -> disk' = disk)
    /\ (forall other, other <> path -> disk' !! other = disk !! other).
Proof.
  intros Hf. unfold LoadConfig. rewrite Hf. eexists _, _. split; [reflexivity|].
  split; [apply elem_of_merge_keys|]. split; [apply NoDup_merge_keys|].
  split.
  { simpl. induction (openai_compatibility f) as [|c cs IH]; simpl; constructor; [|done].
    unfold compat_carried, migrate_compat. simpl.
    repeat split; try apply elem_of_merge_keys; apply NoDup_merge_keys. }
  split; [by intros u Hu; simpl; rewrite Hu|].
  split; [by intros r Hr; simpl; rewrite Hr|].
  destruct (has_legacy f) eqn:Hl.
  - split; [|split; [done|]].
    + exists (rewritten (migrate f)). rewrite lookup_insert_eq. split; [done|].
      split; [apply has_legacy_rewritten|]. split; [apply migrate_rewritten|].
      intros _. split; [done|]. split; [|done].
      cbn [rewritten openai_compatibility].
      induction (OpenAICompatibility (migrate f)) as [|c cs IH]; simpl; constructor; done.
    + intros other Hne. by rewrite lookup_insert_ne.
  - split; [|done]. exists f. repeat split; done.
Qed.

Lemma legacy_fields_migrated_on_load_witness :
  exists cfg disk',
    LoadConfig {[ "config.yaml" := mixedLegacyAndNewFields ]} "config.yaml" = Some (cfg, disk')
    /\ GeminiKey cfg = ["new-gemini"; "legacy-gemini-only"]
    /\ disk' !! "config.yaml"
       = Some {| gemini_api_key := ["new-gemini"; "legacy-gemini-only"];
                 generative_language_api_key := None;
                 openai_compatibility :=
                   [ {| file_name := "mixed-provider";
                        file_base_url := "https://mixed.example.com";
                        file_api_key_entries := ["new-entry"; "legacy-entry"];
                        file_api_keys := None |} ];
                 ampcode := Some empty_ampcode;
                 amp_upstream_url := None;
                 amp_upstream_api_key := None;
                 amp_restrict_management_to_localhost := None;
                 amp_model_mappings := None |}.
Proof.
  destruct (legacy_fields_migrated_on_load
              {[ "config.yaml" := mixedLegacyAndNewFields ]} "config.yaml"
              mixedLegacyAndNewFields (lookup_singleton_eq _ _))
    as (cfg & disk' & Hload & _).
  exists cfg, disk'. split; [done|].
  vm_compute in Hload. injection Hload as <- <-. split; reflexivity.
Defined.

End MigrationProofs.

(** ** Comparing key lists as multisets *)

Module StringSetProofs.
Import Access.

Lemma cnt_count_up (m : gmap string nat) (v x : string) :
  cnt (count_up m v) x = cnt m x + one_if x v.
Proof.
  unfold cnt, count_up, one_if. destruct (decide (x = v)) as [->|Hne].
  - rewrite lookup_insert_eq. simpl. lia.
  - rewrite lookup_insert_ne by done. lia.
Qed.

Lemma positive_count_up (m : gmap string nat) (v : string) :
  positive m -> positive (count_up m v).
Proof.
  intros Hp k n. unfold count_up. destruct (decide (v = k)) as [->|Hne].
  - rewrite lookup_insert_eq. intros [= <-]. lia.
  - rewrite lookup_insert_ne by done. apply Hp.
Qed.

Lemma count_occ_cons_one_if (l : list string) (v x : string) :
  count_occ string_dec (v :: l) x = one_if x v + count_occ string_dec l x.
Proof.
  simpl. unfold one_if. destruct (string_dec v x) as [->|Hne].
  - rewrite decide_True by done. lia.
  - rewrite decide_False by congruence. lia.
Qed.

Lemma fold_count_up (l : list string) (m : gmap string nat) :
  positive m ->
  positive (foldl count_up m l)
  /\ forall x, cnt (foldl count_up m l) x = cnt m x + count_occ string_dec l x.
Proof.
  revert m. induction l as [|v l IH]; intros m Hp.
  - split; [done|]. intros x. simpl. lia.
  - destruct (IH (count_up m v) (positive_count_up m v Hp)) as [Hp' Hc].
    split; [done|]. intros x. cbn [foldl]. rewrite Hc, cnt_count_up, count_occ_cons_one_if. lia.
Qed.

Lemma count_down_None (m : gmap string nat) (v : string) :
  count_down (Some m) v = None <-> cnt m v = 0.
Proof.
  unfold count_down. fold (cnt m v). destruct (cnt m v) as [|[|n]]; simpl; split; done.
Qed.

Lemma count_down_Some (m m' : gmap string nat) (v : string) :
  positive m -> count_down (Some m) v = Some m' ->
  positive m' /\ forall x, cnt m x = cnt m' x + one_if x v.
Proof.
  intros Hp. unfold count_down. fold (cnt m v).
  destruct (cnt m v) as [|[|n]] eqn:Ec; simpl; [done| |]; intros [= <-].
  - split.
    + intros k n. destruct (decide (v = k)) as [->|Hne].
      * by rewrite lookup_delete_eq.
      * rewrite lookup_delete_ne by done. apply Hp.
    + intros x. unfold cnt, one_if in *. destruct (decide (x = v)) as [->|Hne].
      * rewrite lookup_delete_eq. simpl. lia.
      * rewrite lookup_delete_ne by done. lia.
  - split.
    + intros k n'. destruct (decide (v = k)) as [->|Hne].
      * rewrite lookup_insert_eq. intros [= <-]. lia.
      * rewrite lookup_insert_ne by done. apply Hp.
    + intros x. unfold cnt, one_if in *. destruct (decide (x = v)) as [->|Hne].
      * rewrite lookup_insert_eq. simpl. lia.
      * rewrite lookup_insert_ne by done. lia.
Qed.

Lemma fold_count_down_stuck (b : list string) : foldl count_down None b = None.
Proof. induction b; simpl; done. Qed.

Lemma fold_count_down_Some (b : list string) (m m' : gmap string nat) :
  positive m -> foldl count_down (Some m) b = Some m' ->
  positive m' /\ forall x, cnt m x = cnt m' x + count_occ string_dec b x.
Proof.
  revert m. induction b as [|v b IH]; intros m Hp.
  - intros [= <-]. split; [done|]. intros x. simpl. lia.
  - cbn [foldl]. destruct (count_down (Some m) v) as [m1|] eqn:E1.
    2:{ by rewrite fold_count_down_stuck. }
    destruct (count_down_Some m m1 v Hp E1) as [Hp1 Hc1].
    intros Hf. destruct (IH m1 Hp1 Hf) as [Hp' Hc'].
    split; [done|]. intros x. rewrite Hc1, Hc', count_occ_cons_one_if. lia.
Qed.

Lemma fold_count_down_enough (b : list string) (m : gmap string nat) :
  positive m -> (forall x, count_occ string_dec b x <= cnt m x) ->
  exists m', foldl count_down (Some m) b = Some m'.
Proof.
  revert m. induction b as [|v b IH]; intros m Hp Hle; [by exists m|].
  cbn [foldl]. destruct (count_down (Some m) v) as [m1|] eqn:E1.
  - destruct (count_down_Some m m1 v Hp E1) as [Hp1 Hc1]. apply IH; [done|].
    intros x. specialize (Hle x). rewrite count_occ_cons_one_if, Hc1 in Hle. lia.
  - apply count_down_None in E1. specialize (Hle v).
    rewrite count_occ_cons_one_if in Hle. unfold one_if in Hle.
    rewrite decide_True in Hle by done. lia.
Qed.

Lemma positive_empty_iff (m : gmap string nat) :
  positive m -> (size m = 0 <-> forall x, cnt m x = 0).
Proof.
  intros Hp. rewrite map_size_empty_iff, map_empty. unfold cnt. split.
  - intros Hm x. by rewrite Hm.
  - intros Hc i. destruct (m !! i) as [v|] eqn:E; [|done].
    pose proof (Hp i v E). specialize (Hc i). rewrite E in Hc. simpl in Hc. lia.
Qed.

Lemma positive_empty_map : positive ∅.
Proof. intros k v. by rewrite lookup_empty. Qed.

(** [stringSetEqual] compares its arguments as multisets: it answers
    true exactly for two lists that are permutations of each other. *)
Lemma stringSetEqual_Permutation (a b : list string) :
  stringSetEqual a b = true <-> a ≡ₚ b.
Proof.
  unfold stringSetEqual.
  destruct (fold_count_up a ∅ positive_empty_map) as [Hpa Hca].
  assert (forall x, cnt (foldl count_up ∅ a) x = count_occ string_dec a x) as Hca'.
  { intros x. rewrite Hca. unfold cnt. by rewrite lookup_empty. }
  destruct (Nat.eqb_spec (length a) (length b)) as [Hlen|Hlen]; simpl.
  2:{ split; [done|]. intros Hperm. by apply Permutation_length in Hperm. }
  destruct (Nat.eqb_spec (length a) 0) as [Ha|Ha].
  { split; [|done]. intros _. rewrite Ha in Hlen.
    apply length_zero_iff_nil in Ha. symmetry in Hlen. apply length_zero_iff_nil in Hlen.
    by subst. }
  split.
  - destruct (foldl count_down _ b) as [seen|] eqn:Ef; [|done].
    intros Hs. apply Nat.eqb_eq in Hs.
    destruct (fold_count_down_Some b _ seen Hpa Ef) as [Hps Hcs].
    pose proof (proj1 (positive_empty_iff seen Hps) Hs) as Hz.
    apply (Permutation_count_occ string_dec). intros x.
    rewrite <- Hca', Hcs, Hz. done.
  - intros Hperm.
    assert (forall x, count_occ string_dec a x = count_occ string_dec b x) as Hcount
      by by apply (Permutation_count_occ string_dec).
    destruct (fold_count_down_enough b (foldl count_up ∅ a) Hpa) as [seen Ef].
    { intros x. rewrite Hca', Hcount. done. }
    rewrite Ef. apply Nat.eqb_eq.
    destruct (fold_count_down_Some b _ seen Hpa Ef) as [Hps Hcs].
    apply (positive_empty_iff seen Hps). intros x.
    specialize (Hcs x). rewrite Hca', Hcount in Hcs. lia.
Qed.

Lemma providerConfigEqual_spec {any : Type} `{EqDecision any} (a b : @AccessProvider any) :
  providerConfigEqual (Some a) (Some b) = true
  <-> GoStrings.EqualFold (GoStrings.TrimSpace (Typ a)) (GoStrings.TrimSpace (Typ b)) = true
      /\ GoStrings.TrimSpace (SDK a) = GoStrings.TrimSpace (SDK b)
      /\ APIKeys a ≡ₚ APIKeys b
      /\ Config a = Config b.
Proof.
  unfold providerConfigEqual.
  destruct (GoStrings.EqualFold _ _); simpl; [|split; [done|]; by intros [? _]].
  destruct (String.eqb_spec (GoStrings.TrimSpace (SDK a)) (GoStrings.TrimSpace (SDK b)))
    as [Hsdk|Hsdk]; simpl; [|split; [done|]; by intros (_ & ? & _)].
  destruct (stringSetEqual (APIKeys a) (APIKeys b)) eqn:Ek; simpl.
  2:{ split; [done|]. intros (_ & _ & Hp & _). apply stringSetEqual_Permutation in Hp.
      congruence. }
  apply stringSetEqual_Permutation in Ek.
  destruct (Nat.eqb_spec (size (Config a)) (size (Config b))) as [Hsz|Hsz]; simpl.
  2:{ split; [done|]. intros (_ & _ & _ & Hc). by rewrite Hc in Hsz. }
  destruct (Nat.ltb_spec 0 (size (Config a))) as [Hpos|Hzero]; simpl.
  - case_bool_decide as Hc; simpl; [done|]. split; [done|]. by intros (_ & _ & _ & ?).
  - split; [|done]. intros _. repeat split; try done.
    assert (size (Config a) = 0) as Ha by lia.
    rewrite Ha in Hsz. symmetry in Hsz.
    apply map_size_empty_iff in Ha, Hsz. congruence.
Qed.

End StringSetProofs.

(** ** Reconciling access providers *)

Module AccessProofs.
Import GoStrings Access.

Section ReconcileFacts.

Context {any : Type} `{EqDecision any}.
Variable DefaultAccessProviderName : string.
Variable AccessProviderTypeConfigAPIKey : string.
Variable MakeInlineAPIKeyProvider : list string -> option (@AccessProvider any).
Variable registry : gmap string (@AccessProvider any -> @Config_ any -> option string).
Variable oldCfg : option (@Config_ any).
Variable newCfg : @Config_ any.
Variable existing : list (option Provider).

#[local] Abbreviation oldCfgMap :=
  (accessProviderMap DefaultAccessProviderName AccessProviderTypeConfigAPIKey
     MakeInlineAPIKeyProvider oldCfg).
#[local] Abbreviation existingMap := (existingMap_of existing).
#[local] Abbreviation key :=
  (entry_key DefaultAccessProviderName AccessProviderTypeConfigAPIKey).
#[local] Abbreviation reuse :=
  (reuse_condition DefaultAccessProviderName AccessProviderTypeConfigAPIKey
     oldCfgMap existingMap).
#[local] Abbreviation step :=
  (reconcile_step DefaultAccessProviderName AccessProviderTypeConfigAPIKey registry
     newCfg oldCfgMap existingMap).
#[local] Abbreviation loop :=
  (reconcile_loop DefaultAccessProviderName AccessProviderTypeConfigAPIKey registry
     newCfg oldCfgMap existingMap).
#[local] Abbreviation inline := (isInlineProvider DefaultAccessProviderName).
#[local] Abbreviation known := (known_before oldCfgMap existingMap).
#[local] Abbreviation rebuilt :=
  (rebuilt_under DefaultAccessProviderName AccessProviderTypeConfigAPIKey
     oldCfgMap existingMap).
#[local] Abbreviation put :=
  (placed DefaultAccessProviderName AccessProviderTypeConfigAPIKey registry
     oldCfgMap existingMap newCfg).
#[local] Abbreviation keyed := (filter (fun e => key e <> "")).

Lemma reusable_spec (e : Entry) (q : Provider) :
  reusable DefaultAccessProviderName AccessProviderTypeConfigAPIKey
    oldCfgMap existingMap e = Some q
  <-> reuse e q.
Proof.
  unfold reusable, reuse_condition, entry_key.
  destruct (oldCfgMap !! _) as [old|] eqn:E.
  2:{ split; [done|]. by intros (old' & Ho & _). }
  destruct (EqualFold _ AccessProviderTypeConfigAPIKey) eqn:Ef; cbn [negb andb].
  { split; [done|]. intros (old' & _ & Hf & _). congruence. }
  case_bool_decide as Hal; cbn [negb andb].
  { split; [done|]. intros (old' & [= <-] & _ & Hne & _). done. }
  destruct (providerConfigEqual (Some (val old)) (Some (val e))) eqn:Ec.
  - split.
    + intros Hq. exists old. repeat split; done.
    + by intros (old' & [= <-] & _ & _ & _ & Hq).
  - split; [done|]. intros (old' & [= <-] & _ & _ & Hc & _). congruence.
Qed.

Lemma reusable_None (e : Entry) :
  reusable DefaultAccessProviderName AccessProviderTypeConfigAPIKey
    oldCfgMap existingMap e = None
  <-> forall q, ~ reuse e q.
Proof.
  split.
  - intros Hn q Hq. apply reusable_spec in Hq. congruence.
  - intros Hno. destruct (reusable _ _ _ _ e) as [p|] eqn:E; [|done].
    exfalso. apply (Hno p). by apply reusable_spec.
Qed.

Lemma elem_of_appendChange (ids : list string) (k id : string) :
  id ∈ appendChange DefaultAccessProviderName ids k
  <-> id ∈ ids \/ (id = k /\ inline k = false).
Proof.
  unfold appendChange. destruct (isInlineProvider _ k).
  - split; [by intros ?; left|]. intros [?|[_ ?]]; done.
  - rewrite elem_of_app, list_elem_of_singleton. naive_solver.
Qed.

Lemma placed_mono (n n' : nat) (e : Entry) (p : Provider) :
  n' <= n -> put n e p -> put n' e p.
Proof.
  intros Hle [Hkeep Hbuild]. split; [done|].
  intros Hno. destruct (Hbuild Hno) as [Hn Hb]. split; [lia|done].
Qed.

Lemma reconcile_step_keyless (st : LoopState) (e : Entry) :
  key e = "" -> step st e = inl st.
Proof.
  unfold reconcile_step, entry_key. intros ->. done.
Qed.

Lemma reconcile_step_keyed (st st' : LoopState) (e : Entry) :
  key e <> "" -> step st e = inl st' ->
  exists p,
    st_result st' = st_result st ++ [p]
    /\ put (st_next st) e p
    /\ st_finalIDs st' = {[ key e ]} ∪ st_finalIDs st
    /\ st_next st <= st_next st'
    /\ (forall id, id ∈ st_updated st'
          <-> id ∈ st_updated st
              \/ (id = key e /\ inline id = false /\ (forall q, ~ reuse e q) /\ known id))
    /\ (forall id, id ∈ st_added st'
          <-> id ∈ st_added st
              \/ (id = key e /\ inline id = false /\ (forall q, ~ reuse e q) /\ ~ known id)).
Proof.
  unfold reconcile_step. fold (entry_key DefaultAccessProviderName
    AccessProviderTypeConfigAPIKey e).
  intros Hk. apply String.eqb_neq in Hk as Hk'. rewrite Hk'.
  destruct (reusable _ _ _ _ e) as [q|] eqn:Er.
  - intros [= <-]. exists q. simpl. apply reusable_spec in Er as Hq.
    split; [done|]. split.
    { split.
      - intros q' Hq'. apply reusable_spec in Hq'. congruence.
      - intros Hno. by destruct (Hno q). }
    split; [done|]. split; [done|].
    split; intros id; (split; [by intros ?; left|]); intros [?|(_ & _ & Hno & _)]; try done;
      by destruct (Hno q).
  - pose proof (proj1 (reusable_None e) Er) as Hno.
    destruct (BuildProvider registry (Some (val e)) newCfg (st_next st)) as [p|err] eqn:Eb;
      [|done].
    intros [= <-]. exists p. simpl.
    assert (obj p = st_next st) as Hobj.
    { unfold BuildProvider in Eb. destruct (registry !! _) as [factory|]; [|done].
      destruct (factory _ _); [|done]. by injection Eb as <-. }
    split; [done|]. split.
    { split.
      - intros q Hq. by destruct (Hno q).
      - intros _. split; [lia|]. by rewrite Hobj. }
    split; [done|]. split; [lia|].
    assert (bool_decide (is_Some (oldCfgMap !! key e))
            && bool_decide (is_Some (existingMap !! key e)) = true <-> known (key e)) as Hknown.
    { unfold known_before. rewrite andb_true_iff, !bool_decide_eq_true. done. }
    destruct (bool_decide _ && bool_decide _) eqn:Ex.
    + assert (known (key e)) as Hkn by by apply Hknown.
      split; intros id.
      * rewrite elem_of_appendChange. split; intros [?|Hr]; auto.
        -- right. destruct Hr as [-> ?]. done.
        -- right. destruct Hr as (-> & ? & _). done.
      * split; [by intros ?; left|]. intros [?|(-> & _ & _ & Hk2)]; done.
    + assert (~ known (key e)) as Hkn.
      { intros Hkn. apply Hknown in Hkn. congruence. }
      split; intros id.
      * split; [by intros ?; left|]. intros [?|(-> & _ & _ & Hk2)]; done.
      * rewrite elem_of_appendChange. split; intros [?|Hr]; auto.
        -- right. destruct Hr as [-> ?]. done.
        -- right. destruct Hr as (-> & ? & _). done.
Qed.

Lemma rebuilt_cons (e : Entry) (entries : list Entry) (id : string) :
  rebuilt (e :: entries) id
  <-> (id = key e /\ inline id = false /\ (forall q, ~ reuse e q)) \/ rebuilt entries id.
Proof.
  unfold rebuilt_under. split.
  - intros (Hi & e' & Hin & Hk & Hno). apply elem_of_cons in Hin as [->|Hin].
    + left. done.
    + right. split; [done|]. by exists e'.
  - intros [(-> & Hi & Hno)|(Hi & e' & Hin & Hk & Hno)].
    + split; [done|]. exists e. split; [by left|done].
    + split; [done|]. exists e'. split; [by right|done].
Qed.

Lemma rebuilt_nil (id : string) : ~ rebuilt [] id.
Proof. intros (_ & e & Hin & _). by apply elem_of_nil in Hin. Qed.

(** The loop, from any state: one provider per entry that has an
    identifier, placed as [placed] says; the identifiers and the two
    change lists grow accordingly. *)
Lemma reconcile_loop_inv (entries : list Entry) (st st' : LoopState) :
  loop st entries = inl st' ->
  exists ps,
    st_result st' = st_result st ++ ps
    /\ Forall2 (put (st_next st)) (keyed entries) ps
    /\ st_finalIDs st' = list_to_set (key <$> keyed entries) ∪ st_finalIDs st
    /\ st_next st <= st_next st'
    /\ (forall id, id ∈ st_updated st'
          <-> id ∈ st_updated st \/ (rebuilt (keyed entries) id /\ known id))
    /\ (forall id, id ∈ st_added st'
          <-> id ∈ st_added st \/ (rebuilt (keyed entries) id /\ ~ known id)).
Proof.
  revert st. induction entries as [|e entries IH]; intros st.
  - intros [= <-]. exists []. rewrite app_nil_r. simpl.
    split; [done|]. split; [constructor|]. split; [set_solver|]. split; [done|].
    split; intros id; (split; [by intros ?; left|]); intros [?|[Hr _]]; try done;
      by apply rebuilt_nil in Hr.
  - cbn [reconcile_loop]. destruct (step st e) as [st1|err] eqn:Es; [|done].
    intros Hloop.
    destruct (IH st1 Hloop) as (ps & Hres & Hput & Hids & Hnext & Hupd & Hadd).
    destruct (decide (key e = "")) as [Hk|Hk].
    + rewrite (reconcile_step_keyless st e Hk) in Es. injection Es as <-.
      exists ps. rewrite filter_cons_False by (intros Hne; done). done.
    + destruct (reconcile_step_keyed st st1 e Hk Es)
        as (p & Hres1 & Hput1 & Hids1 & Hnext1 & Hupd1 & Hadd1).
      exists (p :: ps). rewrite filter_cons_True by done.
      split. { rewrite Hres, Hres1. by rewrite <- app_assoc. }
      split. { constructor; [done|]. eapply Forall2_impl; [exact Hput|].
               intros e' p' Hp'. by apply (placed_mono (st_next st1)). }
      split. { rewrite Hids, Hids1. simpl. set_solver. }
      split; [lia|].
      split; intros id.
      * rewrite Hupd, Hupd1, rebuilt_cons. tauto.
      * rewrite Hadd, Hadd1, rebuilt_cons. tauto.
Qed.

(** An entry for which [BuildProvider] succeeds: its type is registered
    and the factory answers. *)
Lemma BuildProvider_buildable (e : Entry) (n : nat) :
  buildable registry newCfg e ->
  exists p, BuildProvider registry (Some (val e)) newCfg n = inl p.
Proof.
  intros (factory & ident & Hreg & Hf). unfold BuildProvider. rewrite Hreg, Hf. eauto.
Qed.

(** The loop ends without error when every entry that is not kept can be
    built. *)
Lemma reconcile_loop_total (entries : list Entry) (st : LoopState) :
  (forall e, e ∈ keyed entries -> (forall q, ~ reuse e q) -> buildable registry newCfg e) ->
  exists st', loop st entries = inl st'.
Proof.
  revert st. induction entries as [|e entries IH]; intros st Hall; [by exists st|].
  cbn [reconcile_loop].
  destruct (decide (key e = "")) as [Hk|Hk].
  - rewrite (reconcile_step_keyless st e Hk). apply IH.
    intros e' He'. apply Hall. by rewrite filter_cons_False by (intros ?; done).
  - assert (forall e', e' ∈ keyed entries -> (forall q, ~ reuse e' q) ->
                       buildable registry newCfg e') as Hrest.
    { intros e' He'. apply Hall. rewrite filter_cons_True by done. by right. }
    assert (exists st1, step st e = inl st1) as [st1 ->]; [|by apply IH].
    unfold reconcile_step. apply String.eqb_neq in Hk as Hk'.
    unfold entry_key in Hk'. rewrite Hk'.
    destruct (reusable _ _ _ _ e) as [q|] eqn:Er; [eauto|].
    pose proof (proj1 (reusable_None e) Er) as Hno.
    destruct (BuildProvider_buildable e (st_next st)) as [p ->]; [|eauto].
    apply Hall; [|done]. rewrite filter_cons_True by done. by left.
Qed.

Lemma elem_of_sort_strings (l : list string) (id : string) :
  id ∈ sort_strings l <-> id ∈ l.
Proof. unfold sort_strings. by rewrite merge_sort_Permutation. Qed.

Lemma Sorted_sort_strings (l : list string) : Sorted String.le (sort_strings l).
Proof. apply Sorted_merge_sort. apply _. Qed.

Lemma elem_of_removed_ids (finalIDs : gset string) (id : string) :
  id ∈ removed_ids DefaultAccessProviderName existingMap finalIDs
  <-> is_Some (existingMap !! id) /\ (id ∉ finalIDs) /\ inline id = false.
Proof.
  unfold removed_ids. rewrite elem_of_sort_strings, elem_of_elements, elem_of_filter,
    elem_of_dom. tauto.
Qed.

(** C5, as amended. For a reconciliation that returns without error,
    on a new configuration that names a provider (or has no inline keys
    to fall back on): the result holds one provider per configured entry
    with an identifier, in order. An entry keeps the registered provider
    exactly under [reuse_condition]: it is not of the config-api-key
    type, the previous configuration files another object under the same
    identifier that [providerConfigEqual] finds equal (type compared
    without letter case and outer blanks, sdk without outer blanks,
    apiKeys as multisets, config maps deeply), and a provider is
    registered under the identifier. Every other entry gets a new object
    from [BuildProvider], and its identifier is reported as updated when
    it was configured and registered before, as added otherwise; the
    registered identifiers that no entry has are reported as removed.
    The inline identifier is in none of the three lists, and each list
    is sorted. *)
Theorem reconcile_keeps_equal_rebuilds_changed (next : nat) :
  (keyed_entries DefaultAccessProviderName AccessProviderTypeConfigAPIKey
     MakeInlineAPIKeyProvider newCfg <> []
   \/ MakeInlineAPIKeyProvider (Config_APIKeys newCfg) = None) ->
  let oldCfgMap :=
    accessProviderMap DefaultAccessProviderName AccessProviderTypeConfigAPIKey
      MakeInlineAPIKeyProvider oldCfg in
  let existingMap := existingMap_of existing in
  let entries :=
    keyed_entries DefaultAccessProviderName AccessProviderTypeConfigAPIKey
      MakeInlineAPIKeyProvider newCfg in
  let run :=
    ReconcileProviders DefaultAccessProviderName AccessProviderTypeConfigAPIKey
      MakeInlineAPIKeyProvider registry oldCfg (Some newCfg) existing next in
  ((forall e, e ∈ entries ->
      (forall q, ~ reuse_condition DefaultAccessProviderName AccessProviderTypeConfigAPIKey
                     oldCfgMap existingMap e q) ->
      buildable registry newCfg e) ->
   exists r, run = inl r)
  /\ (forall r, run = inl r ->
      Forall2 (placed DefaultAccessProviderName AccessProviderTypeConfigAPIKey registry
                 oldCfgMap existingMap newCfg next) entries (result r)
      /\ (forall id, id ∈ updated r <->
            rebuilt_under DefaultAccessProviderName AccessProviderTypeConfigAPIKey
              oldCfgMap existingMap entries id
            /\ known_before oldCfgMap existingMap id)
      /\ (forall id, id ∈ added r <->
            rebuilt_under DefaultAccessProviderName AccessProviderTypeConfigAPIKey
              oldCfgMap existingMap entries id
            /\ ~ known_before oldCfgMap existingMap id)
      /\ (forall id, id ∈ removed r <->
            is_Some (existingMap !! id)
            /\ (id ∉ entry_key DefaultAccessProviderName AccessProviderTypeConfigAPIKey
                       <$> entries)
            /\ isInlineProvider DefaultAccessProviderName id = false)
      /\ Sorted String.le (added r) /\ Sorted String.le (updated r)
      /\ Sorted String.le (removed r)).
Proof.
  intros Hor. cbv zeta. unfold ReconcileProviders.
  set (st0 := {| st_result := []; st_finalIDs := ∅; st_added := [];
                 st_updated := []; st_next := next |}).
  assert (forall st1, loop st0 (collectProviderEntries DefaultAccessProviderName
                                  AccessProviderTypeConfigAPIKey MakeInlineAPIKeyProvider newCfg)
                      = inl st1 ->
            st_result st1 = [] ->
            keyed_entries DefaultAccessProviderName AccessProviderTypeConfigAPIKey
              MakeInlineAPIKeyProvider newCfg = []) as Hempty.
  { intros st1 Eloop Hnil.
    destruct (reconcile_loop_inv _ _ _ Eloop) as (ps & Hres & Hput & _).
    simpl in Hres. rewrite Hnil in Hres. subst ps.
    apply Forall2_length in Hput. simpl in Hput. by apply length_zero_iff_nil in Hput. }
  assert (forall st1, loop st0 (collectProviderEntries DefaultAccessProviderName
                                  AccessProviderTypeConfigAPIKey MakeInlineAPIKeyProvider newCfg)
                      = inl st1 ->
            reconcile_inline DefaultAccessProviderName AccessProviderTypeConfigAPIKey
              MakeInlineAPIKeyProvider registry newCfg oldCfgMap existingMap st1 = inl st1)
    as Hinline.
  { intros st1 Eloop. unfold reconcile_inline.
    destruct (Nat.eqb (length (st_result st1)) 0) eqn:El; [|done]. simpl.
    destruct Hor as [Hne|Hnone]; [|by rewrite Hnone].
    exfalso. apply Hne. apply (Hempty st1 Eloop).
    apply Nat.eqb_eq in El. by apply length_zero_iff_nil in El. }
  split.
  - intros Hbuild.
    destruct (reconcile_loop_total
                (collectProviderEntries DefaultAccessProviderName
                   AccessProviderTypeConfigAPIKey MakeInlineAPIKeyProvider newCfg) st0 Hbuild)
      as [st1 Eloop].
    rewrite Eloop, (Hinline st1 Eloop). eauto.
  - intros r Hrec.
    destruct (loop st0 _) as [st1|err] eqn:Eloop; [|done].
    rewrite (Hinline st1 eq_refl) in Hrec. injection Hrec as <-. simpl.
    destruct (reconcile_loop_inv _ _ _ Eloop) as (ps & Hres & Hput & Hids & _ & Hupd & Hadd).
    simpl in Hres, Hput, Hids, Hupd, Hadd.
    change (filter _ (collectProviderEntries DefaultAccessProviderName
                        AccessProviderTypeConfigAPIKey MakeInlineAPIKeyProvider newCfg))
      with (keyed_entries DefaultAccessProviderName AccessProviderTypeConfigAPIKey
              MakeInlineAPIKeyProvider newCfg) in Hput, Hids, Hupd, Hadd.
    rewrite Hres. split; [exact Hput|].
    split. { intros id. rewrite elem_of_sort_strings, Hupd. set_solver. }
    split. { intros id. rewrite elem_of_sort_strings, Hadd. set_solver. }
    split. { intros id. rewrite elem_of_removed_ids, Hids.
             rewrite elem_of_union, elem_of_list_to_set. set_solver. }
    repeat split; apply Sorted_sort_strings.
Qed.

End ReconcileFacts.

(** Two entries for which the claim's condition and the code part ways. *)
Lemma reload_entries_identical :
  byte_identical team_provider team_provider
  /\ ~ byte_identical ldap_a ldap_a_reordered.
Proof.
  split; [done|]. intros (Ht & _). discriminate.
Qed.

(** C5 as it is stated fails both ways. A provider of the built-in type
    config-api-key whose configuration did not change at all is rebuilt
    and reported as updated: the registered object (address 7) is not in
    the result. *)
Lemma identical_config_api_key_is_rebuilt :
  ~ (byte_identical team_provider team_provider ->
     exists r,
       ReconcileProviders "config-inline" "config-api-key" inline_of demo_registry
         (Some reload_old) (Some reload_new) [Some team_registered] 100 = inl r
       /\ team_registered ∈ result r /\ updated r = []).
Proof.
  intros Hclaim. destruct (Hclaim (proj1 reload_entries_identical)) as (r & Hr & Hin & _).
  vm_compute in Hr. injection Hr as <-. simpl in Hin.
  apply list_elem_of_singleton in Hin. discriminate.
Qed.

(** And an external provider whose type and key order changed in the
    file keeps its registered object. *)
Lemma reordered_keys_keep_provider :
  ReconcileProviders "config-inline" "config-api-key" inline_of demo_registry
    (Some ldap_old) (Some ldap_new_reordered) ldap_registered 100
  = inl {| result := [ {| obj := 1; Identifier := "dir-a" |} ];
           added := []; updated := []; removed := ["dir-b"; "dir-c"] |}.
Proof. vm_compute. reflexivity. Qed.

Lemma reconcile_keeps_equal_rebuilds_changed_witness :
  Forall2 (placed "config-inline" "config-api-key" demo_registry
             (accessProviderMap "config-inline" "config-api-key" inline_of (Some ldap_old))
             (existingMap_of ldap_registered) ldap_new 100)
          (keyed_entries "config-inline" "config-api-key" inline_of ldap_new)
          [ {| obj := 1; Identifier := "dir-a" |}; {| obj := 100; Identifier := "dir-b" |} ]
  /\ (forall id, id ∈ ["dir-c"] <->
        is_Some (existingMap_of ldap_registered !! id)
        /\ (id ∉ entry_key "config-inline" "config-api-key"
                   <$> keyed_entries "config-inline" "config-api-key" inline_of ldap_new)
        /\ isInlineProvider "config-inline" id = false).
Proof.
  assert (ReconcileProviders "config-inline" "config-api-key" inline_of demo_registry
            (Some ldap_old) (Some ldap_new) ldap_registered 100
          = inl {| result := [ {| obj := 1; Identifier := "dir-a" |};
                               {| obj := 100; Identifier := "dir-b" |} ];
                   added := []; updated := ["dir-b"]; removed := ["dir-c"] |}) as Hrun
    by (vm_compute; reflexivity).
  assert (keyed_entries "config-inline" "config-api-key" inline_of ldap_new <> []
          \/ inline_of (Config_APIKeys ldap_new) = None) as Hcfg
    by (right; reflexivity).
  destruct (reconcile_keeps_equal_rebuilds_changed "config-inline" "config-api-key"
              inline_of demo_registry (Some ldap_old) ldap_new ldap_registered 100 Hcfg)
    as [_ Hspec].
  destruct (Hspec _ Hrun) as (Hput & _ & _ & Hrem & _).
  split; [exact Hput|exact Hrem].
Defined.

End AccessProofs.

(** ** The config-api-key provider, from its configuration *)

Module ConfigAccessMore.
Import GoStrings ConfigAccess GoStringsProofs ConfigAccessProofs.

Lemma lower_ascii_space (c : ascii) : lower_ascii c = " "%char -> c = " "%char.
Proof.
  destruct c as [[] [] [] [] [] [] [] []]; vm_compute; congruence.
Qed.

Lemma contains_space_ToLower (s : string) :
  contains_byte " " s = contains_byte " " (ToLower s).
Proof.
  induction s as [|c s IH]; [done|]. cbn [ToLower contains_byte]. rewrite IH. f_equal.
  destruct (Ascii.eqb_spec c " ") as [->|Hc]; [done|].
  symmetry. apply Ascii.eqb_neq. intros Hl. by apply lower_ascii_space in Hl.
Qed.

Lemma cut_at_first (sep : ascii) (a b : string) :
  contains_byte sep a = false -> cut sep (a +:+ String sep b) = Some (a, b).
Proof.
  induction a as [|c a IH]; cbn [contains_byte].
  - intros _. change ("" +:+ String sep b) with (String sep b). cbn [cut].
    by rewrite Ascii.eqb_refl.
  - intros Hc. apply orb_false_iff in Hc as [Hc Ha].
    change (String c a +:+ String sep b) with (String c (a +:+ String sep b)).
    cbn [cut]. rewrite Hc, (IH Ha). done.
Qed.

(** X1. A header of the form "<scheme> <token>" whose scheme is the word
    bearer in any letter case yields the token without its outer blanks. *)
Theorem bearer_header_yields_trimmed_token (scheme token : string) :
  ToLower scheme = "bearer" ->
  extractBearerToken (scheme +:+ " " +:+ token) = TrimSpace token.
Proof.
  intros Hs.
  assert (Hno : contains_byte " " scheme = false).
  { by rewrite contains_space_ToLower, Hs. }
  unfold extractBearerToken, SplitN2.
  change (" " +:+ token) with (String " " token).
  rewrite (cut_at_first _ _ _ Hno), Hs. cbn [negb String.eqb].
  destruct scheme as [|c scheme]; [done|].
  change (String c scheme +:+ String " " token) with (String c (scheme +:+ String " " token)).
  done.
Qed.

Lemma bearer_header_yields_trimmed_token_witness :
  ToLower "BeArEr" = "bearer"
  /\ extractBearerToken ("BeArEr" +:+ " " +:+ "  sk-one  ") = TrimSpace "  sk-one  ".
Proof.
  split; [reflexivity|]. apply bearer_header_yields_trimmed_token. reflexivity.
Defined.

Section Configured.

Variable DefaultAccessProviderName : string.



End Configured.

End ConfigAccessMore.

(** ** Registering and building providers *)

Module AccessBuildProofs.
Import GoStrings Access AccessBuild.

Section RegistryFacts.

Context {any : Type} `{EqDecision any}.

Lemma registered_snoc (calls : list (string * option (@AccessProvider any -> @Config_ any -> option string)))
    (typ : string) (factory : option (@AccessProvider any -> @Config_ any -> option string)) :
  registered (calls ++ [(typ, factory)]) = RegisterProvider typ factory (registered calls).
Proof. unfold registered. by rewrite foldl_app. Qed.

Lemma registered_no_empty_type (calls : list (string * option (@AccessProvider any -> @Config_ any -> option string))) :
  registered calls !! "" = None.
Proof.
  induction calls as [|[typ factory] calls IH] using rev_ind; [done|].
  rewrite registered_snoc. unfold RegisterProvider.
  destruct factory as [f|]; [|done].
  destruct (String.eqb_spec typ "") as [->|Hne]; [done|].
  by rewrite lookup_insert_ne.
Qed.

(** X3. Whatever [RegisterProvider] was called with, no factory is
    filed under the empty type: an entry that names no type is never
    built, [BuildProvider] answers that its type is not registered. *)
Theorem empty_type_is_never_registered
    (calls : list (string * option (@AccessProvider any -> @Config_ any -> option string)))
    (cfg : @AccessProvider any) (root : @Config_ any) (next : nat) :
  Typ cfg = "" ->
  BuildProvider (registered calls) (Some cfg) root next = inr (TypeNotRegistered "").
Proof.
  intros Ht. unfold BuildProvider. by rewrite Ht, registered_no_empty_type.
Qed.

(** X4. After [RegisterProvider typ factory] with a type that is not
    empty, [BuildProvider] uses that factory for the entries of this
    type (a new object with the identifier it returns, or the error that
    it failed), and builds the entries of every other type as before. *)
Theorem last_registration_is_used
    (registry : gmap string (@AccessProvider any -> @Config_ any -> option string)) (typ : string) (factory : @AccessProvider any -> @Config_ any -> option string)
    (cfg : @AccessProvider any) (root : @Config_ any) (next : nat) :
  typ <> "" ->
  BuildProvider (RegisterProvider typ (Some factory) registry) (Some cfg) root next
  = if String.eqb (Typ cfg) typ
    then match factory cfg root with
         | Some ident => inl {| obj := next; Identifier := ident |}
         | None => inr (FactoryFailed (Name cfg))
         end
    else BuildProvider registry (Some cfg) root next.
Proof.
  intros Hne. unfold BuildProvider, RegisterProvider.
  rewrite (proj2 (String.eqb_neq _ _) Hne).
  destruct (String.eqb_spec (Typ cfg) typ) as [->|Hd].
  - by rewrite lookup_insert_eq.
  - by rewrite lookup_insert_ne.
Qed.

Variable MakeInlineAPIKeyProvider : list string -> option (@AccessProvider any).
Variable registry : gmap string (@AccessProvider any -> @Config_ any -> option string).

Lemma BuildProvider_build_one (root : @Config_ any) (c : @AccessProvider any) (next : nat) :
  BuildProvider registry (Some c) root next
  = match build_one registry root c with
    | inl ident => inl {| obj := next; Identifier := ident |}
    | inr err => inr err
    end.
Proof.
  unfold BuildProvider, build_one. destruct (registry !! Typ c) as [f|]. 2: done.
  by destruct (f c root).
Qed.

Lemma build_each_build_all (root : @Config_ any) (cfgs : list (@AccessProvider any))
    (providers : list Provider) (next : nat) :
  build_each registry root cfgs providers next
  = match build_all registry root (filter (fun c => Typ c <> "") cfgs) next with
    | inl ps => inl (providers ++ ps, next + length ps)
    | inr err => inr err
    end.
Proof.
  revert providers next. induction cfgs as [|c cfgs IH]; intros providers next.
  - cbn. by rewrite app_nil_r, Nat.add_0_r.
  - cbn [build_each]. destruct (String.eqb_spec (Typ c) "") as [Ht|Ht].
    + rewrite filter_cons_False by (intros ?; done). apply IH.
    + rewrite filter_cons_True by done. cbn [build_all].
      rewrite BuildProvider_build_one.
      destruct (build_one registry root c) as [ident|err]; [|done].
      rewrite IH. destruct (build_all _ _ _ (S next)) as [ps|err]; [|done].
      cbn [length]. rewrite <- app_assoc. do 2 f_equal. lia.
Qed.

Lemma build_all_length (root : @Config_ any) (cfgs : list (@AccessProvider any))
    (next : nat) (ps : list Provider) :
  build_all registry root cfgs next = inl ps -> length ps = length cfgs.
Proof.
  revert next ps. induction cfgs as [|c cfgs IH]; intros next ps; cbn [build_all].
  - by intros [= <-].
  - destruct (build_one _ _ c); [|done].
    destruct (build_all _ _ _ (S next)) as [ps'|] eqn:E; [|done].
    intros [= <-]. cbn. f_equal. by eapply IH.
Qed.

Lemma BuildProviders_build_all (root : @Config_ any) (next : nat) :
  BuildProviders MakeInlineAPIKeyProvider registry (Some root) next
  = build_all registry root (to_build MakeInlineAPIKeyProvider root) next.
Proof.
  unfold BuildProviders, to_build. rewrite build_each_build_all. fold (typed root).
  destruct (typed root) as [|c cfgs] eqn:Et.
  - cbn [build_all app length Nat.eqb]. rewrite Nat.add_0_r.
    destruct (MakeInlineAPIKeyProvider _) as [inline|]; [|done].
    rewrite BuildProvider_build_one.
    change (option_list (Some inline)) with [inline]. cbn [build_all].
    by destruct (build_one registry root inline).
  - destruct (build_all registry root (c :: cfgs) next) as [ps|err] eqn:Eb; [|done].
    apply build_all_length in Eb. cbn [app]. destruct ps; [done|]. done.
Qed.

Lemma build_all_addresses (root : @Config_ any) (cfgs : list (@AccessProvider any))
    (next : nat) (ps : list Provider) :
  build_all registry root cfgs next = inl ps ->
  forall i p, ps !! i = Some p -> obj p = next + i.
Proof.
  revert next ps. induction cfgs as [|c cfgs IH]; intros next ps; cbn [build_all].
  - by intros [= <-] i p Hi.
  - destruct (build_one _ _ c); [|done].
    destruct (build_all _ _ _ (S next)) as [ps'|] eqn:E; [|done].
    intros [= <-] [|i] p; cbn.
    + intros [= <-]. cbn. lia.
    + intros Hi. rewrite (IH _ _ E i p Hi). lia.
Qed.

(** X5. [BuildProviders] builds one provider per entry that names a
    type, in the order of the configuration and at consecutive
    addresses, and fails with the error of the first entry that cannot
    be built; the entries without a type are skipped, and the inline
    provider of the top-level keys is built only when no entry names a
    type. For a nil configuration it returns no provider. *)
Theorem BuildProviders_builds_typed_entries_in_order (root : @Config_ any) (next : nat) :
  BuildProviders MakeInlineAPIKeyProvider registry (Some root) next
  = build_all registry root (to_build MakeInlineAPIKeyProvider root) next
  /\ (forall ps, BuildProviders MakeInlineAPIKeyProvider registry (Some root) next = inl ps ->
        length ps = length (to_build MakeInlineAPIKeyProvider root)
        /\ forall i p, ps !! i = Some p -> obj p = next + i)
  /\ BuildProviders MakeInlineAPIKeyProvider registry None next = inl [].
Proof.
  split; [apply BuildProviders_build_all|]. split; [|done].
  intros ps. rewrite BuildProviders_build_all. intros Hb. split.
  - by eapply build_all_length.
  - by eapply build_all_addresses.
Qed.

End RegistryFacts.

Lemma empty_type_is_never_registered_witness :
  BuildProvider (registered [("config-api-key", Some named_factory); ("", Some named_factory)])
    (Some untyped_provider) reload_new 0
  = inr (TypeNotRegistered "").
Proof. apply empty_type_is_never_registered. reflexivity. Defined.

Lemma last_registration_is_used_witness :
  BuildProvider (RegisterProvider "ldap" (Some named_factory) demo_registry)
    (Some ldap_a) ldap_new 9
  = inl {| obj := 9; Identifier := "dir-a" |}.
Proof.
  assert ("ldap" <> "") as Hne by discriminate.
  rewrite (last_registration_is_used demo_registry "ldap" named_factory ldap_a ldap_new 9 Hne).
  reflexivity.
Defined.

Section FreshStart.

Context {any : Type} `{EqDecision any}.
Variable DefaultAccessProviderName : string.
Variable AccessProviderTypeConfigAPIKey : string.
Variable MakeInlineAPIKeyProvider : list string -> option (@AccessProvider any).
Variable registry : gmap string (@AccessProvider any -> @Config_ any -> option string).

#[local] Abbreviation ident :=
  (providerIdentifier DefaultAccessProviderName AccessProviderTypeConfigAPIKey).
#[local] Abbreviation key :=
  (entry_key DefaultAccessProviderName AccessProviderTypeConfigAPIKey).

Lemma reconcile_loop_fresh (newCfg : @Config_ any) (entries : list Entry) (st : LoopState) :
  (forall e, e ∈ entries -> key e <> "") ->
  match build_all registry newCfg (val <$> entries) (st_next st) with
  | inl ps =>
      exists st',
        reconcile_loop DefaultAccessProviderName AccessProviderTypeConfigAPIKey registry
          newCfg ∅ ∅ st entries = inl st'
        /\ st_result st' = st_result st ++ ps
        /\ st_updated st' = st_updated st
        /\ st_next st' = st_next st + length ps
  | inr err =>
      reconcile_loop DefaultAccessProviderName AccessProviderTypeConfigAPIKey registry
        newCfg ∅ ∅ st entries = inr err
  end.
Proof.
  revert st. induction entries as [|e entries IH]; intros st Hk.
  - cbn. exists st. by rewrite app_nil_r, Nat.add_0_r.
  - cbn [fmap list_fmap build_all reconcile_loop].
    assert (key e <> "") as Hke by (apply Hk; by left).
    assert (forall e', e' ∈ entries -> key e' <> "") as Hrest by (intros e' ?; apply Hk; by right).
    unfold reconcile_step.
    apply String.eqb_neq in Hke as Hke'. unfold entry_key in Hke'. rewrite Hke'.
    unfold reusable. rewrite lookup_empty.
    rewrite BuildProvider_build_one.
    destruct (build_one registry newCfg (val e)) as [id|err]. 2: done.
    rewrite lookup_empty. cbn [bool_decide andb].
    match goal with |- context [reconcile_loop _ _ _ _ _ _ ?s entries] => set (st1 := s) end.
    specialize (IH st1 Hrest). change (st_next st1) with (S (st_next st)) in IH.
    destruct (build_all registry newCfg (val <$> entries) (S (st_next st))) as [ps|err]; [|done].
    destruct IH as (st' & -> & Hr & Hu & Hnx). exists st'.
    split; [done|]. split; [|split].
    + rewrite Hr. unfold st1. cbn [st_result]. by rewrite <- app_assoc.
    + rewrite Hu. unfold st1. cbn [st_updated].
      case_bool_decide as Hsome; [|done]. by destruct Hsome.
    + rewrite Hnx. cbn [length]. lia.
Qed.

Lemma val_filter_slots (P : @AccessProvider any -> Prop) (Q : @Entry any -> Prop)
    `{forall c, Decision (P c)} `{forall e, Decision (Q e)}
    (g : nat -> ProviderPtr) (l : list (@AccessProvider any)) :
  (forall e, Q e <-> P (val e)) ->
  val <$> filter Q (imap (fun i p => {| ptr := g i; val := p |}) l) = filter P l.
Proof.
  intros Hqp. revert g. induction l as [|c l IH]; intros g; [done|].
  rewrite imap_cons. destruct (decide (P c)) as [Hc|Hc].
  - rewrite !filter_cons_True; [|done|by apply Hqp]. cbn [fmap list_fmap val]. f_equal.
    apply (IH (g ∘ S)).
  - rewrite !filter_cons_False; [|done|by rewrite Hqp]. apply (IH (g ∘ S)).
Qed.

Lemma filter_ext_in {A : Type} (P Q : A -> Prop) `{forall x, Decision (P x)}
    `{forall x, Decision (Q x)} (l : list A) :
  (forall x, x ∈ l -> (P x <-> Q x)) -> filter P l = filter Q l.
Proof.
  induction l as [|x l IH]; intros Hpq; [done|].
  assert (filter P l = filter Q l) as Hl by (apply IH; intros y ?; apply Hpq; by right).
  destruct (decide (P x)) as [Hp|Hp].
  - rewrite !filter_cons_True; [by rewrite Hl|by apply Hpq; [left|]|done].
  - rewrite !filter_cons_False; [done| |done]. intros Hq. apply Hp. apply Hpq; [by left|done].
Qed.

Lemma removed_from_nothing (finalIDs : gset string) :
  removed_ids DefaultAccessProviderName (existingMap_of []) finalIDs = [].
Proof.
  unfold removed_ids, existingMap_of. cbn [foldl].
  rewrite dom_empty_L, filter_empty_L, elements_empty; [reflexivity|apply _].
Qed.

(** X6. The first load: with no previous configuration and no provider
    registered, [ReconcileProviders] returns the providers (or the
    error) of [BuildProviders], reports no provider as updated and none
    as removed; for a configuration whose typed entries, and whose
    inline provider if it has one, have an identifier. *)
Theorem first_load_reconciles_to_BuildProviders (newCfg : @Config_ any) (next : nat) :
  (forall c, c ∈ Access_Providers newCfg -> Typ c <> "" -> ident (Some c) <> "") ->
  (forall inline, MakeInlineAPIKeyProvider (Config_APIKeys newCfg) = Some inline ->
                  ident (Some inline) <> "") ->
  match ReconcileProviders DefaultAccessProviderName AccessProviderTypeConfigAPIKey
          MakeInlineAPIKeyProvider registry None (Some newCfg) [] next with
  | inl r => inl (result r)
  | inr err => inr err
  end = BuildProviders MakeInlineAPIKeyProvider registry (Some newCfg) next
  /\ (forall r, ReconcileProviders DefaultAccessProviderName AccessProviderTypeConfigAPIKey
                  MakeInlineAPIKeyProvider registry None (Some newCfg) [] next = inl r ->
                updated r = [] /\ removed r = []).
Proof.
  intros Hkeyed Hinline.
  rewrite BuildProviders_build_all.
  unfold ReconcileProviders. cbn [accessProviderMap].
  change (existingMap_of []) with (∅ : gmap string Provider).
  set (st0 := {| st_result := []; st_finalIDs := ∅; st_added := []; st_updated := [];
                 st_next := next |}).
  set (slotted := filter (fun e => Typ (val e) <> "" /\ ident (Some (val e)) <> "")
                         (slots newCfg)).
  assert (Hvals : val <$> slotted = typed newCfg).
  { unfold slotted, slots, typed.
    etrans; [apply (val_filter_slots (fun c => Typ c <> "" /\ ident (Some c) <> "") _
                      (fun i => Slot (providersBase newCfg) i)); done|].
    apply filter_ext_in. intros c Hc. split; [by intros [? _]|]. intros Ht. split; [done|].
    by apply Hkeyed. }
  assert (Hslotted : forall e, e ∈ slotted -> key e <> "").
  { intros e He. unfold slotted in He. apply list_elem_of_filter in He as [[_ Hk] _]. done. }
  assert (Hcollect : collectProviderEntries DefaultAccessProviderName
            AccessProviderTypeConfigAPIKey MakeInlineAPIKeyProvider newCfg
          = if Nat.eqb (length slotted) 0 && Nat.ltb 0 (length (Config_APIKeys newCfg))
            then match MakeInlineAPIKeyProvider (Config_APIKeys newCfg) with
                 | Some inline => slotted ++ [{| ptr := Inline 1; val := inline |}]
                 | None => slotted
                 end
            else slotted) by done.
  rewrite Hcollect. clear Hcollect.
  unfold to_build. rewrite <- Hvals.
  destruct slotted as [|e0 slotted'] eqn:Es.
  - (* no typed entry *)
    cbn [length Nat.eqb andb fmap list_fmap app].
    destruct (MakeInlineAPIKeyProvider (Config_APIKeys newCfg)) as [inline|] eqn:Emi.
    + change (option_list (Some inline)) with [inline].
      pose proof (Hinline inline eq_refl) as Hik.
      destruct (Nat.ltb 0 (length (Config_APIKeys newCfg))).
      * (* the loop builds the inline entry *)
        pose proof (reconcile_loop_fresh newCfg [{| ptr := Inline 1; val := inline |}] st0) as Hl.
        cbn [fmap list_fmap val st_next st0] in Hl.
        destruct (build_all registry newCfg [inline] next) as [ps|err] eqn:Eb.
        -- destruct Hl as (st1 & -> & Hr & Hu & _).
           { intros e He. apply list_elem_of_singleton in He as ->. done. }
           apply build_all_length in Eb as Hlen.
           unfold reconcile_inline. rewrite Hr. cbn [st_result st0 app].
           destruct ps as [|p ps]; [done|]. cbn [length Nat.eqb negb].
           split; [by rewrite Hr|].
           intros r [= <-]. cbn [updated removed]. rewrite Hu.
           split; [reflexivity|]. apply removed_from_nothing.
        -- rewrite Hl; [done|]. intros e He. apply list_elem_of_singleton in He as ->. done.
      * (* the fallback block builds it *)
        cbn [reconcile_loop]. unfold reconcile_inline. cbn [st_result st0 length Nat.eqb negb].
        rewrite Emi. apply String.eqb_neq in Hik as Hik'. rewrite Hik'.
        rewrite lookup_empty. rewrite BuildProvider_build_one. cbn [build_all st_next].
        destruct (build_one registry newCfg inline) as [id|err]; [|done].
        rewrite lookup_empty. cbn [app].
        assert (bool_decide (is_Some (@None Provider)) || bool_decide (is_Some (@None Entry))
                = false) as ->.
        { apply orb_false_iff. split; apply bool_decide_eq_false; by intros [? ?]. }
        split; [done|]. intros r [= <-]. cbn [updated removed st_updated st_finalIDs].
        split; [reflexivity|]. apply removed_from_nothing.
    + change (option_list None) with (@nil (@AccessProvider any)).
      destruct (Nat.ltb 0 (length (Config_APIKeys newCfg)));
        cbn [reconcile_loop]; unfold reconcile_inline; cbn [st_result st0 length Nat.eqb negb];
        rewrite Emi; cbn [build_all]; (split; [done|]);
        intros r [= <-]; cbn [updated removed st_updated st_finalIDs];
        (split; [reflexivity|]); apply removed_from_nothing.
  - (* typed entries *)
    cbn [length Nat.eqb andb fmap list_fmap].
    pose proof (reconcile_loop_fresh newCfg (e0 :: slotted') st0 Hslotted) as Hl.
    cbn [st_next st0 fmap list_fmap] in Hl.
    destruct (build_all registry newCfg (val e0 :: (val <$> slotted')) next)
      as [ps|err] eqn:Eb.
    + destruct Hl as (st1 & -> & Hr & Hu & _).
      apply build_all_length in Eb as Hlen.
      unfold reconcile_inline. rewrite Hr. cbn [st_result st0 app].
      destruct ps as [|p ps]; [done|]. cbn [length Nat.eqb negb].
      split; [by rewrite Hr|].
      intros r [= <-]. cbn [updated removed]. rewrite Hu.
      split; [reflexivity|]. apply removed_from_nothing.
    + by rewrite Hl.
Qed.

End FreshStart.

Lemma first_load_reconciles_to_BuildProviders_witness :
  match ReconcileProviders "config-inline" "config-api-key" inline_of demo_registry
          None (Some ldap_new) [] 0 with
  | inl r => inl (result r)
  | inr err => inr err
  end = BuildProviders inline_of demo_registry (Some ldap_new) 0.
Proof.
  apply (first_load_reconciles_to_BuildProviders "config-inline" "config-api-key" inline_of
           demo_registry ldap_new 0).
  - intros c Hc _. cbn in Hc.
    apply elem_of_cons in Hc as [->|Hc]; [by vm_compute|].
    apply list_elem_of_singleton in Hc as ->. by vm_compute.
  - intros inline Hi. by vm_compute in Hi.
Defined.

End AccessBuildProofs.

(** ** The change lists of a reconciliation *)

Module AccessChangesProofs.
Import GoStrings Access AccessBuild AccessProofs.

Section Changes.

Context {any : Type} `{EqDecision any}.
Variable DefaultAccessProviderName : string.
Variable AccessProviderTypeConfigAPIKey : string.
Variable MakeInlineAPIKeyProvider : list string -> option (@AccessProvider any).
Variable registry : gmap string (@AccessProvider any -> @Config_ any -> option string).
Variable oldCfg : option (@Config_ any).
Variable newCfg : @Config_ any.
Variable existing : list (option Provider).

#[local] Abbreviation oldCfgMap :=
  (accessProviderMap DefaultAccessProviderName AccessProviderTypeConfigAPIKey
     MakeInlineAPIKeyProvider oldCfg).
#[local] Abbreviation existingMap := (existingMap_of existing).
#[local] Abbreviation key :=
  (entry_key DefaultAccessProviderName AccessProviderTypeConfigAPIKey).
#[local] Abbreviation inline := (isInlineProvider DefaultAccessProviderName).

Lemma elem_of_appended (ids : list string) (k id : string) :
  id ∈ appendChange DefaultAccessProviderName ids k
  <-> id ∈ ids \/ (id = k /\ inline k = false).
Proof.
  unfold appendChange. destruct (isInlineProvider _ k).
  - split; [by intros ?; left|]. intros [?|[_ ?]]; done.
  - rewrite elem_of_app, list_elem_of_singleton. naive_solver.
Qed.

(** What the fallback block does to the state: nothing, or (on an empty
    result) one provider under one identifier, reported in at most one
    of the two lists. *)
Lemma reconcile_inline_inv (st st' : LoopState) :
  reconcile_inline DefaultAccessProviderName AccessProviderTypeConfigAPIKey
    MakeInlineAPIKeyProvider registry newCfg oldCfgMap existingMap st = inl st' ->
  st' = st
  \/ (st_result st = []
      /\ exists k,
           st_finalIDs st' = {[ k ]} ∪ st_finalIDs st
           /\ ((st_added st' = st_added st /\ st_updated st' = st_updated st)
               \/ (st_added st' = appendChange DefaultAccessProviderName (st_added st) k
                   /\ st_updated st' = st_updated st)
               \/ (st_added st' = st_added st
                   /\ st_updated st' = appendChange DefaultAccessProviderName (st_updated st) k))).
Proof.
  unfold reconcile_inline.
  destruct (st_result st) as [|p ps] eqn:Er; cbn [length Nat.eqb negb];
    [|intros [= <-]; by left].
  destruct (MakeInlineAPIKeyProvider _) as [inl_cfg|]; [|intros [= <-]; by left].
  destruct (String.eqb _ ""); [intros [= <-]; by left|].
  match goal with
  | |- match ?k with Some _ => _ | None => _ end = _ -> _ => destruct k as [q|]
  end.
  - intros [= <-]. right. split; [done|]. eexists. cbn. split; [done|]. by left.
  - destruct (BuildProvider _ _ _ _) as [p|err]; [|done].
    intros [= <-]. right. split; [done|]. eexists. cbn. split; [done|].
    destruct (_ || _); [right; by right|right; by left].
Qed.

(** X7. The three change lists of a reconciliation that succeeds are
    disjoint: no identifier is reported as added and as updated, nor as
    added or updated and as removed; and the inline identifier is in
    none of them. *)
Theorem change_lists_are_disjoint (next : nat) (r : Reconciled) :
  ReconcileProviders DefaultAccessProviderName AccessProviderTypeConfigAPIKey
    MakeInlineAPIKeyProvider registry oldCfg (Some newCfg) existing next = inl r ->
  (forall id, id ∈ added r -> (id ∉ updated r) /\ (id ∉ removed r))
  /\ (forall id, id ∈ updated r -> (id ∉ removed r))
  /\ (forall id, id ∈ added r ++ updated r ++ removed r -> inline id = false).
Proof.
  unfold ReconcileProviders.
  destruct (reconcile_loop _ _ _ _ _ _ _ _) as [st1|err] eqn:El; [|done].
  destruct (reconcile_inline _ _ _ _ _ _ _ _) as [st2|err] eqn:Ei; [|done].
  intros [= <-]. cbn [added updated removed].
  apply (reconcile_loop_inv DefaultAccessProviderName AccessProviderTypeConfigAPIKey
           MakeInlineAPIKeyProvider) in El as (ps & Hres & Hput & Hids & _ & Hupd & Hadd).
  cbn [st_result st_finalIDs st_added st_updated app] in Hres, Hids, Hupd, Hadd.
  set (keyed := filter (fun e => key e <> "")
                  (collectProviderEntries DefaultAccessProviderName
                     AccessProviderTypeConfigAPIKey MakeInlineAPIKeyProvider newCfg)) in *.
  assert (Hfinal : forall id,
            rebuilt_under DefaultAccessProviderName AccessProviderTypeConfigAPIKey
              oldCfgMap existingMap keyed id -> id ∈ st_finalIDs st1).
  { intros id (_ & e & He & Hk & _). rewrite Hids. apply elem_of_union_l.
    apply elem_of_list_to_set, list_elem_of_fmap. by exists e. }
  assert (Hinl : forall id,
            rebuilt_under DefaultAccessProviderName AccessProviderTypeConfigAPIKey
              oldCfgMap existingMap keyed id -> inline id = false).
  { by intros id (? & _). }
  assert (Hnil : forall id : string, ~ id ∈ (@nil string)) by (intros id; apply not_elem_of_nil).
  setoid_rewrite elem_of_app. setoid_rewrite elem_of_app.
  setoid_rewrite elem_of_removed_ids. setoid_rewrite elem_of_sort_strings.
  apply reconcile_inline_inv in Ei as [->|(Hempty & k & Hk2 & Hcases)].
  - setoid_rewrite Hupd. setoid_rewrite Hadd. naive_solver.
  - assert (keyed = []) as Hkeyed.
    { rewrite Hempty in Hres. symmetry in Hres. subst ps.
      by apply Forall2_nil_inv_r in Hput. }
    assert (forall id, ~ id ∈ st_added st1) as Ha1.
    { intros id Hid. apply Hadd in Hid as [?|[(_ & e & He & _) _]]; [by eapply Hnil|].
      rewrite Hkeyed in He. by eapply not_elem_of_nil. }
    assert (forall id, ~ id ∈ st_updated st1) as Hu1.
    { intros id Hid. apply Hupd in Hid as [?|[(_ & e & He & _) _]]; [by eapply Hnil|].
      rewrite Hkeyed in He. by eapply not_elem_of_nil. }
    rewrite Hk2. clear Hupd Hadd Hfinal Hinl Hput Hids Hres Hk2.
    assert (Hin : forall id, id ∉ {[k]} ∪ st_finalIDs st1 -> id <> k).
    { intros id Hn ->. apply Hn. apply elem_of_union_l. by apply elem_of_singleton. }
    destruct Hcases as [[-> ->]|[[-> ->]|[-> ->]]].
    all: split; [|split]; intros id; rewrite ?elem_of_appended.
    all: specialize (Hin id); specialize (Ha1 id); specialize (Hu1 id); naive_solver.
Qed.

End Changes.

Lemma change_lists_are_disjoint_witness :
  ("dir-b" ∉ ["dir-c"]) /\ isInlineProvider "config-inline" "dir-c" = false.
Proof.
  assert (ReconcileProviders "config-inline" "config-api-key" inline_of demo_registry
            (Some ldap_old) (Some ldap_new) ldap_registered 100
          = inl {| result := [ {| obj := 1; Identifier := "dir-a" |};
                               {| obj := 100; Identifier := "dir-b" |} ];
                   added := []; updated := ["dir-b"]; removed := ["dir-c"] |}) as Hrun
    by (vm_compute; reflexivity).
  destruct (change_lists_are_disjoint "config-inline" "config-api-key" inline_of
              demo_registry (Some ldap_old) ldap_new ldap_registered 100 _ Hrun)
    as (_ & Hupd & Hinl).
  split.
  - apply Hupd. by apply list_elem_of_singleton.
  - apply Hinl. cbn [added updated removed app]. apply elem_of_cons. right.
    by apply list_elem_of_singleton.
Defined.

Section Apply.

Context {any : Type} `{EqDecision any}.
Variable DefaultAccessProviderName : string.
Variable AccessProviderTypeConfigAPIKey : string.
Variable MakeInlineAPIKeyProvider : list string -> option (@AccessProvider any).
Variable registry : gmap string (@AccessProvider any -> @Config_ any -> option string).
Variable Manager : Type.
Variable Providers : Manager -> list (option Provider).
Variable SetProviders : Manager -> list Provider -> Manager.

Lemma existingMap_of_Some (existing : list (option Provider)) (id : string) (p : Provider) :
  existingMap_of existing !! id = Some p -> Some p ∈ existing /\ Identifier p = id.
Proof.
  unfold existingMap_of. induction existing as [|q existing IH] using rev_ind; [done|].
  rewrite foldl_app. cbn [foldl]. destruct q as [q|].
  - destruct (decide (Identifier q = id)) as [<-|Hne].
    + rewrite lookup_insert_eq. intros [= <-]. split; [|done].
      apply elem_of_app. right. by apply list_elem_of_singleton.
    + rewrite lookup_insert_ne by done. intros Hl. destruct (IH Hl) as [Hin ?].
      split; [|done]. apply elem_of_app. by left.
  - intros Hl. destruct (IH Hl) as [Hin ?]. split; [|done]. apply elem_of_app. by left.
Qed.

Lemma existingMap_of_registered (existing : list (option Provider)) (p : Provider) :
  Some p ∈ existing -> is_Some (existingMap_of existing !! Identifier p).
Proof.
  unfold existingMap_of. induction existing as [|q existing IH] using rev_ind.
  - intros Hp. by apply elem_of_nil in Hp.
  - rewrite foldl_app. cbn [foldl]. intros Hp. apply elem_of_app in Hp as [Hp|Hp].
    + destruct q as [q|]; [|by apply IH].
      destruct (decide (Identifier q = Identifier p)) as [Heq|Hne].
      * rewrite <- Heq, lookup_insert_eq. by eexists.
      * rewrite lookup_insert_ne by done. by apply IH.
    + apply list_elem_of_singleton in Hp as <-. rewrite lookup_insert_eq. by eexists.
Qed.

(** X8. A configuration that has top-level keys only, for which
    [MakeInlineAPIKeyProvider] makes an entry of the config-api-key type
    under the inline identifier that the registry can build: on every
    reload [ApplyAccessProviders] hands the manager one newly built
    inline provider, whatever the previous configuration and the
    registered providers were, and never reports that rebuild. It
    reports a change exactly when a provider registered so far has an
    identifier other than the inline one: those providers are the
    removed ones. *)
Theorem inline_keys_are_rebuilt_silently
    (m : Manager) (oldCfg : option (@Config_ any)) (newCfg : @Config_ any) (next : nat)
    (inline_cfg : @AccessProvider any)
    (factory : @AccessProvider any -> @Config_ any -> option string) (built : string) :
  Access_Providers newCfg = [] ->
  Config_APIKeys newCfg <> [] ->
  MakeInlineAPIKeyProvider (Config_APIKeys newCfg) = Some inline_cfg ->
  EqualFold (TrimSpace (Typ inline_cfg)) AccessProviderTypeConfigAPIKey = true ->
  providerIdentifier DefaultAccessProviderName AccessProviderTypeConfigAPIKey
    (Some inline_cfg) <> "" ->
  isInlineProvider DefaultAccessProviderName
    (providerIdentifier DefaultAccessProviderName AccessProviderTypeConfigAPIKey
       (Some inline_cfg)) = true ->
  registry !! Typ inline_cfg = Some factory ->
  factory inline_cfg newCfg = Some built ->
  exists changed : bool,
    ApplyAccessProviders DefaultAccessProviderName AccessProviderTypeConfigAPIKey
      MakeInlineAPIKeyProvider registry Manager Providers SetProviders
      (Some m) oldCfg (Some newCfg) next
    = (Some (SetProviders m [ {| obj := next; Identifier := built |} ]), changed, None)
    /\ (changed = true
        <-> exists p, Some p ∈ Providers m
                      /\ isInlineProvider DefaultAccessProviderName (Identifier p) = false).
Proof.
  intros Hnone Hkeys Hmi Htype Hkey Hinline Hreg Hfac.
  unfold ApplyAccessProviders, ReconcileProviders, collectProviderEntries, slots.
  rewrite Hnone. cbn [imap filter list_filter length Nat.eqb andb].
  assert (Nat.ltb 0 (length (Config_APIKeys newCfg)) = true) as ->.
  { by destruct (Config_APIKeys newCfg). }
  rewrite Hmi. cbn [app reconcile_loop].
  unfold reconcile_step. cbn [val st_next st_result st_finalIDs st_added st_updated].
  rewrite (proj2 (String.eqb_neq _ _) Hkey).
  assert (reusable DefaultAccessProviderName AccessProviderTypeConfigAPIKey
            (accessProviderMap DefaultAccessProviderName AccessProviderTypeConfigAPIKey
               MakeInlineAPIKeyProvider oldCfg)
            (existingMap_of (Providers m)) {| ptr := Inline 1; val := inline_cfg |} = None) as ->.
  { unfold reusable. cbn [val]. rewrite Htype. cbn [negb andb].
    by destruct (accessProviderMap _ _ _ _ !! _). }
  unfold BuildProvider. rewrite Hreg, Hfac.
  unfold appendChange. rewrite Hinline.
  assert (forall (b : bool) (l : list string), (if b then l else l) = l) as Hif by (by intros []).
  rewrite !Hif. unfold reconcile_inline. cbn [st_result app length Nat.eqb negb].
  cbn [result added updated removed st_added st_updated st_finalIDs length Nat.add].
  eexists. split; [reflexivity|].
  set (k := providerIdentifier DefaultAccessProviderName AccessProviderTypeConfigAPIKey
              (Some inline_cfg)) in *.
  split.
  - intros Hlen.
    destruct (removed_ids DefaultAccessProviderName (existingMap_of (Providers m))
                ({[k]} ∪ ∅)) as [|id ids] eqn:Er; [done|].
    assert (id ∈ removed_ids DefaultAccessProviderName (existingMap_of (Providers m))
                   ({[k]} ∪ ∅)) as Hid by (rewrite Er; by left).
    apply AccessProofs.elem_of_removed_ids in Hid as ([p Hp] & _ & Hni).
    apply existingMap_of_Some in Hp as [Hp <-]. by exists p.
  - intros (p & Hp & Hni).
    assert (Identifier p ∈ removed_ids DefaultAccessProviderName
                             (existingMap_of (Providers m)) ({[k]} ∪ ∅)) as Hid.
    { apply AccessProofs.elem_of_removed_ids. split; [by apply existingMap_of_registered|].
      split; [|done]. rewrite elem_of_union, elem_of_singleton.
      intros [Heq|He]; [|by apply elem_of_empty in He]. congruence. }
    destruct (removed_ids _ _ _); [by apply elem_of_nil in Hid|done].
Qed.

End Apply.

Lemma inline_keys_are_rebuilt_silently_witness :
  ApplyAccessProviders "config-inline" "config-api-key" inline_of demo_registry
    (list (option Provider)) list_Providers list_SetProviders
    (Some inline_registered) (Some keys_only_old) (Some keys_only_new) 100
  = (Some [ Some {| obj := 100; Identifier := "config-inline" |} ], false, None)
  /\ ApplyAccessProviders "config-inline" "config-api-key" inline_of demo_registry
       (list (option Provider)) list_Providers list_SetProviders
       (Some ldap_registered) (Some ldap_old) (Some keys_only_new) 100
     = (Some [ Some {| obj := 100; Identifier := "config-inline" |} ], true, None).
Proof.
  split.
  - destruct (inline_keys_are_rebuilt_silently "config-inline" "config-api-key" inline_of
                demo_registry (list (option Provider)) list_Providers list_SetProviders
                inline_registered (Some keys_only_old) keys_only_new 100
                {| Name := "config-inline"; Typ := "config-api-key"; SDK := "";
                   APIKeys := ["k1"; "k2"]; Config := ∅ |}
                (fun c _ => Some (if String.eqb (Name c) "" then "config-inline" else Name c))
                "config-inline")
      as (changed & -> & Hiff);
      [reflexivity|discriminate|reflexivity|reflexivity|by vm_compute
      |reflexivity|reflexivity|reflexivity|].
    destruct changed; [|reflexivity].
    destruct (proj1 Hiff eq_refl) as (p & Hp & Hni).
    apply list_elem_of_singleton in Hp. injection Hp as ->. vm_compute in Hni. discriminate Hni.
  - destruct (inline_keys_are_rebuilt_silently "config-inline" "config-api-key" inline_of
                demo_registry (list (option Provider)) list_Providers list_SetProviders
                ldap_registered (Some ldap_old) keys_only_new 100
                {| Name := "config-inline"; Typ := "config-api-key"; SDK := "";
                   APIKeys := ["k1"; "k2"]; Config := ∅ |}
                (fun c _ => Some (if String.eqb (Name c) "" then "config-inline" else Name c))
                "config-inline")
      as (changed & -> & Hiff);
      [reflexivity|discriminate|reflexivity|reflexivity|by vm_compute
      |reflexivity|reflexivity|reflexivity|].
    rewrite (proj2 Hiff); [reflexivity|].
    exists {| obj := 1; Identifier := "dir-a" |}. split; [by left|reflexivity].
Defined.

End AccessChangesProofs.

(** ** Trimming blanks *)

Module TrimProofs.
Import GoStrings.

Lemma TrimLeft_head (s : string) (c : ascii) (t : string) :
  TrimLeft s = String c t -> is_space c = false.
Proof.
  induction s as [|d s IH]; cbn [TrimLeft]; [done|].
  destruct (is_space d) eqn:Ed; [done|]. by intros [= <- <-].
Qed.

Lemma TrimRight_idem (s : string) : TrimRight (TrimRight s) = TrimRight s.
Proof.
  induction s as [|c s IH]; [done|]. cbn [TrimRight].
  destruct (TrimRight s) as [|d t] eqn:Es.
  - destruct (is_space c) eqn:Ec; [done|]. cbn [TrimRight]. by rewrite Ec.
  - change (TrimRight (String c (String d t)))
      with (match TrimRight (String d t) with
            | EmptyString => if is_space c then EmptyString else String c EmptyString
            | u => String c u
            end).
    by rewrite IH.
Qed.

Lemma TrimRight_keeps_head (c : ascii) (s : string) :
  is_space c = false -> exists t, TrimRight (String c s) = String c t.
Proof.
  intros Hc. cbn [TrimRight]. destruct (TrimRight s) as [|d t]; [|by eexists].
  rewrite Hc. by eexists.
Qed.

Lemma TrimLeft_nonspace (c : ascii) (s : string) :
  is_space c = false -> TrimLeft (String c s) = String c s.
Proof. intros Hc. cbn [TrimLeft]. by rewrite Hc. Qed.

Lemma TrimSpace_idem (s : string) : TrimSpace (TrimSpace s) = TrimSpace s.
Proof.
  unfold TrimSpace. destruct (TrimLeft s) as [|c t] eqn:Es; [done|].
  apply TrimLeft_head in Es as Hc.
  destruct (TrimRight_keeps_head c t Hc) as [u Hu]. rewrite Hu.
  rewrite (TrimLeft_nonspace c u Hc), <- Hu. apply TrimRight_idem.
Qed.

End TrimProofs.

(** ** Identifiers and the index of a configuration *)

Module AccessKeysProofs.
Import GoStrings Access TrimProofs.

Section Keys.

Context {any : Type} `{EqDecision any}.
Variable DefaultAccessProviderName : string.
Variable AccessProviderTypeConfigAPIKey : string.
Variable MakeInlineAPIKeyProvider : list string -> option (@AccessProvider any).

#[local] Abbreviation ident :=
  (providerIdentifier DefaultAccessProviderName AccessProviderTypeConfigAPIKey).
#[local] Abbreviation key :=
  (entry_key DefaultAccessProviderName AccessProviderTypeConfigAPIKey).

(** X9. With a default name that is not empty and has no outer blanks:
    [providerIdentifier] is empty exactly for an entry whose name and
    type are both blank, and the identifier never has outer blanks. *)
Theorem providerIdentifier_is_trimmed_and_blank_only_for_blank
    (p : @AccessProvider any) :
  DefaultAccessProviderName <> "" ->
  TrimSpace DefaultAccessProviderName = DefaultAccessProviderName ->
  (ident (Some p) = "" <-> TrimSpace (Name p) = "" /\ TrimSpace (Typ p) = "")
  /\ TrimSpace (ident (Some p)) = ident (Some p).
Proof.
  intros Hd Ht. unfold providerIdentifier.
  destruct (String.eqb_spec (TrimSpace (Name p)) "") as [Hn|Hn]; cbn [negb].
  - destruct (String.eqb_spec (TrimSpace (Typ p)) "") as [Hty|Hty].
    + split; [done|done].
    + destruct (EqualFold _ _).
      * split; [|done]. split; [done|]. by intros [_ ?].
      * split; [|apply TrimSpace_idem]. split; [done|]. by intros [_ ?].
  - split; [|apply TrimSpace_idem]. split; [done|]. by intros [? _].
Qed.

Lemma fold_accessProviderMap_step (l : list (@Entry any)) (m : gmap string Entry) (k : string) :
  foldl (accessProviderMap_step DefaultAccessProviderName AccessProviderTypeConfigAPIKey) m l
    !! k
  = match last (filter (fun e => (Typ (val e) <> "" /\ key e <> "") /\ key e = k) l) with
    | Some e => Some e
    | None => m !! k
    end.
Proof.
  induction l as [|e l IH] using rev_ind; [done|].
  rewrite foldl_app, filter_app. cbn [foldl].
  unfold accessProviderMap_step at 1.
  fold (entry_key DefaultAccessProviderName AccessProviderTypeConfigAPIKey e).
  destruct (String.eqb_spec (Typ (val e)) "") as [Hty|Hty].
  { rewrite filter_cons_False by (intros [[? _] _]; done).
    rewrite filter_nil, app_nil_r. apply IH. }
  destruct (String.eqb_spec (key e) "") as [Hk|Hk].
  { rewrite filter_cons_False by (intros [[_ ?] _]; done).
    rewrite filter_nil, app_nil_r. apply IH. }
  destruct (decide (key e = k)) as [Hek|Hek].
  - rewrite filter_cons_True by done. rewrite filter_nil, last_snoc.
    subst k. by rewrite lookup_insert_eq.
  - rewrite filter_cons_False by (intros [_ ?]; done).
    rewrite filter_nil, app_nil_r, lookup_insert_ne by done. apply IH.
Qed.

(** X10. [accessProviderMap] is the index of the entries
    [collectProviderEntries] returns: under each identifier it holds the
    configuration of the last entry with that identifier, and nothing
    under an identifier that no entry has. *)
Theorem provider_map_indexes_the_entries (cfg : @Config_ any) (k : string) :
  val <$> (accessProviderMap DefaultAccessProviderName AccessProviderTypeConfigAPIKey
             MakeInlineAPIKeyProvider (Some cfg) !! k)
  = val <$> last (filter (fun e => key e = k)
                    (keyed_entries DefaultAccessProviderName AccessProviderTypeConfigAPIKey
                       MakeInlineAPIKeyProvider cfg)).
Proof.
  unfold accessProviderMap, keyed_entries, collectProviderEntries.
  set (slotted := filter (fun e => Typ (val e) <> "" /\ ident (Some (val e)) <> "") (slots cfg)).
  set (result := foldl (accessProviderMap_step DefaultAccessProviderName
                          AccessProviderTypeConfigAPIKey) ∅ (slots cfg)).
  assert (Hlook : forall k', result !! k' = last (filter (fun e => key e = k') slotted)).
  { intros k'. unfold result. rewrite fold_accessProviderMap_step, lookup_empty.
    unfold slotted. rewrite list_filter_filter.
    assert (filter (fun e => (Typ (val e) <> "" /\ key e <> "") /\ key e = k') (slots cfg)
            = filter (fun e => key e = k' /\ Typ (val e) <> "" /\ ident (Some (val e)) <> "")
                (slots cfg)) as ->.
    { apply list_filter_iff. intros e. unfold entry_key. tauto. }
    by destruct (last _). }
  assert (Hkeyed : filter (fun e => key e <> "") slotted = slotted).
  { unfold slotted. rewrite list_filter_filter. apply list_filter_iff.
    intros e. unfold entry_key. tauto. }
  destruct slotted as [|e0 rest] eqn:Es.
  - assert (result = ∅) as Hres.
    { apply map_eq. intros k'. by rewrite Hlook, lookup_empty. }
    rewrite Hres, map_size_empty. cbn [length Nat.eqb andb].
    destruct (Nat.ltb 0 (length (Config_APIKeys cfg))); [|by rewrite lookup_empty].
    destruct (MakeInlineAPIKeyProvider (Config_APIKeys cfg)) as [inline|];
      [|by rewrite lookup_empty].
    cbn [app].
    destruct (String.eqb_spec (ident (Some inline)) "") as [Hi|Hi]; cbn [negb].
    + rewrite lookup_empty. rewrite filter_cons_False by (intros Hne; by apply Hne).
      done.
    + rewrite filter_cons_True by done. rewrite filter_nil.
      destruct (decide (ident (Some inline) = k)) as [Hk|Hk].
      * rewrite filter_cons_True by done. subst k. by rewrite lookup_insert_eq.
      * rewrite filter_cons_False by done. by rewrite lookup_insert_ne, lookup_empty.
  - assert (size result <> 0) as Hsize.
    { intros Hz. apply map_size_empty_iff in Hz.
      assert (exists e, last (e0 :: rest) = Some e) as [e He].
      { destruct (last (e0 :: rest)) eqn:El; [by eexists|]. by apply last_None in El. }
      pose proof (Hlook (key e)) as Hl.
      assert (e ∈ e0 :: rest) as Hin.
      { apply last_Some in He as [l' ->]. apply elem_of_app. right.
        by apply list_elem_of_singleton. }
      assert (exists e', last (filter (fun e' => key e' = key e) (e0 :: rest)) = Some e')
        as [e' He'].
      { destruct (last (filter _ (e0 :: rest))) eqn:El; [by eexists|].
        apply last_None in El.
        assert (e ∈ filter (fun e' => key e' = key e) (e0 :: rest)) as Hf
          by (by apply list_elem_of_filter).
        rewrite El in Hf. by apply not_elem_of_nil in Hf. }
      rewrite He', Hz, lookup_empty in Hl. done. }
    apply Nat.eqb_neq in Hsize. rewrite Hsize. cbn [length Nat.eqb andb].
    rewrite Hkeyed. by rewrite Hlook.
Qed.

End Keys.

Lemma providerIdentifier_is_trimmed_and_blank_only_for_blank_witness :
  (providerIdentifier "config-inline" "config-api-key" (Some ldap_a_reordered) = ""
   <-> TrimSpace (Name ldap_a_reordered) = "" /\ TrimSpace (Typ ldap_a_reordered) = "")
  /\ TrimSpace (providerIdentifier "config-inline" "config-api-key" (Some ldap_a_reordered))
     = providerIdentifier "config-inline" "config-api-key" (Some ldap_a_reordered).
Proof.
  apply (providerIdentifier_is_trimmed_and_blank_only_for_blank "config-inline"
           "config-api-key" ldap_a_reordered).
  - discriminate.
  - reflexivity.
Defined.

(** X11. [stringSetEqual] compares its arguments as multisets: it
    answers true exactly when every string occurs as often in one list
    as in the other, whatever the order. *)
Theorem stringSetEqual_compares_multisets (a b : list string) :
  stringSetEqual a b = true
  <-> forall x, count_occ string_dec a x = count_occ string_dec b x.
Proof.
  rewrite StringSetProofs.stringSetEqual_Permutation.
  apply (Permutation_count_occ string_dec).
Qed.

End AccessKeysProofs.

(** ** The rewriter as a response writer *)

Module AmpMoreProofs.
Import GoStrings Json Amp AmpWriter LinesProofs AmpProofs.

Lemma update_member_same (k : string) (f : option json -> json) (ms : list (string * json))
    (v : json) :
  lookup_member k ms = Some v -> f (Some v) = v -> update_member k f ms = ms.
Proof.
  intros Hl Hf. induction ms as [|[k' v'] ms IH]; [done|].
  cbn [lookup_member update_member] in *.
  destruct (String.eqb k' k); [|by rewrite IH].
  injection Hl as ->. by rewrite Hf.
Qed.

(** Setting a path to the value it holds changes nothing. *)
Lemma Set_same_value (path : list string) (value data : json) :
  Get path data = Some value -> Set_ path value data = data.
Proof.
  revert data. induction path as [|k rest IH]; intros data; cbn [Get Set_].
  - by intros [= ->].
  - destruct data as [| | | | |ms]; try done.
    destruct (lookup_member k ms) as [v|] eqn:E; [|done].
    intros Hg. f_equal. apply (update_member_same k _ ms v E). by apply IH.
Qed.

Lemma rewrite_path_settled (originalModel : string) (data : json) (path : string) :
  Get (path_of path) data = Some (JString originalModel) \/ Get (path_of path) data = None ->
  rewrite_path originalModel data path = data.
Proof.
  unfold rewrite_path, Exists. intros [Hg|Hg]; rewrite Hg; [|done].
  by apply Set_same_value.
Qed.

(** X12. [rewriteModelInResponse] is idempotent: rewriting a rewritten
    document changes nothing. *)
Theorem rewriteModelInResponse_idempotent (originalModel : string) (data : json) :
  rewriteModelInResponse originalModel (rewriteModelInResponse originalModel data)
  = rewriteModelInResponse originalModel data.
Proof.
  unfold rewriteModelInResponse. destruct (String.eqb originalModel ""); [done|].
  set (once := foldl (rewrite_path originalModel) data modelFieldPaths).
  assert (Hset : forall path, path ∈ modelFieldPaths ->
            Get (path_of path) once = Some (JString originalModel)
            \/ Get (path_of path) once = None).
  { intros path Hin. unfold once.
    rewrite (rewrite_paths originalModel modelFieldPaths data path modelFieldPaths_heads Hin).
    destruct (Exists _ _); [by left|by right]. }
  revert Hset. generalize modelFieldPaths.
  induction l as [|p ps IH]; intros Hset; [done|].
  cbn [foldl]. rewrite rewrite_path_settled by (apply Hset; by left).
  apply IH. intros path Hin. apply Hset. by right.
Qed.

(** Setting a path that exists leaves every unrelated path as it was. *)
Lemma Get_Set_unrelated (q p : list string) (value data : json) :
  Exists q data = true -> unrelated p q ->
  Get p (Set_ q value data) = Get p data.
Proof.
  unfold Exists, unrelated. revert p data.
  induction q as [|k qr IH]; intros p data Hex [Hpq Hqp].
  - exfalso. apply Hqp. apply prefix_nil.
  - destruct p as [|k' pr]; [exfalso; apply Hpq; apply prefix_nil|].
    cbn [Get Set_] in *. destruct data as [| | | | |ms]; try done.
    destruct (lookup_member k ms) as [old|] eqn:E; [|done].
    cbn [Get]. destruct (decide (k = k')) as [<-|Hne].
    + rewrite lookup_update_member_eq, E. apply IH; [done|]. split.
      * intros Hp. apply Hpq. by apply prefix_cons.
      * intros Hp. apply Hqp. by apply prefix_cons.
    + by rewrite lookup_update_member_ne.
Qed.

Lemma rewrite_path_unrelated (originalModel : string) (data : json) (path : string)
    (p : list string) :
  unrelated p (path_of path) ->
  Get p (rewrite_path originalModel data path) = Get p data.
Proof.
  intros Hu. unfold rewrite_path. destruct (Exists (path_of path) data) eqn:E; [|done].
  by apply Get_Set_unrelated.
Qed.

(** X13. [rewriteModelInResponse] touches the model paths only: the
    value at any path that is unrelated to the four model paths (neither
    leads into the other) is what it was, and a document that is not an
    object is returned as it is. *)
Theorem rewriteModelInResponse_touches_only_model_paths
    (originalModel : string) (data : json) :
  (forall p, (forall path, path ∈ modelFieldPaths -> unrelated p (path_of path)) ->
             Get p (rewriteModelInResponse originalModel data) = Get p data)
  /\ ((forall members, data <> JObject members) ->
      rewriteModelInResponse originalModel data = data).
Proof.
  unfold rewriteModelInResponse. destruct (String.eqb originalModel ""); [done|]. split.
  - intros p. revert data. generalize modelFieldPaths.
    induction l as [|q qs IH]; intros data Hu; [done|].
    cbn [foldl]. rewrite IH by (intros path Hin; apply Hu; by right).
    apply rewrite_path_unrelated. apply Hu. by left.
  - intros Hno. revert Hno. generalize modelFieldPaths.
    induction l as [|q qs IH]; intros Hno; [done|].
    cbn [foldl]. assert (rewrite_path originalModel data q = data) as ->; [|by apply IH].
    unfold rewrite_path, Exists. pose proof (path_of_nonempty q) as Hq.
    destruct (path_of q) as [|k rest]; [done|].
    destruct data as [| | | | |ms]; try done. by destruct (Hno ms).
Qed.

Section StreamMore.

Variable rewriteFrame : string -> string -> string.

(** X14. A stream chunk none of whose lines starts with "data: {" is
    returned byte for byte by [rewriteStreamChunk]. *)
Theorem chunk_without_frames_is_unchanged (originalModel chunk : string) :
  (forall line, line ∈ Split chunk "010" -> HasPrefix line "data: {" = false) ->
  rewriteStreamChunk rewriteFrame originalModel chunk = chunk.
Proof.
  intros Hno. unfold rewriteStreamChunk. destruct (String.eqb originalModel ""); [done|].
  assert (map (rewriteLine rewriteFrame originalModel) (Split chunk "010") = Split chunk "010")
    as ->; [|apply Join_Split].
  revert Hno. generalize (Split chunk "010"). induction l as [|line l IH]; intros Hno; [done|].
  cbn [map]. rewrite rewriteLine_data, (Hno line) by by left.
  f_equal. apply IH. intros line' Hin. apply Hno. by right.
Qed.

End StreamMore.

Lemma chunk_without_frames_is_unchanged_witness :
  rewriteStreamChunk keepFrame "gpt-5(high)" ("event: ping" +:+ String "010" "data: [DONE]")
  = "event: ping" +:+ String "010" "data: [DONE]".
Proof.
  apply chunk_without_frames_is_unchanged.
  intros line Hl. vm_compute in Hl.
  repeat (apply elem_of_cons in Hl as [->|Hl]; [reflexivity|]).
  by apply elem_of_nil in Hl.
Defined.

Lemma substring_empty (n m : nat) : substring n m "" = "".
Proof. by destruct n, m. Qed.

Lemma substring_prefix_idem (b : nat) (s : string) :
  substring 0 b (substring 0 b s) = substring 0 b s.
Proof.
  revert s. induction b as [|b IH]; intros s; [by destruct s|].
  destruct s as [|c s]; [done|]. cbn [substring]. by rewrite IH.
Qed.

Lemma substring_of_substring (m a b : nat) (s : string) :
  substring (m + a) b s = substring a b (substring m (a + b) s).
Proof.
  revert s. induction m as [|m IHm]; intros s.
  - cbn [Nat.add]. revert s. induction a as [|a IHa]; intros s.
    + cbn [Nat.add]. by rewrite substring_prefix_idem.
    + destruct s as [|c s]; [done|]. cbn [Nat.add substring]. apply IHa.
  - destruct s as [|c s].
    + by rewrite !substring_empty.
    + cbn [Nat.add substring]. apply IHm.
Qed.

Lemma Contains_event_stream (s : string) :
  Contains s "text/event-stream" = true -> Contains s "stream" = true.
Proof.
  unfold Contains. destruct (index 0 "text/event-stream" s) as [m|] eqn:E; [|done].
  intros _. apply index_correct1 in E.
  destruct (index 0 "stream" s) eqn:E2; [done|]. exfalso.
  apply (index_correct3 0 (m + 11) "stream" s E2); [done|lia|].
  change (String.length "stream") with 6.
  rewrite (substring_of_substring m 11 6 s).
  change (11 + 6) with (String.length "text/event-stream"). by rewrite E.
Qed.

Lemma string_app_assoc (a b c : string) : (a +:+ b) +:+ c = a +:+ (b +:+ c).
Proof.
  induction a as [|x a IH]; [done|].
  change ((String x a +:+ b) +:+ c) with (String x ((a +:+ b) +:+ c)).
  change (String x a +:+ (b +:+ c)) with (String x (a +:+ (b +:+ c))). by rewrite IH.
Qed.

Lemma string_app_nil_r (a : string) : a +:+ "" = a.
Proof.
  induction a as [|x a IH]; [done|].
  change (String x a +:+ "") with (String x (a +:+ "")). by rewrite IH.
Qed.

Section WriterFacts.

Variable rewriteFrame : string -> string -> string.
Variable ResponseWriter : Type.
Variable contentType : ResponseWriter -> string.
Variable write : ResponseWriter -> string -> ResponseWriter * (nat * option string).
Variable flush : ResponseWriter -> ResponseWriter.

#[local] Abbreviation Write_ := (Write rewriteFrame ResponseWriter contentType write flush).
#[local] Abbreviation Flush_ := (Flush rewriteFrame ResponseWriter write flush).
#[local] Abbreviation written_ := (written rewriteFrame ResponseWriter contentType write flush).

Lemma Write_buffered (rw : ResponseRewriter ResponseWriter) (data : string) :
  isStreaming _ rw = false ->
  Contains (contentType (inner _ rw)) "stream" = false ->
  Write_ rw data
  = ({| inner := inner _ rw; body := body _ rw +:+ data;
        originalModel := originalModel _ rw; isStreaming := false |},
     (String.length data, None)).
Proof.
  destruct rw as [w b m s]. cbn [isStreaming inner body originalModel].
  intros -> Hct. unfold Write, detect. cbn [isStreaming inner body originalModel negb].
  assert (Contains (contentType w) "text/event-stream" = false) as Hev.
  { destruct (Contains (contentType w) "text/event-stream") eqn:E; [|done].
    apply Contains_event_stream in E. congruence. }
  rewrite Hev, Hct. rewrite andb_true_r. by destruct (Nat.eqb _ 0).
Qed.

Lemma written_buffered (chunks : list string) (rw : ResponseRewriter ResponseWriter) :
  isStreaming _ rw = false ->
  Contains (contentType (inner _ rw)) "stream" = false ->
  written_ rw chunks
  = {| inner := inner _ rw; body := body _ rw +:+ joined chunks;
       originalModel := originalModel _ rw; isStreaming := false |}.
Proof.
  revert rw. induction chunks as [|data chunks IH]; intros rw Hs Hct.
  - cbn [written foldl joined foldr]. rewrite string_app_nil_r. destruct rw. cbn in *. by subst.
  - unfold written. cbn [foldl]. rewrite (Write_buffered rw data Hs Hct). cbn [fst].
    fold (written_ {| inner := inner _ rw; body := body _ rw +:+ data;
                      originalModel := originalModel _ rw; isStreaming := false |} chunks).
    rewrite IH by done. cbn [inner body originalModel joined foldr].
    by rewrite string_app_assoc.
Qed.

(** X15. When the Content-Type does not contain "stream", the writes
    are buffered: the wrapped writer receives nothing, each [Write]
    reports the length of its data and no error, the body is the chunks
    one after the other, and [Flush] passes the rewritten body to the
    wrapped writer in one write (none when the body is empty). *)
Theorem buffered_body_is_written_once_on_Flush
    (w : ResponseWriter) (model : string) (chunks : list string) (data : string) :
  Contains (contentType w) "stream" = false ->
  inner _ (written_ (NewResponseRewriter ResponseWriter w model) chunks) = w
  /\ body _ (written_ (NewResponseRewriter ResponseWriter w model) chunks) = joined chunks
  /\ (Write_ (written_ (NewResponseRewriter ResponseWriter w model) chunks) data).2
     = (String.length data, None)
  /\ inner _ (Flush_ (written_ (NewResponseRewriter ResponseWriter w model) chunks))
     = if String.eqb (joined chunks) "" then w
       else (write w (rewriteFrame model (joined chunks))).1.
Proof.
  intros Hct.
  rewrite (written_buffered chunks (NewResponseRewriter ResponseWriter w model)) by done.
  cbn [NewResponseRewriter inner body originalModel].
  change ("" +:+ joined chunks) with (joined chunks).
  split; [done|]. split; [done|]. split.
  - by rewrite Write_buffered.
  - unfold Flush. cbn [isStreaming body inner originalModel].
    destruct (joined chunks) as [|c rest]; reflexivity.
Qed.

Lemma Write_streaming (rw : ResponseRewriter ResponseWriter) (data : string) :
  isStreaming _ rw = true ->
  (Write_ rw data).1
  = {| inner := forwarded rewriteFrame ResponseWriter write flush (originalModel _ rw)
                  (inner _ rw) [data];
       body := body _ rw; originalModel := originalModel _ rw; isStreaming := true |}.
Proof.
  destruct rw as [w b m s]. cbn [isStreaming inner body originalModel]. intros ->.
  unfold Write, detect. cbn [isStreaming inner body originalModel negb].
  rewrite andb_false_r. cbn [isStreaming inner body originalModel forwarded foldl].
  by destruct (write w _) as [w' [n [err|]]].
Qed.

Lemma written_streaming (chunks : list string) (rw : ResponseRewriter ResponseWriter) :
  isStreaming _ rw = true ->
  written_ rw chunks
  = {| inner := forwarded rewriteFrame ResponseWriter write flush (originalModel _ rw)
                  (inner _ rw) chunks;
       body := body _ rw; originalModel := originalModel _ rw; isStreaming := true |}.
Proof.
  revert rw. induction chunks as [|data chunks IH]; intros rw Hs.
  - destruct rw. cbn in *. by subst.
  - unfold written. cbn [foldl]. rewrite (Write_streaming rw data Hs).
    match goal with |- foldl _ ?r chunks = _ => fold (written_ r chunks) end.
    rewrite IH by done. reflexivity.
Qed.

(** X16. When the Content-Type contains "stream", nothing is buffered:
    from the first write on each chunk is passed to the wrapped writer as
    a rewritten stream chunk and flushed when the write succeeded, and
    [Flush] only flushes the wrapped writer. *)
Theorem streamed_chunks_are_forwarded_at_once
    (w : ResponseWriter) (model : string) (first : string) (rest : list string) :
  Contains (contentType w) "stream" = true ->
  written_ (NewResponseRewriter ResponseWriter w model) (first :: rest)
  = {| inner := forwarded rewriteFrame ResponseWriter write flush model w (first :: rest);
       body := ""; originalModel := model; isStreaming := true |}
  /\ Flush_ (written_ (NewResponseRewriter ResponseWriter w model) (first :: rest))
     = {| inner := flush (forwarded rewriteFrame ResponseWriter write flush model w
                            (first :: rest));
          body := ""; originalModel := model; isStreaming := true |}.
Proof.
  intros Hct.
  assert (written_ (NewResponseRewriter ResponseWriter w model) (first :: rest)
          = {| inner := forwarded rewriteFrame ResponseWriter write flush model w
                          (first :: rest);
               body := ""; originalModel := model; isStreaming := true |}) as Hw.
  { unfold written. cbn [foldl].
    assert ((Write_ (NewResponseRewriter ResponseWriter w model) first).1
            = {| inner := forwarded rewriteFrame ResponseWriter write flush model w [first];
                 body := ""; originalModel := model; isStreaming := true |}) as ->.
    { unfold Write, detect, NewResponseRewriter.
      cbn [isStreaming inner body originalModel negb String.length Nat.eqb andb].
      rewrite Hct, orb_true_r. cbn [isStreaming inner body originalModel forwarded foldl].
      by destruct (write w _) as [w' [n [err|]]]. }
    match goal with |- foldl _ ?r rest = _ => fold (written_ r rest) end.
    rewrite written_streaming by done. reflexivity. }
  split; [done|]. rewrite Hw. reflexivity.
Qed.

End WriterFacts.

Lemma buffered_body_is_written_once_on_Flush_witness :
  rec_chunks
    (inner _ (Flush keepFrame Recorder rec_write rec_flush
                (written keepFrame Recorder rec_contentType rec_write rec_flush
                   (NewResponseRewriter Recorder json_recorder "gpt-5")
                   ["[1,"; "2]"])))
  = ["[1,2]"].
Proof.
  assert (Contains (rec_contentType json_recorder) "stream" = false) as Hct by reflexivity.
  destruct (buffered_body_is_written_once_on_Flush keepFrame Recorder rec_contentType
              rec_write rec_flush json_recorder "gpt-5" ["[1,"; "2]"] "" Hct)
    as (_ & _ & _ & Hflush).
  rewrite Hflush. reflexivity.
Defined.

Lemma streamed_chunks_are_forwarded_at_once_witness :
  rec_chunks
    (inner _ (written keepFrame Recorder rec_contentType rec_write rec_flush
                (NewResponseRewriter Recorder sse_recorder "gpt-5") ["data: 1"; "data: 2"]))
  = ["data: 1"; "data: 2"].
Proof.
  assert (Contains (rec_contentType sse_recorder) "stream" = true) as Hct by reflexivity.
  destruct (streamed_chunks_are_forwarded_at_once keepFrame Recorder rec_contentType
              rec_write rec_flush sse_recorder "gpt-5" "data: 1" ["data: 2"] Hct)
    as [Hw _].
  rewrite Hw. reflexivity.
Defined.

End AmpMoreProofs.

(** ** The donation site *)

Module DonationProofs.
Import GoStrings Donation.
#[local] Open Scope Z_scope.

(** *** Sessions *)

(** X17. [Create] files the new session under its token, the hex form
    of the random bytes, with the user, the role and an expiry one TTL
    after its creation; [Get] returns it, leaving the store as it is, at
    every instant up to the expiry included, returns nothing after it,
    and nothing once the session was deleted. *)
Theorem created_session_is_found_until_it_expires
    (s : SessionStore) (now : Z) (bytes : list ascii) (user : LinuxDoUser) (role : string) :
  exists session,
    (Create s now (Some bytes) user role).2 = Some session
    /\ ID session = EncodeToString bytes
    /\ LinuxDoID session = user_ID user
    /\ Role session = role
    /\ ExpiresAt session = now + ttl s
    /\ (forall later, later <= now + ttl s ->
          Get (Create s now (Some bytes) user role).1 later (ID session)
          = ((Create s now (Some bytes) user role).1, Some session))
    /\ (forall later, now + ttl s < later ->
          (Get (Create s now (Some bytes) user role).1 later (ID session)).2 = None)
    /\ (forall later,
          (Get (Delete (Create s now (Some bytes) user role).1 (ID session)) later
             (ID session)).2 = None).
Proof.
  unfold Create, GenerateToken. eexists. cbn [fst snd].
  split; [reflexivity|]. cbn [ID LinuxDoID Role ExpiresAt].
  split; [done|]. split; [done|]. split; [done|]. split; [done|].
  split; [|split]; intros later.
  - intros Hl. unfold Get. cbn [sessions]. rewrite lookup_insert_eq.
    unfold IsExpired. cbn [ExpiresAt].
    by rewrite (proj2 (Z.ltb_ge _ _) Hl).
  - intros Hl. unfold Get. cbn [sessions]. rewrite lookup_insert_eq.
    unfold IsExpired. cbn [ExpiresAt].
    by rewrite (proj2 (Z.ltb_lt _ _) Hl).
  - unfold Get, Delete. cbn [sessions]. by rewrite lookup_delete_eq.
Qed.

(** X18. The TTL of a store is positive: [NewSessionStoreWithTTL] keeps
    a positive TTL and replaces any other by the default of
    [NewSessionStore], so a session expires after it was created. *)
Theorem session_lifetime_is_positive (requested : Z) (now : Z) (bytes : list ascii)
    (user : LinuxDoUser) (role : string) :
  0 < ttl (NewSessionStoreWithTTL requested)
  /\ (0 < requested -> ttl (NewSessionStoreWithTTL requested) = requested)
  /\ (requested <= 0 -> ttl (NewSessionStoreWithTTL requested) = ttl NewSessionStore)
  /\ forall session,
       (Create (NewSessionStoreWithTTL requested) now (Some bytes) user role).2 = Some session ->
       CreatedAt session < ExpiresAt session.
Proof.
  unfold NewSessionStoreWithTTL, NewSessionStore. cbn [ttl].
  destruct (Z.leb_spec requested 0) as [Hle|Hgt].
  - split; [done|]. split; [lia|]. split; [done|].
    intros session [= <-]. cbn [CreatedAt ExpiresAt ttl]. unfold SessionTTL. lia.
  - split; [done|]. split; [done|]. split; [lia|].
    intros session [= <-]. cbn [CreatedAt ExpiresAt ttl]. lia.
Qed.

Lemma lookup_Cleanup (s : SessionStore) (now : Z) (sessionID : string) (session : Session) :
  sessions (Cleanup s now) !! sessionID = Some session
  <-> sessions s !! sessionID = Some session /\ IsExpired now session = false.
Proof.
  unfold Cleanup, IsExpired. cbn [sessions].
  rewrite map_lookup_filter_Some. cbn [snd]. by rewrite negb_true_iff.
Qed.

(** X19. [Cleanup] removes exactly the sessions [Get] would refuse at the
    same instant: what [Get] returns for an identifier is the same
    before and after it, the store afterwards holds the sessions that
    have not expired, and the TTL is kept. *)
Theorem Cleanup_removes_exactly_what_Get_would_refuse
    (s : SessionStore) (now : Z) (sessionID : string) :
  (Get (Cleanup s now) now sessionID).2 = (Get s now sessionID).2
  /\ (forall session, sessions (Cleanup s now) !! sessionID = Some session
        <-> sessions s !! sessionID = Some session /\ IsExpired now session = false)
  /\ ttl (Cleanup s now) = ttl s.
Proof.
  split; [|split; [apply lookup_Cleanup|done]]. unfold Get.
  destruct (sessions (Cleanup s now) !! sessionID) as [session|] eqn:Ec.
  - apply lookup_Cleanup in Ec as [Hs He]. by rewrite Hs, He.
  - destruct (sessions s !! sessionID) as [session|] eqn:Es; [|done].
    destruct (IsExpired now session) eqn:He; [done|].
    assert (sessions (Cleanup s now) !! sessionID = Some session) as Hc
      by (by apply lookup_Cleanup).
    congruence.
Qed.

(** X20. [Update] never adds or removes a session: the identifiers of the
    store are the same afterwards. It answers true exactly for a session
    with a non-empty identifier the store holds, which is then replaced
    by the one given; when it answers false the store is unchanged. *)
Theorem Update_replaces_only_known_sessions (s : SessionStore) (session : option Session) :
  dom (sessions (Update s session).1) = dom (sessions s)
  /\ ((Update s session).2 = true
      <-> exists known, session = Some known /\ ID known <> ""
                        /\ is_Some (sessions s !! ID known))
  /\ (forall known, session = Some known -> (Update s session).2 = true ->
        sessions (Update s session).1 !! ID known = Some known)
  /\ ((Update s session).2 = false -> (Update s session).1 = s).
Proof.
  unfold Update. destruct session as [known|].
  2:{ cbn. split; [done|]. split; [|done]. split; [done|]. by intros (? & ? & _). }
  destruct (String.eqb_spec (ID known) "") as [He|Hne].
  { cbn. split; [done|]. split; [|done]. split; [done|].
    intros (k & [= <-] & Hk & _). done. }
  destruct (sessions s !! ID known) as [old|] eqn:El.
  - cbn [fst snd sessions]. split.
    { apply set_eq. intros k. rewrite dom_insert, elem_of_union, elem_of_singleton, !elem_of_dom.
      split; [intros [->|?]; [by eexists|done]|by right]. }
    split; [split; [|done]; intros _; exists known; by rewrite El|].
    split; [|done]. intros k [= <-] _. by rewrite lookup_insert_eq.
  - cbn. split; [done|]. split; [|done]. split; [done|].
    intros (k & [= <-] & _ & [? Hs]). congruence.
Qed.

(** *** Tokens *)

Lemma hex_value_digit (n : nat) :
  (n < 16)%nat -> hex_value (hex_digit (N.of_nat n)) = N.of_nat n.
Proof.
  intros Hn. do 16 (destruct n as [|n]; [vm_compute; reflexivity|]). lia.
Qed.

Lemma hex_digit_in_table (n : nat) :
  (n < 16)%nat -> contains_byte (hex_digit (N.of_nat n)) hextable = true.
Proof.
  intros Hn. do 16 (destruct n as [|n]; [vm_compute; reflexivity|]). lia.
Qed.

Lemma byte_halves (b : ascii) :
  (N_of_ascii b / 16 < 16)%N /\ (N_of_ascii b mod 16 < 16)%N.
Proof.
  pose proof (N_ascii_bounded b) as Hb. split.
  - apply N.Div0.div_lt_upper_bound. lia.
  - apply N.mod_lt. lia.
Qed.

Lemma hex_value_half (n : N) : (n < 16)%N -> hex_value (hex_digit n) = n.
Proof.
  intros Hn. rewrite <- (N2Nat.id n). apply hex_value_digit. lia.
Qed.

Lemma byte_of_digits (a b : ascii) :
  hex_digit (N_of_ascii a / 16) = hex_digit (N_of_ascii b / 16) ->
  hex_digit (N_of_ascii a mod 16) = hex_digit (N_of_ascii b mod 16) ->
  a = b.
Proof.
  intros Hhi Hlo.
  destruct (byte_halves a) as [Ha1 Ha2]. destruct (byte_halves b) as [Hb1 Hb2].
  apply (f_equal hex_value) in Hhi, Hlo.
  rewrite !hex_value_half in Hhi, Hlo by done.
  rewrite <- (ascii_N_embedding a), <- (ascii_N_embedding b). f_equal.
  rewrite (N.div_mod (N_of_ascii a) 16), (N.div_mod (N_of_ascii b) 16) by lia.
  by rewrite Hhi, Hlo.
Qed.

Lemma EncodeToString_inj (a b : list ascii) :
  EncodeToString a = EncodeToString b -> a = b.
Proof.
  revert b. induction a as [|x a IH]; intros [|y b]; cbn [EncodeToString]; try done.
  intros [= Hhi Hlo Hrest]. f_equal; [by apply byte_of_digits|by apply IH].
Qed.

(** X21. A token is twice as long as the random bytes it is made of (64
    characters for [TokenLength] bytes), consists of the digits 0-9 and
    a-f, and different random bytes give different tokens; when the
    random source fails there is no token. *)
Theorem tokens_are_hex_and_distinct (bytes other : list ascii) :
  (exists token, GenerateToken (Some bytes) = Some token
                 /\ String.length token = (2 * length bytes)%nat
                 /\ forall c, contains_byte c token = true -> contains_byte c hextable = true)
  /\ (GenerateToken (Some bytes) = GenerateToken (Some other) -> bytes = other)
  /\ GenerateToken None = None.
Proof.
  split; [|split; [|done]].
  - exists (EncodeToString bytes). split; [done|].
    induction bytes as [|b bytes [IHl IHc]]; [by split|].
    cbn [EncodeToString String.length length]. split; [rewrite IHl; lia|].
    intros c. cbn [contains_byte].
    destruct (byte_halves b) as [H1 H2].
    destruct (Ascii.eqb_spec (hex_digit (N_of_ascii b / 16)) c) as [<-|_].
    { intros _. rewrite <- (N2Nat.id (_ / 16)). apply hex_digit_in_table. lia. }
    destruct (Ascii.eqb_spec (hex_digit (N_of_ascii b mod 16)) c) as [<-|_].
    { intros _. rewrite <- (N2Nat.id (_ mod 16)). apply hex_digit_in_table. lia. }
    apply IHc.
  - unfold GenerateToken. intros [= He]. by apply EncodeToString_inj.
Qed.

(** *** Roles *)


(** X23. [AddAdmin] makes the identifier an admin. [RemoveAdmin] revokes
    what the identifier alone grants: without a user name the role is
    user afterwards, with one the role is what the admin names alone
    give. Neither changes the role of another identifier. *)
Theorem RemoveAdmin_revokes_the_id_only
    (s : RoleService) (linuxDoID other : Z) (username : string) :
  IsAdmin (Some (AddAdmin s linuxDoID)) linuxDoID username = true
  /\ DetermineRole (Some (RemoveAdmin s linuxDoID)) linuxDoID "" = RoleUser
  /\ DetermineRole (Some (RemoveAdmin s linuxDoID)) linuxDoID username
     = DetermineRole (Some {| adminIDs := None; adminUsernames := adminUsernames s |})
         linuxDoID username
  /\ (other <> linuxDoID ->
      DetermineRole (Some (AddAdmin s linuxDoID)) other username
      = DetermineRole (Some s) other username
      /\ DetermineRole (Some (RemoveAdmin s linuxDoID)) other username
         = DetermineRole (Some s) other username).
Proof.
  unfold IsAdmin, DetermineRole, AddAdmin, RemoveAdmin. cbn [adminIDs adminUsernames].
  split; [|split; [|split]].
  - rewrite bool_decide_eq_true_2; [done|]. apply elem_of_union_l. by apply elem_of_singleton.
  - destruct (adminIDs s) as [ids|].
    + rewrite bool_decide_eq_false_2 by set_solver.
      by destruct (adminUsernames s).
    + by destruct (adminUsernames s).
  - destruct (adminIDs s) as [ids|]; [|done].
    by rewrite bool_decide_eq_false_2 by set_solver.
  - intros Hne. split.
    + destruct (adminIDs s) as [ids|]; cbn [default].
      * do 2 case_bool_decide; try done; set_solver.
      * by rewrite bool_decide_eq_false_2 by set_solver.
    + destruct (adminIDs s) as [ids|]; [|done].
      do 2 case_bool_decide; try done; set_solver.
Qed.

(** X24. The version of the service that knows identifiers only agrees
    with the other one asked without a user name, whatever admin names
    that one holds: the role is admin exactly for a listed identifier;
    a nil service and a nil map give the role user. *)
Theorem role_versions_agree_without_a_username
    (adminLinuxDoIDs : list Z) (adminNames : list string) (linuxDoID : Z) :
  RoleIDs.DetermineRole (Some (RoleIDs.NewRoleService adminLinuxDoIDs)) linuxDoID
  = DetermineRole (Some (NewRoleService adminLinuxDoIDs adminNames)) linuxDoID ""
  /\ (RoleIDs.DetermineRole (Some (RoleIDs.NewRoleService adminLinuxDoIDs)) linuxDoID = RoleAdmin
      <-> linuxDoID ∈ adminLinuxDoIDs)
  /\ RoleIDs.DetermineRole None linuxDoID = RoleUser
  /\ RoleIDs.DetermineRole (Some None) linuxDoID = RoleUser.
Proof.
  unfold RoleIDs.DetermineRole, DetermineRole, RoleIDs.NewRoleService, NewRoleService.
  cbn [adminIDs adminUsernames String.eqb negb andb].
  split; [by case_bool_decide|]. split; [|done].
  case_bool_decide as Hid; rewrite elem_of_list_to_set in Hid; [done|].
  split; [done|]. intros ?. done.
Qed.

(** *** Middleware *)

Lemma Get_valid (store : SessionStore) (now : Z) (sessionID : string) (session : Session) :
  (Get store now sessionID).2 = Some session
  <-> sessions store !! sessionID = Some session /\ now <= ExpiresAt session.
Proof.
  unfold Get, IsExpired. destruct (sessions store !! sessionID) as [found|].
  - destruct (Z.ltb_spec (ExpiresAt found) now) as [Hlt|Hge]; cbn [snd].
    + split; [done|]. intros [[= <-] ?]. lia.
    + split; [by intros [= <-]|]. by intros [[= <-] _].
  - cbn. split; [done|]. by intros [? _].
Qed.

Lemma Get_valid_store (store : SessionStore) (now : Z) (sessionID : string)
    (session : Session) :
  (Get store now sessionID).2 = Some session -> (Get store now sessionID).1 = store.
Proof.
  unfold Get. destruct (sessions store !! sessionID) as [found|]; [|done].
  by destruct (IsExpired now found).
Qed.

Lemma AuthMiddleware_cases (store : SessionStore) (now : Z) (c : Context) :
  (exists session, valid_session store now c session
     /\ AuthMiddleware store now c
        = (store, Set_key c SessionContextKey (VSession session), true))
  \/ ((forall session, ~ valid_session store now c session)
      /\ (AuthMiddleware store now c).2 = false
      /\ status <$> aborted (AuthMiddleware store now c).1.2 = Some StatusUnauthorized
      /\ Keys (AuthMiddleware store now c).1.2 = Keys c).
Proof.
  unfold AuthMiddleware, valid_session.
  destruct (requestCookies c !! SessionCookieName) as [sessionID|] eqn:Ec.
  2:{ right. split; [|done]. by intros session (? & ? & _). }
  destruct (String.eqb_spec sessionID "") as [->|Hne].
  { right. split; [|done]. intros session (? & [= <-] & ? & _). done. }
  destruct (Get store now sessionID) as [store' [session|]] eqn:Eg.
  - left. exists session.
    assert ((Get store now sessionID).2 = Some session) as Hg by (by rewrite Eg).
    pose proof (Get_valid_store _ _ _ _ Hg) as Hs. rewrite Eg in Hs. cbn in Hs. subst store'.
    apply Get_valid in Hg as [Hl Hexp]. split; [|done]. by exists sessionID.
  - right. split; [|done]. intros session (sid & [= <-] & _ & Hl & Hexp).
    assert ((Get store now sessionID).2 = Some session) as Hg by (by apply Get_valid).
    rewrite Eg in Hg. done.
Qed.

(** X25. [AuthMiddleware] calls the next handler exactly when the request
    carries, in the cookie session_id, the identifier of a session the
    store holds and that has not expired; the store is then unchanged
    and the context holds that session. Otherwise it aborts with status
    401 and leaves the keys of the context as they were. *)
Theorem AuthMiddleware_lets_valid_sessions_through
    (store : SessionStore) (now : Z) (c : Context) :
  ((AuthMiddleware store now c).2 = true <-> exists session, valid_session store now c session)
  /\ (forall session, valid_session store now c session ->
        AuthMiddleware store now c
        = (store, Set_key c SessionContextKey (VSession session), true)
        /\ GetSessionFromContext (AuthMiddleware store now c).1.2 = Some session)
  /\ ((AuthMiddleware store now c).2 = false ->
        status <$> aborted (AuthMiddleware store now c).1.2 = Some StatusUnauthorized
        /\ Keys (AuthMiddleware store now c).1.2 = Keys c).
Proof.
  destruct (AuthMiddleware_cases store now c)
    as [(session & Hv & Ha)|(Hno & Hn & Hst & Hk)].
  - rewrite Ha. cbn [fst snd]. split; [split; [by exists session|done]|]. split; [|done].
    intros session' Hv'.
    assert (session' = session) as ->.
    { destruct Hv as (i & Hi & _ & Hl & _), Hv' as (i' & Hi' & _ & Hl' & _). congruence. }
    split; [done|]. unfold GetSessionFromContext, Set_key. cbn [Keys].
    by rewrite lookup_insert_eq.
  - rewrite Hn. split; [split; [done|]; intros [session Hv]; by destruct (Hno session)|].
    split; [|done]. intros session Hv. by destruct (Hno session).
Qed.

(** X26. After [AuthMiddleware] let a request through, [RoleMiddleware]
    calls the next handler exactly when the role of the session is admin
    or the required role, and aborts with status 403 otherwise; so
    [AdminOnlyMiddleware] lets admins through and nobody else. *)
Theorem only_the_required_role_passes
    (store : SessionStore) (now : Z) (c : Context) (requiredRole : string)
    (session : Session) :
  valid_session store now c session ->
  ((RoleMiddleware requiredRole (AuthMiddleware store now c).1.2).2 = true
   <-> Role session = RoleAdmin \/ Role session = requiredRole)
  /\ ((RoleMiddleware requiredRole (AuthMiddleware store now c).1.2).2 = false ->
      status <$> aborted (RoleMiddleware requiredRole (AuthMiddleware store now c).1.2).1
      = Some StatusForbidden)
  /\ ((AdminOnlyMiddleware (AuthMiddleware store now c).1.2).2 = true
      <-> Role session = RoleAdmin).
Proof.
  intros Hv.
  destruct (AuthMiddleware_cases store now c) as [(session' & Hv' & Ha)|(Hno & _)];
    [|by destruct (Hno session)].
  assert (session' = session) as ->.
  { destruct Hv as (i & Hi & _ & Hl & _), Hv' as (i' & Hi' & _ & Hl' & _). congruence. }
  rewrite Ha. cbn [fst snd].
  assert (Hget : GetSessionFromContext (Set_key c SessionContextKey (VSession session))
                 = Some session).
  { unfold GetSessionFromContext, Set_key. cbn [Keys]. by rewrite lookup_insert_eq. }
  unfold AdminOnlyMiddleware, RoleMiddleware. rewrite Hget. unfold hasRequiredRole.
  destruct (String.eqb_spec (Role session) RoleAdmin) as [Hr|Hr]; cbn [negb snd fst].
  - split; [split; [by left|done]|]. split; [done|]. done.
  - split; [|split].
    + destruct (String.eqb_spec (Role session) requiredRole) as [Hq|Hq]; cbn [negb snd].
      * split; [by right|done].
      * split; [done|]. intros [?|?]; done.
    + by destruct (String.eqb (Role session) requiredRole).
    + done.
Qed.

Lemma demo_session_is_valid : valid_session demo_store 1500 demo_context demo_session.
Proof. exists "a1b2". repeat split; try done. Qed.

Lemma only_the_required_role_passes_witness :
  (RoleMiddleware "user" (AuthMiddleware demo_store 1500 demo_context).1.2).2 = true
  /\ (AdminOnlyMiddleware (AuthMiddleware demo_store 1500 demo_context).1.2).2 = false.
Proof.
  destruct (only_the_required_role_passes demo_store 1500 demo_context "user" demo_session
              demo_session_is_valid) as (Hrole & _ & Hadmin).
  split.
  - apply Hrole. by right.
  - apply not_true_is_false. intros E. apply Hadmin in E. discriminate.
Defined.

(** X27. After [optionalAuthMiddleware], on a context that held no
    session before, [CheckAdminAccess] of a configured module denies
    access exactly to the requests that carry a valid session whose role
    is not admin: a request without one is let through, and so is every
    request when there is no module. *)
Theorem admin_access_is_denied_to_logged_in_users_only
    (m : DonationModule) (now : Z) (c : Context) :
  Keys c !! SessionContextKey = None ->
  (CheckAdminAccess (Some m) (optionalAuthMiddleware (sessionStore m) now c).2 = false
   <-> isConfigured m = true
       /\ exists session, valid_session (sessionStore m) now c session
                          /\ Role session <> RoleAdmin)
  /\ CheckAdminAccess None (optionalAuthMiddleware (sessionStore m) now c).2 = true.
Proof.
  intros Hk. split; [|done].
  unfold CheckAdminAccess, IsConfigured.
  destruct (isConfigured m); cbn [negb].
  2:{ split; [done|]. by intros [? _]. }
  unfold optionalAuthMiddleware, valid_session.
  destruct (requestCookies c !! SessionCookieName) as [sessionID|] eqn:Ec.
  2:{ cbn [snd]. unfold GetSessionFromContext. rewrite Hk.
      split; [done|]. by intros [_ (s & (i & ? & _) & _)]. }
  destruct (String.eqb_spec sessionID "") as [->|Hne].
  { cbn [snd]. unfold GetSessionFromContext. rewrite Hk.
    split; [done|]. intros [_ (s & (i & [= <-] & ? & _) & _)]. done. }
  destruct (Get (sessionStore m) now sessionID) as [store' [session|]] eqn:Eg.
  - assert ((Get (sessionStore m) now sessionID).2 = Some session) as Hg by (by rewrite Eg).
    apply Get_valid in Hg as [Hl Hexp]. cbn [snd].
    unfold GetSessionFromContext, Set_key. cbn [Keys]. rewrite lookup_insert_eq.
    destruct (String.eqb_spec (Role session) RoleAdmin) as [Hr|Hr].
    + split; [done|]. intros [_ (s & (i & [= <-] & _ & Hl' & _) & Hr')]. congruence.
    + split; [|done]. intros _. split; [done|]. exists session. split; [|done].
      by exists sessionID.
  - cbn [snd]. unfold GetSessionFromContext. rewrite Hk. split; [done|].
    intros [_ (s & (i & [= <-] & _ & Hl & Hexp) & _)].
    assert ((Get (sessionStore m) now sessionID).2 = Some s) as Hg by (by apply Get_valid).
    rewrite Eg in Hg. done.
Qed.

Lemma admin_access_is_denied_to_logged_in_users_only_witness :
  CheckAdminAccess (Some demo_module)
    (optionalAuthMiddleware (sessionStore demo_module) 1500 demo_context).2 = false.
Proof.
  assert (Keys demo_context !! SessionContextKey = None) as Hk by reflexivity.
  destruct (admin_access_is_denied_to_logged_in_users_only demo_module 1500 demo_context Hk)
    as [Hdeny _].
  apply Hdeny. split; [reflexivity|]. exists demo_session.
  split; [apply demo_session_is_valid|discriminate].
Defined.

(** *** Bindings *)

(** X28. [Create] of the binding store files the binding under its
    LinuxDoID, replacing one that was there, with the bound time set to
    now when it was zero, and this also when saving failed: the error of
    [save] is returned and the map keeps the binding. The other
    bindings are untouched, and every binding stays filed under its own
    LinuxDoID. *)
Theorem binding_is_kept_even_if_saving_fails
    (s : BindingStore) (binding : UserBinding) (now : Z)
    (order : list UserBinding) (failure : option string) :
  (Bindings.Create s (Some binding) now order failure).2 = failure
  /\ Bindings.GetByLinuxDoID (Bindings.Create s (Some binding) now order failure).1
       (binding_LinuxDoID binding)
     = Some {| binding_LinuxDoID := binding_LinuxDoID binding;
               binding_NewAPIUserID := binding_NewAPIUserID binding;
               BoundAt := if Z.eqb (BoundAt binding) 0 then now else BoundAt binding |}
  /\ (forall other, other <> binding_LinuxDoID binding ->
        Bindings.GetByLinuxDoID (Bindings.Create s (Some binding) now order failure).1 other
        = Bindings.GetByLinuxDoID s other)
  /\ (well_keyed (bindings s) ->
      well_keyed (bindings (Bindings.Create s (Some binding) now order failure).1)).
Proof.
  unfold Bindings.Create, Bindings.save, Bindings.GetByLinuxDoID.
  assert (Hid : binding_LinuxDoID
                  (if Z.eqb (BoundAt binding) 0
                   then {| binding_LinuxDoID := binding_LinuxDoID binding;
                           binding_NewAPIUserID := binding_NewAPIUserID binding;
                           BoundAt := now |}
                   else binding) = binding_LinuxDoID binding)
    by (by destruct (Z.eqb _ 0)).
  rewrite Hid.
  assert (Hb : (if Z.eqb (BoundAt binding) 0
                then {| binding_LinuxDoID := binding_LinuxDoID binding;
                        binding_NewAPIUserID := binding_NewAPIUserID binding;
                        BoundAt := now |}
                else binding)
               = {| binding_LinuxDoID := binding_LinuxDoID binding;
                    binding_NewAPIUserID := binding_NewAPIUserID binding;
                    BoundAt := if Z.eqb (BoundAt binding) 0 then now else BoundAt binding |})
    by (destruct (Z.eqb _ 0); [done|by destruct binding]).
  rewrite Hb.
  destruct failure as [err|]; cbn [fst snd bindings].
  all: split; [done|]; split; [by rewrite lookup_insert_eq|]; split.
  all: try (intros other Ho; by rewrite lookup_insert_ne).
  all: intros Hwk k b; destruct (decide (k = binding_LinuxDoID binding)) as [->|Hk].
  all: try (rewrite lookup_insert_eq; by intros [= <-]).
  all: rewrite lookup_insert_ne by done; apply Hwk.
Qed.

Lemma load_snoc (entries : list (option UserBinding)) (b : UserBinding) :
  Bindings.load (entries ++ [Some b]) = <[binding_LinuxDoID b := b]> (Bindings.load entries).
Proof. unfold Bindings.load. by rewrite foldl_app. Qed.

Lemma lookup_load (order : list UserBinding) (k : Z) (b : UserBinding) :
  NoDup (binding_LinuxDoID <$> order) ->
  Bindings.load (Some <$> order) !! k = Some b <-> b ∈ order /\ binding_LinuxDoID b = k.
Proof.
  induction order as [|x order IH] using rev_ind.
  - intros _. cbn. rewrite lookup_empty. split; [done|]. intros [Hin _].
    by apply elem_of_nil in Hin.
  - rewrite !fmap_app. cbn [fmap list_fmap]. intros Hnd.
    apply NoDup_app in Hnd as (Hnd & Hdis & _).
    rewrite load_snoc, elem_of_app, list_elem_of_singleton.
    destruct (decide (binding_LinuxDoID x = k)) as [<-|Hne].
    + rewrite lookup_insert_eq. split.
      * intros [= <-]. split; [by right|done].
      * intros [[Hin| ->] Hk]; [|done]. exfalso.
        apply (Hdis (binding_LinuxDoID x)); [|by apply list_elem_of_singleton].
        apply list_elem_of_fmap. by exists b.
    + rewrite lookup_insert_ne by done. rewrite (IH Hnd). split.
      * intros [? ?]. split; [by left|done].
      * intros [[?| ->] Hk]; [done|done].
Qed.

(** X29. What [save] writes loads back: from the slice of the values of
    a map that files each binding under its own LinuxDoID, in whatever
    order the range over the map took, the loop of [load] rebuilds that
    map. *)
Theorem saved_bindings_load_back (s : BindingStore) (order : list UserBinding) :
  well_keyed (bindings s) ->
  order ≡ₚ (map_to_list (bindings s)).*2 ->
  exists entries,
    file (Bindings.save s order None).1 = Some entries
    /\ Bindings.load entries = bindings s
    /\ well_keyed (Bindings.load entries).
Proof.
  intros Hwk Hperm. exists (Some <$> order). split; [done|].
  assert (Hids : binding_LinuxDoID <$> (map_to_list (bindings s)).*2
                 = (map_to_list (bindings s)).*1).
  { rewrite <- list_fmap_compose. apply list_fmap_ext. intros i [k b] Hl. cbn.
    apply Hwk. apply elem_of_map_to_list. by eapply list_elem_of_lookup_2. }
  assert (Hnd : NoDup (binding_LinuxDoID <$> order)).
  { rewrite Hperm, Hids. apply NoDup_fst_map_to_list. }
  assert (Heq : Bindings.load (Some <$> order) = bindings s).
  { apply map_eq. intros k. apply option_eq. intros b.
    rewrite (lookup_load order k b Hnd), Hperm, list_elem_of_fmap. split.
    - intros [([k' b'] & -> & Hin) Hk]. apply elem_of_map_to_list in Hin. cbn in *.
      apply Hwk in Hin as Hk'. congruence.
    - intros Hl. split; [|by apply Hwk]. exists (k, b). split; [done|].
      by apply elem_of_map_to_list. }
  split; [done|]. by rewrite Heq.
Qed.

Lemma saved_bindings_load_back_witness :
  Bindings.load [Some demo_binding_2; Some demo_binding_1] = bindings demo_bindings.
Proof.
  assert (well_keyed (bindings demo_bindings)) as Hwk.
  { intros k b Hl. unfold demo_bindings in Hl. cbn [bindings] in Hl.
    apply lookup_insert_Some in Hl as [[<- <-]|[_ Hl]]; [done|].
    apply lookup_singleton_Some in Hl as [<- <-]. done. }
  assert ([demo_binding_2; demo_binding_1] ≡ₚ (map_to_list (bindings demo_bindings)).*2)
    as Hperm.
  { vm_compute. apply perm_swap || reflexivity. }
  destruct (saved_bindings_load_back demo_bindings [demo_binding_2; demo_binding_1] Hwk Hperm)
    as (entries & Hfile & Hload & _).
  injection Hfile as <-. exact Hload.
Defined.

End DonationProofs.

(** ** The authorisation URL *)

Module LinuxDoProofs.
Import GoStrings LinuxDo.

Lemma escaped_byte_is_safe (c : ascii) (rest : string) (bad : ascii) :
  bad = "&"%char \/ bad = "="%char \/ bad = "#"%char \/ bad = "?"%char \/ bad = " "%char ->
  contains_byte bad (QueryEscape (String c rest)) = contains_byte bad (QueryEscape rest).
Proof.
  intros Hbad. cbn [QueryEscape].
  destruct c as [[] [] [] [] [] [] [] []];
    destruct Hbad as [->|[->|[->|[->| ->]]]]; reflexivity.
Qed.

Lemma QueryEscape_is_safe (s : string) (bad : ascii) :
  bad = "&"%char \/ bad = "="%char \/ bad = "#"%char \/ bad = "?"%char \/ bad = " "%char ->
  contains_byte bad (QueryEscape s) = false.
Proof.
  intros Hbad. induction s as [|c s IH]; [done|]. by rewrite escaped_byte_is_safe.
Qed.

(** X30. [GenerateAuthURL] fails exactly when the client id is empty, or
    else the redirect URI is, so it succeeds for a service that
    [IsConfigured]; the URL is then the authorisation URL followed by
    the four parameters client_id, redirect_uri, response_type=code and
    state, in this order, with their values escaped, and an escaped
    value holds none of the bytes ampersand, equals sign, hash, question
    mark and space. The authorisation URL of a service made by
    [NewLinuxDoConnectService] is the configured one, or the default when
    that is empty. *)
Theorem GenerateAuthURL_carries_four_escaped_parameters
    (s : LinuxDoConnectService) (state : string) :
  (GenerateAuthURL s state = inr ClientIDNotConfigured <-> clientID s = "")
  /\ (GenerateAuthURL s state = inr RedirectURINotConfigured
      <-> clientID s <> "" /\ redirectURI s = "")
  /\ (clientID s <> "" -> redirectURI s <> "" ->
      GenerateAuthURL s state
      = inl (authURL s +:+ "?client_id=" +:+ QueryEscape (clientID s)
             +:+ "&redirect_uri=" +:+ QueryEscape (redirectURI s)
             +:+ "&response_type=code&state=" +:+ QueryEscape state))
  /\ (IsConfigured s = true -> exists url, GenerateAuthURL s state = inl url)
  /\ (forall value bad,
        bad = "&"%char \/ bad = "="%char \/ bad = "#"%char \/ bad = "?"%char \/ bad = " "%char ->
        contains_byte bad (QueryEscape value) = false)
  /\ (forall cfg,
        authURL (NewLinuxDoConnectService cfg)
        = if String.eqb (AuthURL cfg) "" then DefaultAuthURL else AuthURL cfg).
Proof.
  unfold GenerateAuthURL, IsConfigured.
  destruct (String.eqb_spec (clientID s) "") as [Hc|Hc].
  { split; [naive_solver|]. split; [naive_solver|]. split; [naive_solver|].
    split; [done|]. split; [apply QueryEscape_is_safe|done]. }
  destruct (String.eqb_spec (redirectURI s) "") as [Hr|Hr].
  { split; [naive_solver|]. split; [naive_solver|]. split; [naive_solver|].
    split; [by rewrite andb_false_r|]. split; [apply QueryEscape_is_safe|done]. }
  split; [naive_solver|]. split; [naive_solver|].
  split; [intros _ _; reflexivity|]. split; [by eexists|].
  split; [apply QueryEscape_is_safe|done].
Qed.

End LinuxDoProofs.
